(** * The thread-dependency coordinator of demogrid ([MultiThread])

    A shallow embedding of [DemoGridThread] and [MultiThread] from
    [src/demogrid/common/utils.py], with the properties of the
    coordinator stated and proved over it.

    Python objects live in a store: a thread object is referred to by
    its position in [heap] (its identity), so that [th.depends == thread]
    is a comparison of references, as in the source.  [depends] is
    assigned in [__init__] only, so it refers to an object created
    before.  The dictionary [self.threads] is a finite map from names
    to references.

    Concurrency is the interleaving of the transitions of [step]: the
    caller registers threads, calls [run] and starts the threads
    without dependency one by one; a started thread ends its body
    ([run2] returns, or raises an [Exception], whatever [abort] says),
    and then calls the coordinator.  The lock of [MultiThread] makes
    [thread_success] and [thread_failure] atomic: each is one
    transition.  In [step] the assignments of [DemoGridThread.run] to
    its own fields, made without the lock, are part of the transition
    that ends the body: no other thread writes the fields of a thread
    that is running, and none reads them but for the log.  In
    [fine_step] each of these assignments is a transition of its own;
    every world it reaches is, but for what the running threads have
    stored so far, a world that [step] reaches
    ([fine_reachable_view]). *)

From Stdlib Require Import ZArith Lia Ascii.
From stdpp Require Import gmap strings list fin_maps relations.
Local Open Scope Z_scope.

(** ** Data *)

(** The exception value caught in [DemoGridThread.run]: what
    [isinstance(e, ThreadAbortException)] answers, and [str(e)]. *)
Record Exn := mkExn { is_abort : bool; message : string }.

(** [ThreadAbortException()], as raised by [check_continue]. *)
Definition ThreadAbortException : Exn := mkExn true "".

(** Where the underlying [threading.Thread] stands: not started, inside
    [run2], inside the [except] clause just before the call of
    [thread_failure], at the final [if self.status == 0], or returned
    from [run]. *)
Inductive pc := NotStarted | InBody | InHandler | AtCheck | Finished.

#[global] Instance pc_eq_dec : EqDecision pc.
Proof. solve_decision. Defined.

Record DemoGridThread := mkThread {
  name : string;
  exception : option Exn;
  stack_trace : option (list string);
  status : Z;
  depends : option nat;
  at_pc : pc
}.

(** [DemoGridThread.__init__] *)
Definition new_thread (n : string) (d : option nat) : DemoGridThread :=
  {| name := n; exception := None; stack_trace := None;
     status := -1; depends := d; at_pc := NotStarted |}.

Definition set_status (v : Z) (o : DemoGridThread) : DemoGridThread :=
  {| name := name o; exception := exception o; stack_trace := stack_trace o;
     status := v; depends := depends o; at_pc := at_pc o |}.

Definition set_pc (p : pc) (o : DemoGridThread) : DemoGridThread :=
  {| name := name o; exception := exception o; stack_trace := stack_trace o;
     status := status o; depends := depends o; at_pc := p |}.

Definition set_failure (e : Exn) (tb : list string) (o : DemoGridThread)
  : DemoGridThread :=
  {| name := name o; exception := Some e; stack_trace := Some tb;
     status := status o; depends := depends o; at_pc := at_pc o |}.

(** The fields of [MultiThread]; the two [threading.Event]s are the
    flags they hold. *)
Record MultiThread := mkMulti {
  num_threads : Z;
  done_threads : Z;
  threads : gmap string nat;
  all_done : bool;
  abort : bool
}.

(** Where the caller of the coordinator stands: still registering
    threads, inside the loop of [run] with the threads it has yet to
    start (blocked in [all_done.wait()] once the list is empty), or
    returned from [run]. *)
Inductive caller_pc := Registering | Starting (todo : list nat) | Returned.

Record World := mkWorld {
  heap : list DemoGridThread;
  multi : MultiThread;
  caller : caller_pc
}.

(** [MultiThread.__init__] *)
Definition MultiThread_init : MultiThread :=
  {| num_threads := 0; done_threads := 0; threads := ∅;
     all_done := false; abort := false |}.

Definition World_init : World := mkWorld [] MultiThread_init Registering.

Definition incr_done (m : MultiThread) : MultiThread :=
  {| num_threads := num_threads m; done_threads := done_threads m + 1;
     threads := threads m; all_done := all_done m; abort := abort m |}.

Definition set_abort (m : MultiThread) : MultiThread :=
  {| num_threads := num_threads m; done_threads := done_threads m;
     threads := threads m; all_done := all_done m; abort := true |}.

Definition set_all_done (m : MultiThread) : MultiThread :=
  {| num_threads := num_threads m; done_threads := done_threads m;
     threads := threads m; all_done := true; abort := abort m |}.

(** [self.threads.values()] *)
Definition values (m : MultiThread) : list nat := (map_to_list (threads m)).*2.

(** [th.depends] read through a reference *)
Definition depends_of (h : list DemoGridThread) (th : nat) : option (option nat) :=
  depends <$> h !! th.

(** [[th for th in self.threads.values() if th.depends == thread]] *)
Definition dependents (w : World) (thread : nat) : list nat :=
  filter (λ th, depends_of (heap w) th = Some (Some thread)) (values (multi w)).

(** ** Operations *)

(** Creating a thread object: it gets the next reference. *)
Definition alloc (o : DemoGridThread) (w : World) : World :=
  mkWorld (heap w ++ [o]) (multi w) (caller w).

(** [MultiThread.add_thread] *)
Definition add_thread (w : World) (thread : nat) : World :=
  match heap w !! thread with
  | Some o =>
      mkWorld (heap w)
        {| num_threads := num_threads (multi w) + 1;
           done_threads := done_threads (multi w);
           threads := <[name o := thread]> (threads (multi w));
           all_done := all_done (multi w); abort := abort (multi w) |}
        (caller w)
  | None => w
  end.

(** [MultiThread.run], up to its loop: the counter is reset and the
    threads without a dependency are collected. *)
Definition run (w : World) : World :=
  mkWorld (heap w)
    {| num_threads := num_threads (multi w); done_threads := 0;
       threads := threads (multi w);
       all_done := all_done (multi w); abort := abort (multi w) |}
    (Starting (filter (λ th, depends_of (heap w) th = Some None)
                 (values (multi w)))).

(** [Thread.start]: a thread can be started once; a second call raises
    [RuntimeError] ([None]). *)
Definition start (t : nat) (h : list DemoGridThread)
  : option (list DemoGridThread) :=
  match h !! t with
  | Some o =>
      if decide (at_pc o = NotStarted)
      then Some (<[t := set_pc InBody o]> h) else None
  | None => None
  end.

Fixpoint start_all (l : list nat) (h : list DemoGridThread)
  : option (list DemoGridThread) :=
  match l with
  | [] => Some h
  | t :: l => h' ← start t h; start_all l h'
  end.

(** [if self.done_threads == self.num_threads: self.all_done.set()] *)
Definition signal_if_done (m : MultiThread) : MultiThread :=
  if decide (done_threads m = num_threads m) then set_all_done m else m.

(** [MultiThread.thread_success] *)
Definition thread_success (w : World) (thread : nat) : option World :=
  let m := incr_done (multi w) in
  h' ← start_all (dependents w thread) (heap w);
  Some (mkWorld h' (signal_if_done m) (caller w)).

(** One round of the loop of [abort_dependents]:
    [th.status = 3; self.done_threads += 1] *)
Definition skip (th : nat) (w : World) : World :=
  mkWorld (alter (set_status 3) th (heap w)) (incr_done (multi w)) (caller w).

Fixpoint for_each (f : nat → World → option World) (l : list nat) (w : World)
  : option World :=
  match l with
  | [] => Some w
  | th :: l => w' ← f th w; for_each f l w'
  end.

(** [MultiThread.abort_dependents].  The recursion of the source
    descends along [depends]; [fuel] bounds its depth, and [None] is
    the recursion not ending within it. *)
Fixpoint abort_dependents (fuel : nat) (w : World) (thread : nat)
  : option World :=
  match fuel with
  | O => None
  | S fuel =>
      for_each (λ th w', abort_dependents fuel (skip th w') th)
        (dependents w thread) w
  end.

(** [MultiThread.thread_failure].  The recursion of [abort_dependents]
    goes from a thread to threads created after it, so it is no deeper
    than the number of thread objects ([abort_dependents_cascade]). *)
Definition thread_failure (w : World) (thread : nat) : option World :=
  let aborting :=
    match heap w !! thread ≫= exception with
    | Some e => is_abort e
    | None => false
    end in
  let w1 :=
    if aborting
    then mkWorld (alter (set_status 2) thread (heap w)) (multi w) (caller w)
    else mkWorld (heap w) (set_abort (multi w)) (caller w) in
  let w2 := mkWorld (heap w1) (incr_done (multi w1)) (caller w1) in
  w3 ← abort_dependents (S (length (heap w))) w2 thread;
  Some (mkWorld (heap w3) (signal_if_done (multi w3)) (caller w3)).

(** [MultiThread.all_success] *)
Definition all_success (w : World) : bool :=
  forallb (λ t, bool_decide (status <$> heap w !! t = Some 0)) (values (multi w)).

(** [MultiThread.get_exceptions] *)
Definition get_exceptions (w : World)
  : gmap string (option Exn * option (list string)) :=
  list_to_map
    (omap (λ t, o ← heap w !! t;
                if decide (status o = 1)
                then Some (name o, (exception o, stack_trace o)) else None)
       (values (multi w))).

(** [DemoGridThread.check_continue]: the exception it raises, if any. *)
Definition check_continue (w : World) : option Exn :=
  if abort (multi w) then Some ThreadAbortException else None.

(** How [run2] ends: it returns, or raises an [Exception] with its
    formatted traceback. *)
Inductive outcome := Returns | Raises (e : Exn) (tb : list string).

(** [DemoGridThread.run] from the end of [run2] to the call of
    [thread_failure], or to the final [if]. *)
Definition body_done (r : outcome) (o : DemoGridThread) : DemoGridThread :=
  match r with
  | Returns => set_pc AtCheck (set_status 0 o)
  | Raises e tb => set_pc InHandler (set_status 1 (set_failure e tb o))
  end.

Definition with_pc (t : nat) (p : pc) (w : World) : World :=
  mkWorld (alter (set_pc p) t (heap w)) (multi w) (caller w).

(** ** The transitions of the system *)

Inductive step : World → World → Prop :=
| step_new w n d :
    caller w = Registering →
    (∀ p, d = Some p → (p < length (heap w))%nat) →
    step w (alloc (new_thread n d) w)
| step_add w t :
    caller w = Registering →
    (t < length (heap w))%nat →
    step w (add_thread w t)
| step_run w :
    caller w = Registering →
    step w (run w)
| step_start w t todo h' :
    caller w = Starting (t :: todo) →
    start t (heap w) = Some h' →
    step w (mkWorld h' (multi w) (Starting todo))
| step_return w :
    caller w = Starting [] →
    all_done (multi w) = true →
    step w (mkWorld (heap w) (multi w) Returned)
| step_body w t o r :
    heap w !! t = Some o →
    at_pc o = InBody →
    step w (mkWorld (<[t := body_done r o]> (heap w)) (multi w) (caller w))
| step_handler w t o w' :
    heap w !! t = Some o →
    at_pc o = InHandler →
    thread_failure w t = Some w' →
    step w (with_pc t AtCheck w')
| step_check_success w t o w' :
    heap w !! t = Some o →
    at_pc o = AtCheck →
    status o = 0 →
    thread_success w t = Some w' →
    step w (with_pc t Finished w')
| step_check_other w t o :
    heap w !! t = Some o →
    at_pc o = AtCheck →
    status o ≠ 0 →
    step w (with_pc t Finished w).

Definition reachable (w : World) : Prop := rtc step World_init w.

(** ** Vocabulary of the proofs *)

(** A thread nobody has touched yet: not started and not skipped. *)
Definition fresh (o : DemoGridThread) : Prop :=
  at_pc o = NotStarted ∧ status o ≠ 3.

(** A thread that will never succeed: skipped, or past [thread_failure]. *)
Definition failed (o : DemoGridThread) : Prop :=
  status o = 3 ∨ ((at_pc o = AtCheck ∨ at_pc o = Finished) ∧ status o ≠ 0).

(** A thread that [done_threads] accounts for: skipped, past
    [thread_failure], or past [thread_success]. *)
Definition counted (o : DemoGridThread) : Prop :=
  status o = 3 ∨ at_pc o = Finished ∨ (at_pc o = AtCheck ∧ status o ≠ 0).

#[global] Instance counted_dec o : Decision (counted o).
Proof. unfold counted. apply _. Defined.

Definition counted_at (h : list DemoGridThread) (t : nat) : Prop :=
  match h !! t with Some o => counted o | None => False end.

#[global] Instance counted_at_dec h t : Decision (counted_at h t).
Proof. unfold counted_at. destruct (h !! t); apply _. Defined.

(** The number of registered threads that are accounted for. *)
Definition count_done (h : list DemoGridThread) (vals : list nat) : Z :=
  Z.of_nat (length (filter (counted_at h) vals)).

(** [desc vals par x t]: [t] is reached from [x] by going down the
    dependency edges [par] through registered threads [vals]; these
    are the threads the recursion of [abort_dependents] visits. *)
Inductive desc (vals : list nat) (par : nat → option (option nat)) (x : nat)
  : nat → Prop :=
| desc_child t :
    t ∈ vals → par t = Some (Some x) → desc vals par x t
| desc_down t p :
    t ∈ vals → par t = Some (Some p) → desc vals par x p → desc vals par x t.

Definition descendant (w : World) : nat → nat → Prop :=
  desc (values (multi w)) (depends_of (heap w)).

(** [depends_on h b t]: [t] depends on [b], directly or transitively. *)
Inductive depends_on (h : list DemoGridThread) (b : nat) : nat → Prop :=
| depends_direct t :
    depends_of h t = Some (Some b) → depends_on h b t
| depends_through t p :
    depends_of h t = Some (Some p) → depends_on h b p → depends_on h b t.

(** Children of fresh threads are fresh. *)
Definition fresh_closed (h : list DemoGridThread) : Prop :=
  ∀ t o p op, h !! t = Some o → depends o = Some p → h !! p = Some op →
    fresh op → fresh o.

(** [touch R h h']: [h'] is [h] with some fresh threads among [R]
    marked as skipped, and nothing else changed. *)
Definition touch (R : nat → Prop) (h h' : list DemoGridThread) : Prop :=
  ∀ i, h' !! i = h !! i ∨
       (R i ∧ ∃ o, h !! i = Some o ∧ fresh o ∧ h' !! i = Some (set_status 3 o)).

Definition skipped_at (h : list DemoGridThread) (i : nat) : Prop :=
  status <$> h !! i = Some 3.

(** What a cascade over the region [R] does to the world. *)
Record cascade (vals : list nat) (R : nat → Prop) (w w' : World) : Prop := {
  cas_caller : caller w' = caller w;
  cas_num : num_threads (multi w') = num_threads (multi w);
  cas_threads : threads (multi w') = threads (multi w);
  cas_all_done : all_done (multi w') = all_done (multi w);
  cas_abort : abort (multi w') = abort (multi w);
  cas_touch : touch R (heap w) (heap w');
  cas_marked : ∀ i, R i → skipped_at (heap w') i;
  cas_count :
    done_threads (multi w') - count_done (heap w') vals
    = done_threads (multi w) - count_done (heap w) vals;
  cas_closed : fresh_closed (heap w')
}.

(** The registry and the dependency edges of [w] are [vals], [par]. *)
Definition agrees (vals : list nat) (par : nat → option (option nat))
    (w : World) : Prop :=
  values (multi w) = vals ∧ ∀ i, depends_of (heap w) i = par i.

(** What the recursive call of [abort_dependents] is called with, and
    what its loop needs to go on. *)
Record cpre (vals : list nat) (par : nat → option (option nat))
    (w : World) (x : nat) : Prop := {
  cp_agree : agrees vals par w;
  cp_closed : fresh_closed (heap w);
  cp_self : ∀ o, heap w !! x = Some o → ¬ fresh o;
  cp_children :
    ∀ c, c ∈ vals → par c = Some (Some x) →
         ∃ o, heap w !! c = Some o ∧ fresh o
}.

(** ** The invariant of the reachable worlds *)

(** What the fields of one thread object can be at each point of
    [DemoGridThread.run]. *)
Definition local_ok (o : DemoGridThread) : Prop :=
  match at_pc o with
  | NotStarted =>
      (status o = -1 ∨ status o = 3)
      ∧ exception o = None ∧ stack_trace o = None
  | InBody =>
      status o = -1 ∧ exception o = None ∧ stack_trace o = None
  | InHandler =>
      status o = 1 ∧ is_Some (exception o) ∧ is_Some (stack_trace o)
  | AtCheck | Finished =>
      (status o = 0 ∧ exception o = None ∧ stack_trace o = None)
      ∨ ∃ e tb, exception o = Some e ∧ stack_trace o = Some tb
                ∧ status o = (if is_abort e then 2 else 1)
  end.

(** A thread object as [__init__] leaves it. *)
Definition pristine (o : DemoGridThread) : Prop :=
  at_pc o = NotStarted ∧ status o = -1
  ∧ exception o = None ∧ stack_trace o = None.

(** What the position of the caller says about the threads without a
    dependency. *)
Definition caller_ok (w : World) : Prop :=
  match caller w with
  | Registering =>
      all_done (multi w) = false ∧ ∀ t o, heap w !! t = Some o → pristine o
  | Starting todo =>
      NoDup todo
      ∧ (∀ t, t ∈ todo →
           t ∈ values (multi w)
           ∧ ∃ o, heap w !! t = Some o ∧ depends o = None
                  ∧ at_pc o = NotStarted)
      ∧ (∀ t o, t ∈ values (multi w) → heap w !! t = Some o →
           depends o = None → t ∉ todo → at_pc o ≠ NotStarted)
  | Returned =>
      all_done (multi w) = true
      ∧ (∀ t o, t ∈ values (multi w) → heap w !! t = Some o →
           depends o = None → at_pc o ≠ NotStarted)
  end.

Record Inv (w : World) : Prop := {
  inv_order :
    ∀ t o p, heap w !! t = Some o → depends o = Some p → (p < t)%nat;
  inv_reg :
    ∀ n t, threads (multi w) !! n = Some t →
           ∃ o, heap w !! t = Some o ∧ name o = n;
  inv_local : ∀ t o, heap w !! t = Some o → local_ok o;
  inv_started :
    ∀ t o, heap w !! t = Some o → at_pc o ≠ NotStarted →
      t ∈ values (multi w)
      ∧ ∀ p, depends o = Some p →
             ∃ op, heap w !! p = Some op ∧ at_pc op = Finished ∧ status op = 0;
  inv_skipped :
    ∀ t o, heap w !! t = Some o → status o = 3 →
      t ∈ values (multi w)
      ∧ ∃ p op, depends o = Some p ∧ heap w !! p = Some op ∧ failed op;
  inv_launch :
    ∀ t o p op, t ∈ values (multi w) → heap w !! t = Some o →
      depends o = Some p → heap w !! p = Some op →
      at_pc op = Finished → status op = 0 → at_pc o ≠ NotStarted;
  inv_cascade :
    ∀ t o p op, t ∈ values (multi w) → heap w !! t = Some o →
      depends o = Some p → heap w !! p = Some op →
      failed op → status o = 3;
  inv_count :
    done_threads (multi w) = count_done (heap w) (values (multi w));
  inv_size : Z.of_nat (size (threads (multi w))) ≤ num_threads (multi w);
  inv_signal :
    all_done (multi w) = true → done_threads (multi w) = num_threads (multi w);
  inv_wake :
    caller w ≠ Registering → 0 < done_threads (multi w) →
    done_threads (multi w) = num_threads (multi w) →
    all_done (multi w) = true;
  inv_caller : caller_ok w
}.

(** *** What a step does to one thread object *)

(** [o'] plays the part of [o] towards the other threads and the
    counter. *)
Record same_role (o o' : DemoGridThread) : Prop := {
  role_name : name o' = name o;
  role_depends : depends o' = depends o;
  role_success :
    at_pc o = Finished ∧ status o = 0 ↔ at_pc o' = Finished ∧ status o' = 0;
  role_failed : failed o ↔ failed o';
  role_skipped : status o = 3 ↔ status o' = 3;
  role_counted : counted o ↔ counted o';
  role_started : at_pc o ≠ NotStarted → at_pc o' ≠ NotStarted
}.

(** What happens to the object at [i] when [t] ends in success and its
    dependents [D] are started. *)
Definition launched (t : nat) (D : list nat) (i : nat)
    (oi oi' : DemoGridThread) : Prop :=
  (i = t ∧ oi' = set_pc Finished oi)
  ∨ (i ∈ D ∧ i ≠ t ∧ at_pc oi = NotStarted ∧ status oi = -1
     ∧ oi' = set_pc InBody oi)
  ∨ (i ≠ t ∧ (i ∉ D) ∧ oi' = oi).

(** What [thread_failure w t] returns, for a thread [t] that is in the
    [except] clause with the exception [e] in hand. *)
Record failure_effect (w : World) (t : nat) (o : DemoGridThread) (e : Exn)
    (w' : World) : Prop := {
  fe_caller : caller w' = caller w;
  fe_num : num_threads (multi w') = num_threads (multi w);
  fe_threads : threads (multi w') = threads (multi w);
  fe_abort : abort (multi w') = abort (multi w) || negb (is_abort e);
  fe_all_done :
    all_done (multi w') = true ↔
    all_done (multi w) = true
    ∨ done_threads (multi w') = num_threads (multi w');
  fe_count :
    done_threads (multi w') - count_done (heap w') (values (multi w))
    = done_threads (multi w) + 1 - count_done (heap w) (values (multi w));
  fe_self :
    heap w' !! t = Some (if is_abort e then set_status 2 o else o);
  fe_others :
    ∀ i, i ≠ t →
      heap w' !! i = heap w !! i
      ∨ (descendant w t i
         ∧ ∃ oi, heap w !! i = Some oi ∧ fresh oi
                 ∧ heap w' !! i = Some (set_status 3 oi));
  fe_marked : ∀ i, descendant w t i → skipped_at (heap w') i
}.

(** What happens to the object at [i] when [t] ends in failure: [t]
    itself becomes [o'], some untouched descendants are skipped. *)
Definition cascaded (w : World) (t : nat) (o' : DemoGridThread) (i : nat)
    (oi oi' : DemoGridThread) : Prop :=
  (i = t ∧ oi' = o')
  ∨ (i ≠ t ∧ descendant w t i ∧ fresh oi ∧ oi' = set_status 3 oi)
  ∨ (i ≠ t ∧ oi' = oi).

(** ** Running the system on a schedule *)

(** One transition, chosen by the scheduler. *)
Inductive action :=
| ANew (n : string) (d : option nat)
| AAdd (t : nat)
| ARun
| AStart
| AReturn
| ABody (t : nat) (r : outcome)
| AHandler (t : nat)
| ACheck (t : nat).

Definition is_registering (c : caller_pc) : bool :=
  match c with Registering => true | _ => false end.

Definition exec (a : action) (w : World) : option World :=
  match a with
  | ANew n d =>
      if is_registering (caller w)
         && match d with
            | Some p => bool_decide (p < length (heap w))%nat
            | None => true
            end
      then Some (alloc (new_thread n d) w) else None
  | AAdd t =>
      if is_registering (caller w) && bool_decide (t < length (heap w))%nat
      then Some (add_thread w t) else None
  | ARun => if is_registering (caller w) then Some (run w) else None
  | AStart =>
      match caller w with
      | Starting (t :: todo) =>
          h' ← start t (heap w); Some (mkWorld h' (multi w) (Starting todo))
      | _ => None
      end
  | AReturn =>
      match caller w with
      | Starting [] =>
          if all_done (multi w)
          then Some (mkWorld (heap w) (multi w) Returned) else None
      | _ => None
      end
  | ABody t r =>
      o ← heap w !! t;
      if decide (at_pc o = InBody)
      then Some (mkWorld (<[t := body_done r o]> (heap w)) (multi w) (caller w))
      else None
  | AHandler t =>
      o ← heap w !! t;
      if decide (at_pc o = InHandler)
      then w' ← thread_failure w t; Some (with_pc t AtCheck w')
      else None
  | ACheck t =>
      o ← heap w !! t;
      if decide (at_pc o = AtCheck)
      then if decide (status o = 0)
           then w' ← thread_success w t; Some (with_pc t Finished w')
           else Some (with_pc t Finished w)
      else None
  end.

Fixpoint execs (l : list action) (w : World) : option World :=
  match l with
  | [] => Some w
  | a :: l => w' ← exec a w; execs l w'
  end.

(** The world a schedule leads to from the start (the initial world
    if the schedule cannot be followed). *)
Definition after (l : list action) : World :=
  default World_init (execs l World_init).

(** *** Scenarios *)

Definition disk_full : Exn := mkExn false "disk full".

Definition trace_of (s : string) : list string :=
  ["Traceback (most recent call last):"; s].

(** [A]; [B] depends on [A]; [C]: all registered, [run] called. *)
Definition setup_abc : list action :=
  [ANew "A" None; AAdd 0%nat; ANew "B" (Some 0%nat); AAdd 1%nat;
   ANew "C" None; AAdd 2%nat; ARun].

(** [C] fails with "disk full" while [A] is still running; [A] then
    returns. *)
Definition abc_c_failed_a_returned : list action :=
  setup_abc ++
  [AStart; AStart; ABody 2%nat (Raises disk_full (trace_of "disk full"));
   AHandler 2%nat; ABody 0%nat Returns].

(** The diamond of the specification: [B] and [C] depend on [A], [D]
    on [B]; [A] fails. *)
Definition setup_diamond : list action :=
  [ANew "A" None; AAdd 0%nat; ANew "B" (Some 0%nat); AAdd 1%nat;
   ANew "C" (Some 0%nat); AAdd 2%nat; ANew "D" (Some 1%nat); AAdd 3%nat;
   ARun; AStart].

Definition network_error : Exn := mkExn false "network error".

Definition diamond_a_raised : list action :=
  setup_diamond ++ [ABody 0%nat (Raises network_error (trace_of "network error"))].

Definition diamond_a_failed : list action :=
  diamond_a_raised ++ [AHandler 0%nat; ACheck 0%nat; AReturn].

Definition setup_one (n : string) : list action :=
  [ANew n None; AAdd 0%nat; ARun; AStart].

(** [A] succeeds and reports; [B], which depends on [A], is running. *)
Definition chain_b_running : list action :=
  [ANew "A" None; AAdd 0%nat; ANew "B" (Some 0%nat); AAdd 1%nat; ARun;
   AStart; ABody 0%nat Returns; ACheck 0%nat].

(** A single thread fails with an exception whose message is empty
    ([raise Exception()]). *)
Definition one_failed_silently : list action :=
  setup_one "C" ++
  [ABody 0%nat (Raises (mkExn false "") (trace_of "Exception"));
   AHandler 0%nat; ACheck 0%nat; AReturn].

(** A single thread acknowledges an abort: its body raises
    [ThreadAbortException]. *)
Definition one_aborted : list action :=
  setup_one "A" ++
  [ABody 0%nat (Raises ThreadAbortException (trace_of "ThreadAbortException"));
   AHandler 0%nat; ACheck 0%nat; AReturn].

(** Two thread objects with the name ["A"]; the first is registered. *)
Definition two_named_a : list action :=
  [ANew "A" None; AAdd 0%nat; ANew "A" None].

(** ** Assumptions and measure for the termination of [run] *)

(** Every name was registered once. *)
Definition unique_names (w : World) : Prop :=
  num_threads (multi w) = Z.of_nat (size (threads (multi w))).

(** The dependency of a registered thread is registered. *)
Definition deps_registered (w : World) : Prop :=
  ∀ t o p, t ∈ values (multi w) → heap w !! t = Some o →
    depends o = Some p → p ∈ values (multi w).

(** How far a thread is from the end of [run]. *)
Definition pc_rank (o : DemoGridThread) : nat :=
  match at_pc o with
  | NotStarted => 4 | InBody => 3 | InHandler => 2 | AtCheck => 1
  | Finished => 0
  end.

Definition caller_rank (c : caller_pc) : nat :=
  match c with
  | Registering => 0 | Starting todo => S (length todo) | Returned => 0
  end.

(** The number of steps the system can still take, at most. *)
Definition steps_left (w : World) : nat :=
  (sum_list_with pc_rank (heap w) + caller_rank (caller w))%nat.

(** The three threads, after [C] has failed and before [A] ends. *)
Definition abc_c_failed : list action :=
  setup_abc ++
  [AStart; AStart; ABody 2%nat (Raises disk_full (trace_of "disk full"));
   AHandler 2%nat].

(** [B] depends on [A]; only [B] is registered; [run] is called. *)
Definition orphan_b : list action :=
  [ANew "A" None; ANew "B" (Some 0%nat); AAdd 1%nat; ARun].

(** ** The life of one thread object *)

(** What one step can do to a thread object, when it changes it at
    all; [ab'] is [abort] after the step. *)
Inductive obj_step (ab' : bool) : DemoGridThread → DemoGridThread → Prop :=
| os_start o :
    fresh o → obj_step ab' o (set_pc InBody o)
| os_skip o :
    fresh o → obj_step ab' o (set_status 3 o)
| os_body o r :
    at_pc o = InBody → obj_step ab' o (body_done r o)
| os_report o e :
    at_pc o = InHandler → exception o = Some e →
    (is_abort e = false → ab' = true) →
    obj_step ab' o (set_pc AtCheck (if is_abort e then set_status 2 o else o))
| os_return o :
    at_pc o = AtCheck → obj_step ab' o (set_pc Finished o).

(** A thread whose status will not change any more: skipped, or past
    the end of its body with the coordinator told or about to be. *)
Definition settled (o : DemoGridThread) : Prop :=
  status o = 3 ∨ at_pc o = AtCheck ∨ at_pc o = Finished.

(** A thread that failed with an error of its own, reported to the
    coordinator. *)
Definition genuinely_failed (o : DemoGridThread) : Prop :=
  (at_pc o = AtCheck ∨ at_pc o = Finished) ∧ status o = 1.

(** ** [SSH.open]: the retry loop *)

(** The exception in hand in the [except] clause of the loop: the
    [Exception("SSH timeout")] of the loop itself, or what the
    connection attempt raised. *)
Inductive ssh_exn := SSHTimeout | ConnectError (msg : string).

(** How [open] ends: it leaves the loop connected, or it raises; with
    the number of calls of [connect] made and the seconds slept. *)
Inductive open_result :=
| Opened (attempts : nat) (slept : Z)
| OpenFailed (e : ssh_exn) (attempts : nat) (slept : Z).

Definition attempts_of (r : open_result) : nat :=
  match r with Opened a _ => a | OpenFailed _ a _ => a end.

Definition slept_of (r : open_result) : Z :=
  match r with Opened _ s => s | OpenFailed _ _ s => s end.

(** The [while not connected] loop of [SSH.open].  [connect k] is what
    the call number [k] of [self.client.connect] does: [None] if it
    returns, [Some msg] if it raises.  [k] calls were made and [slept]
    seconds slept so far.  [fuel] bounds the number of rounds. *)
Fixpoint open_loop (fuel : nat) (connect : nat → option string)
    (k : nat) (slept remaining : Z) : option open_result :=
  match fuel with
  | O => None
  | S fuel =>
      let tried :=
        if remaining <? 0 then (Some SSHTimeout, k)
        else match connect k with
             | Some msg => (Some (ConnectError msg), S k)
             | None => (None, S k)
             end in
      match tried with
      | (None, k') => Some (Opened k' slept)
      | (Some e, k') =>
          if remaining - 2 <? 0 then Some (OpenFailed e k' slept)
          else open_loop fuel connect k' (slept + 2) (remaining - 2)
      end
  end.

(** [SSH.open(timeout)], from [remaining = timeout] to the end of the
    loop. *)
Definition ssh_open (fuel : nat) (connect : nat → option string)
    (timeout : Z) : option open_result :=
  open_loop fuel connect 0 0 timeout.

(** A server that refuses the first [n] attempts. *)
Definition refuses_first (n : nat) (k : nat) : option string :=
  if decide (k < n)%nat then Some "Connection refused" else None.

(** ** [get_parent_directories] *)

(** Paths are sequences of characters. *)
Definition slash : ascii := "/"%char.

(** [p.rfind('/') + 1]: the position after the last slash, 0 if there
    is none. *)
Fixpoint after_last_slash (p : list ascii) : nat :=
  match p with
  | [] => 0
  | c :: p =>
      match after_last_slash p with
      | O => if decide (c = slash) then 1 else 0
      | S i => S (S i)
      end
  end.

(** [head.rstrip('/')] *)
Fixpoint rstrip_slash (l : list ascii) : list ascii :=
  match l with
  | [] => []
  | c :: l =>
      match rstrip_slash l with
      | [] => if decide (c = slash) then [] else [c]
      | r => c :: r
      end
  end.

(** [head == '/'*len(head)] *)
Definition all_slashes (l : list ascii) : bool :=
  forallb (λ c, bool_decide (c = slash)) l.

(** [os.path.dirname] of the Python standard library ([posixpath]):
    [i = p.rfind('/') + 1; head = p[:i];]
    [if head and head != '/'*len(head): head = head.rstrip('/');]
    [return head]. *)
Definition dirname (p : list ascii) : list ascii :=
  let head := take (after_last_slash p) p in
  if negb (bool_decide (head = [])) && negb (all_slashes head)
  then rstrip_slash head else head.

(** The [while dir != "/"] loop of [get_parent_directories]; [fuel]
    bounds the number of rounds, and [None] is the loop still running
    after them. *)
Fixpoint parents_loop (fuel : nat) (dir : list ascii)
    (dirs : list (list ascii)) : option (list (list ascii)) :=
  match fuel with
  | O => None
  | S fuel =>
      if decide (dir = [slash]) then Some dirs
      else let dir' := dirname dir in parents_loop fuel dir' (dirs ++ [dir'])
  end.

(** [get_parent_directories] *)
Definition get_parent_directories (fuel : nat) (filepath : list ascii)
  : option (list (list ascii)) :=
  let dir := dirname filepath in
  reverse <$> parents_loop fuel dir [dir].

(** The same loop, building the reversed list at once. *)
Fixpoint parents_acc (fuel : nat) (dir : list ascii)
    (acc : list (list ascii)) : option (list (list ascii)) :=
  match fuel with
  | O => None
  | S fuel =>
      if decide (dir = [slash]) then Some acc
      else let dir' := dirname dir in parents_acc fuel dir' (dir' :: acc)
  end.

(** A path that starts with exactly one slash. *)
Definition rooted (p : list ascii) : Prop :=
  match p with
  | c :: q =>
      c = slash ∧ match q with c' :: _ => c' ≠ slash | [] => True end
  | [] => False
  end.

(** Each directory of the list is the [dirname] of the next. *)
Inductive descending : list (list ascii) → Prop :=
| descending_one d : descending [d]
| descending_cons a b l :
    a = dirname b → descending (b :: l) → descending (a :: b :: l).

Definition path (s : string) : list ascii := String.list_ascii_of_string s.

(** ** [SSH.run] *)

(** The file objects [run] can hold: the long-lived streams
    ([sys.stdout], [sys.stderr], or another stream given to the
    constructor) and the files it opens itself for its parameters
    [outf] and [errf]. *)
Inductive stream := SysStdout | SysStderr | UserStream (id : nat).

Inductive fileobj :=
| Std (s : stream)
| OutFile (path : string)
| ErrFile (path : string).

#[global] Instance stream_eq_dec : EqDecision stream.
Proof. solve_decision. Defined.

#[global] Instance fileobj_eq_dec : EqDecision fileobj.
Proof. solve_decision. Defined.

(** What [run] does to the outside: the calls on file objects and on
    the channel, in order. *)
Inductive event :=
| EOpen (f : fileobj)
| EExec (command : string)
| EWrite (f : fileobj) (x : Byte.byte)
| EFlush (f : fileobj)
| EClose (f : fileobj)
| EExitStatus
| EChannelClose.

(** [AttributeError]: a method called on [None]; [ValueError]: I/O on
    a closed file. *)
Inductive run_exn :=
| AttributeError
| ValueError
| SSHCommandFailureException (command : string).

(** The fields of [SSH] that [run] reads; [None] is Python's [None]. *)
Record SSH := {
  default_outf : option stream;
  default_errf : option stream
}.

(** [SSH("user", "host", "key")] *)
Definition SSH_default : SSH :=
  {| default_outf := Some SysStdout; default_errf := Some SysStderr |}.

(** The remote command as the channel shows it: the bytes of its
    standard output, then its exit status. *)
Record channel := {
  stdout_data : list Byte.byte;
  exit_status : Z
}.

(** The file objects that are closed, and the calls made so far. *)
Record io := {
  closed : list fileobj;
  events : list event
}.

Definition io_init : io := {| closed := []; events := [] |}.

(** State and exceptions. *)
Definition IO (A : Type) : Type := io → io * (run_exn + A).

#[global] Instance IO_ret : MRet IO := λ A a s, (s, inr a).

#[global] Instance IO_bind : MBind IO := λ A B f m s,
  match m s with
  | (s', inl e) => (s', inl e)
  | (s', inr a) => f a s'
  end.

Definition io_raise {A} (e : run_exn) : IO A := λ s, (s, inl e).

Definition emit (e : event) : IO unit := λ s,
  ({| closed := closed s; events := events s ++ [e] |}, inr ()).

(** [open(path, "w")]: a new file object, open. *)
Definition open_w (f : fileobj) : IO (option fileobj) := λ s,
  ({| closed := filter (λ g, g ≠ f) (closed s);
      events := events s ++ [EOpen f] |}, inr (Some f)).

(** [f.write(x)] *)
Definition write (o : option fileobj) (x : Byte.byte) : IO unit :=
  match o with
  | None => io_raise AttributeError
  | Some f => λ s,
      if decide (f ∈ closed s) then (s, inl ValueError)
      else emit (EWrite f x) s
  end.

(** [f.flush()] *)
Definition flush (o : option fileobj) : IO unit :=
  match o with
  | None => io_raise AttributeError
  | Some f => λ s,
      if decide (f ∈ closed s) then (s, inl ValueError)
      else emit (EFlush f) s
  end.

(** [f.close()]; closing a closed file is allowed. *)
Definition close (o : option fileobj) : IO unit :=
  match o with
  | None => io_raise AttributeError
  | Some f => λ s,
      ({| closed := f :: closed s; events := events s ++ [EClose f] |},
       inr ())
  end.

(** The [while True] loop of [run]: [channel.recv(1)] gives the bytes
    of the output one by one and then the empty string. *)
Fixpoint copy_output (outf : option fileobj) (data : list Byte.byte)
  : IO unit :=
  match data with
  | [] => mret ()
  | x :: data =>
      write outf x ;; flush outf ;; copy_output outf data
  end.

(** [SSH.run] *)
Definition ssh_run (self : SSH) (chan : channel) (command : string)
    (outf errf : option string) (exception_on_error expectnooutput : bool)
  : IO Z :=
  '(outf, errf) ←
    (if expectnooutput then mret (None, None)
     else
       outf ← match outf with
              | Some p => open_w (OutFile p)
              | None => mret (Std <$> default_outf self)
              end;
       errf ← match errf with
              | Some p => open_w (ErrFile p)
              | None => mret (Std <$> default_errf self)
              end;
       mret (outf, errf)) : IO (option fileobj * option fileobj);
  emit (EExec command) ;;
  (if bool_decide (outf ≠ None) || bool_decide (errf ≠ None) then
     copy_output outf (stdout_data chan) ;;
     (if bool_decide (outf ≠ Some (Std SysStdout)) then close outf
      else mret ()) ;;
     (if bool_decide (errf ≠ Some (Std SysStderr)) then close outf
      else mret ())
   else mret ()) ;;
  emit EExitStatus ;;
  emit EChannelClose ;;
  let rc := exit_status chan in
  if exception_on_error && negb (rc =? 0)
  then io_raise (SSHCommandFailureException command)
  else mret rc.

(** The calls a run adds to those made before. *)
Definition new_events (s s' : io) : list event :=
  drop (length (events s)) (events s').

(** The file object [run] writes the output to. *)
Definition out_object (self : SSH) (outf : option string) (expectnooutput : bool)
  : option fileobj :=
  if expectnooutput then None
  else match outf with
       | Some p => Some (OutFile p)
       | None => Std <$> default_outf self
       end.

(** The calls made on file object [f]: writing, flushing, closing. *)
Definition uses (f : fileobj) (e : event) : Prop :=
  match e with
  | EWrite g _ | EFlush g | EClose g => g = f
  | _ => False
  end.

(** The bytes written to [f], in order. *)
Definition written (f : fileobj) (l : list event) : list Byte.byte :=
  omap (λ e, match e with
             | EWrite g x => if decide (g = f) then Some x else None
             | _ => None
             end) l.

(** A remote command that prints "ok" and ends with status 0, and one
    that prints nothing and ends with status 1. *)
Definition prints_ok : channel :=
  {| stdout_data := [Byte.x6f; Byte.x6b; Byte.x0a]; exit_status := 0 |}.

Definition fails_silently : channel :=
  {| stdout_data := []; exit_status := 1 |}.

(** ** [enum] *)

Section enum.
(** Python's values, and the integers among them. *)
Context {V : Type} (int : nat → V).

(** [dict(pairs)]: the pairs are stored in order, a later one replaces
    an earlier one with the same key. *)
Definition dict_of (pairs : list (string * V)) : gmap string V :=
  foldl (λ m kv, <[kv.1 := kv.2]> m) ∅ pairs.

(** [enum]: the attribute dictionary [enums] of the class it builds,
    [dict(zip(sequential, range(len(sequential))), **named)]. *)
Definition enum (sequential : list string) (named : gmap string V)
  : gmap string V :=
  named ∪ dict_of (zip sequential (int <$> seq 0 (length sequential))).

End enum.

(** ** [DemoGridThread.run], assignment by assignment *)

(** The [except] clause of [DemoGridThread.run] assigns [exception],
    [stack_trace] and [status] one after the other, without the lock.
    Here each assignment is a transition of its own. *)

(** Where a thread stands inside the [except] clause before
    [self.status = 1]: the exception is stored and the formatted
    traceback [tb] is still to be stored, or both are stored. *)
Inductive except_pc := BeforeTrace (tb : list string) | BeforeStatus.

(** The world, and the threads that are inside the [except] clause; in
    [now] such a thread is still inside the [try] statement
    ([InBody]). *)
Record FineWorld := mkFine {
  now : World;
  in_except : gmap nat except_pc
}.

Definition FineWorld_init : FineWorld := mkFine World_init ∅.

(** [self.exception = exc_value] *)
Definition set_exception (e : Exn) (o : DemoGridThread) : DemoGridThread :=
  {| name := name o; exception := Some e; stack_trace := stack_trace o;
     status := status o; depends := depends o; at_pc := at_pc o |}.

(** [self.stack_trace = traceback.format_exception(...)] *)
Definition set_stack_trace (tb : list string) (o : DemoGridThread)
  : DemoGridThread :=
  {| name := name o; exception := exception o; stack_trace := Some tb;
     status := status o; depends := depends o; at_pc := at_pc o |}.

(** The thread object at [t] becomes [o]. *)
Definition put (t : nat) (o : DemoGridThread) (w : World) : World :=
  mkWorld (<[t := o]> (heap w)) (multi w) (caller w).

Inductive fine_step : FineWorld → FineWorld → Prop :=
| fs_new fw n d :
    caller (now fw) = Registering →
    (∀ p, d = Some p → (p < length (heap (now fw)))%nat) →
    fine_step fw (mkFine (alloc (new_thread n d) (now fw)) (in_except fw))
| fs_add fw t :
    caller (now fw) = Registering →
    (t < length (heap (now fw)))%nat →
    fine_step fw (mkFine (add_thread (now fw) t) (in_except fw))
| fs_run fw :
    caller (now fw) = Registering →
    fine_step fw (mkFine (run (now fw)) (in_except fw))
| fs_start fw t todo h' :
    caller (now fw) = Starting (t :: todo) →
    start t (heap (now fw)) = Some h' →
    fine_step fw
      (mkFine (mkWorld h' (multi (now fw)) (Starting todo)) (in_except fw))
| fs_return fw :
    caller (now fw) = Starting [] →
    all_done (multi (now fw)) = true →
    fine_step fw
      (mkFine (mkWorld (heap (now fw)) (multi (now fw)) Returned)
         (in_except fw))
| fs_body_returns fw t o :
    heap (now fw) !! t = Some o →
    at_pc o = InBody →
    in_except fw !! t = None →
    fine_step fw
      (mkFine (put t (set_pc AtCheck (set_status 0 o)) (now fw))
         (in_except fw))
| fs_body_raises fw t o e tb :
    heap (now fw) !! t = Some o →
    at_pc o = InBody →
    in_except fw !! t = None →
    fine_step fw
      (mkFine (put t (set_exception e o) (now fw))
         (<[t := BeforeTrace tb]> (in_except fw)))
| fs_store_trace fw t o tb :
    heap (now fw) !! t = Some o →
    in_except fw !! t = Some (BeforeTrace tb) →
    fine_step fw
      (mkFine (put t (set_stack_trace tb o) (now fw))
         (<[t := BeforeStatus]> (in_except fw)))
| fs_store_status fw t o :
    heap (now fw) !! t = Some o →
    in_except fw !! t = Some BeforeStatus →
    fine_step fw
      (mkFine (put t (set_pc InHandler (set_status 1 o)) (now fw))
         (delete t (in_except fw)))
| fs_handler fw t o w' :
    heap (now fw) !! t = Some o →
    at_pc o = InHandler →
    thread_failure (now fw) t = Some w' →
    fine_step fw (mkFine (with_pc t AtCheck w') (in_except fw))
| fs_check_success fw t o w' :
    heap (now fw) !! t = Some o →
    at_pc o = AtCheck →
    status o = 0 →
    thread_success (now fw) t = Some w' →
    fine_step fw (mkFine (with_pc t Finished w') (in_except fw))
| fs_check_other fw t o :
    heap (now fw) !! t = Some o →
    at_pc o = AtCheck →
    status o ≠ 0 →
    fine_step fw (mkFine (with_pc t Finished (now fw)) (in_except fw)).

Definition fine_reachable (fw : FineWorld) : Prop :=
  rtc fine_step FineWorld_init fw.

(** *** The view in which the [except] clause is one transition *)

(** A thread inside the [try] statement, seen as not having stored
    anything yet. *)
Definition forget_detail (o : DemoGridThread) : DemoGridThread :=
  if decide (at_pc o = InBody)
  then {| name := name o; exception := None; stack_trace := None;
          status := status o; depends := depends o; at_pc := at_pc o |}
  else o.

Definition forget_heap (h : list DemoGridThread) : list DemoGridThread :=
  forget_detail <$> h.

Definition forget (w : World) : World :=
  mkWorld (forget_heap (heap w)) (multi w) (caller w).

Definition atomic_view (fw : FineWorld) : World := forget (now fw).

(** What a thread object holds at each point of the [except] clause. *)
Definition except_ok (fw : FineWorld) : Prop :=
  ∀ t,
    match in_except fw !! t with
    | None =>
        ∀ o, heap (now fw) !! t = Some o → at_pc o = InBody →
          exception o = None ∧ stack_trace o = None
    | Some (BeforeTrace tb) =>
        ∃ o, heap (now fw) !! t = Some o ∧ at_pc o = InBody
             ∧ is_Some (exception o) ∧ stack_trace o = None
    | Some BeforeStatus =>
        ∃ o, heap (now fw) !! t = Some o ∧ at_pc o = InBody
             ∧ is_Some (exception o) ∧ is_Some (stack_trace o)
    end.

(** What a transition of the coordinator, or the end of a body, does
    to the thread objects, as far as the [except] clause can tell:
    the exception and the traceback stay, a thread inside the [try]
    statement stays there, and a thread enters it only by being
    started. *)
Record except_frame (o o' : DemoGridThread) : Prop := {
  ef_exception : exception o' = exception o;
  ef_stack_trace : stack_trace o' = stack_trace o;
  ef_stays : at_pc o = InBody → at_pc o' = InBody;
  ef_enters : at_pc o' = InBody → at_pc o = InBody ∨ at_pc o = NotStarted
}.

Definition heap_frame (h h' : list DemoGridThread) : Prop :=
  ∀ i,
    match h !! i with
    | Some o => ∃ o', h' !! i = Some o' ∧ except_frame o o'
    | None => ∀ o', h' !! i = Some o' → at_pc o' = NotStarted
    end.

(** [o'] is [o] but for its status. *)
Record same_but_status (o o' : DemoGridThread) : Prop := {
  sbs_name : name o' = name o;
  sbs_exception : exception o' = exception o;
  sbs_stack_trace : stack_trace o' = stack_trace o;
  sbs_depends : depends o' = depends o;
  sbs_pc : at_pc o' = at_pc o
}.

(** No thread that was not started holds an exception or a traceback. *)
Definition tidy (h : list DemoGridThread) : Prop :=
  ∀ t o, h !! t = Some o → at_pc o = NotStarted →
    exception o = None ∧ stack_trace o = None.

(** *** Schedules of the finer system *)

Inductive fine_action :=
| FCoord (a : action)
| FRaise (t : nat) (e : Exn) (tb : list string)
| FTrace (t : nat)
| FStatus (t : nat).

(** One transition of [fine_step].  The transitions of the caller and
    of the coordinator are those of [exec]; the end of a body is taken
    here. *)
Definition fine_exec (a : fine_action) (fw : FineWorld) : option FineWorld :=
  match a with
  | FCoord (ABody t Returns) =>
      o ← heap (now fw) !! t;
      if decide (at_pc o = InBody)
      then match in_except fw !! t with
           | None =>
               Some (mkFine (put t (set_pc AtCheck (set_status 0 o)) (now fw))
                       (in_except fw))
           | Some _ => None
           end
      else None
  | FCoord (ABody t (Raises _ _)) => None
  | FCoord a => w' ← exec a (now fw); Some (mkFine w' (in_except fw))
  | FRaise t e tb =>
      o ← heap (now fw) !! t;
      if decide (at_pc o = InBody)
      then match in_except fw !! t with
           | None =>
               Some (mkFine (put t (set_exception e o) (now fw))
                       (<[t := BeforeTrace tb]> (in_except fw)))
           | Some _ => None
           end
      else None
  | FTrace t =>
      o ← heap (now fw) !! t;
      match in_except fw !! t with
      | Some (BeforeTrace tb) =>
          Some (mkFine (put t (set_stack_trace tb o) (now fw))
                  (<[t := BeforeStatus]> (in_except fw)))
      | _ => None
      end
  | FStatus t =>
      o ← heap (now fw) !! t;
      match in_except fw !! t with
      | Some BeforeStatus =>
          Some (mkFine (put t (set_pc InHandler (set_status 1 o)) (now fw))
                  (delete t (in_except fw)))
      | _ => None
      end
  end.

Fixpoint fine_execs (l : list fine_action) (fw : FineWorld)
  : option FineWorld :=
  match l with
  | [] => Some fw
  | a :: l => fw' ← fine_exec a fw; fine_execs l fw'
  end.

Definition fine_after (l : list fine_action) : FineWorld :=
  default FineWorld_init (fine_execs l FineWorld_init).

(** A single thread is running; its body raises "disk full", and the
    thread has stored the exception, not yet the traceback. *)
Definition one_storing : list fine_action :=
  (FCoord <$> setup_one "A")
  ++ [FRaise 0%nat disk_full (trace_of "disk full")].

(** A single thread acknowledges an abort, assignment by assignment,
    and [run] returns. *)
Definition one_aborted_fine : list fine_action :=
  (FCoord <$> setup_one "A")
  ++ [FRaise 0%nat ThreadAbortException (trace_of "ThreadAbortException");
      FTrace 0%nat; FStatus 0%nat;
      FCoord (AHandler 0%nat); FCoord (ACheck 0%nat); FCoord AReturn].

(** ** The contract of the bodies *)

(** A body that fails raises an exception that describes the failure:
    its message is not empty.  ([ThreadAbortException] is the
    acknowledgement of an abort, not a failure.) *)
Definition described (e : Exn) : Prop :=
  is_abort e = false → message e ≠ "".

#[global] Instance described_dec e : Decision (described e).
Proof. unfold described. apply _. Defined.

(** A transition keeps the contract: a thread that leaves its body for
    the [except] clause does so with an exception that is described. *)
Definition body_contract (w w' : World) : Prop :=
  ∀ t o o' e, heap w !! t = Some o → heap w' !! t = Some o' →
    at_pc o = InBody → at_pc o' = InHandler → exception o' = Some e →
    described e.

(** The worlds reached when the bodies keep their contract. *)
Definition reachable_under_contract (w : World) : Prop :=
  rtc (λ w1 w2, step w1 w2 ∧ body_contract w1 w2) World_init w.

(** A schedule whose bodies keep the contract. *)
Definition obeys (a : action) : bool :=
  match a with
  | ABody _ (Raises e _) => bool_decide (described e)
  | _ => true
  end.

(** * Proofs *)

(** ** Basic facts *)

Lemma fresh_not_counted o : fresh o → ¬ counted o.
Proof. intros [Hp Hs] [?|[?|[? _]]]; congruence. Qed.

Lemma fresh_not_failed o : fresh o → ¬ failed o.
Proof. intros [Hp Hs] [?|[[?|?] _]]; congruence. Qed.

Lemma failed_counted o : failed o → counted o.
Proof. intros [?|[[?|?] ?]]; unfold counted; auto. Qed.

Lemma set_status_not_fresh o : ¬ fresh (set_status 3 o).
Proof. intros [_ H]. by apply H. Qed.

Lemma touch_refl R h : touch R h h.
Proof. intros i. by left. Qed.

Lemma touch_mono (R R' : nat → Prop) h h' :
  (∀ i, R i → R' i) → touch R h h' → touch R' h h'.
Proof.
  intros HR Ht i. destruct (Ht i) as [?|[? ?]]; [by left|right; auto].
Qed.

Lemma touch_trans (R1 R2 : nat → Prop) h1 h2 h3 :
  touch R1 h1 h2 → touch R2 h2 h3 → touch (λ i, R1 i ∨ R2 i) h1 h3.
Proof.
  intros H12 H23 i.
  destruct (H23 i) as [E23|(HR2 & o2 & E2 & F2 & E3)].
  - rewrite E23. destruct (H12 i) as [?|(? & o & ? & ? & ?)]; [by left|].
    right. split; [by left|]. by exists o.
  - destruct (H12 i) as [E12|(_ & o & _ & _ & E12)].
    + right. split; [by right|]. exists o2. by rewrite <- E12.
    + rewrite E12 in E2. injection E2 as <-. by destruct (set_status_not_fresh o).
Qed.

Lemma touch_length R h h' : touch R h h' → length h' = length h.
Proof.
  intros Ht.
  assert (∀ i, is_Some (h' !! i) ↔ is_Some (h !! i)) as Hs.
  { intros i. destruct (Ht i) as [->|(_ & o & -> & _ & ->)]; [done|].
    split; eauto. }
  destruct (decide (length h' = length h)) as [|Hne]; [done|exfalso].
  destruct (decide (length h' < length h)%nat).
  - assert (is_Some (h !! length h')) as H by (apply lookup_lt_is_Some; lia).
    apply Hs, lookup_lt_is_Some in H. lia.
  - assert (is_Some (h' !! length h)) as H by (apply lookup_lt_is_Some; lia).
    apply Hs, lookup_lt_is_Some in H. lia.
Qed.

Lemma touch_depends_of R h h' i :
  touch R h h' → depends_of h' i = depends_of h i.
Proof.
  intros Ht. unfold depends_of.
  destruct (Ht i) as [->|(_ & o & -> & _ & ->)]; done.
Qed.

Lemma touch_skipped R h h' i :
  touch R h h' → skipped_at h i → skipped_at h' i.
Proof.
  unfold skipped_at. intros Ht Hs.
  destruct (Ht i) as [->|(_ & o & _ & _ & ->)]; done.
Qed.

Lemma touch_not_fresh R h h' i o o' :
  touch R h h' → h !! i = Some o → ¬ fresh o → h' !! i = Some o' → o' = o.
Proof.
  intros Ht Ho Hnf Ho'.
  destruct (Ht i) as [E|(_ & o2 & E2 & F2 & _)]; [congruence|].
  rewrite Ho in E2. injection E2 as <-. contradiction.
Qed.

Lemma touch_outside (R : nat → Prop) h h' i :
  touch R h h' → ¬ R i → h' !! i = h !! i.
Proof. intros Ht Hn. destruct (Ht i) as [?|[? _]]; [done|contradiction]. Qed.

Section Descendants.

Variable vals : list nat.

Variable par : nat → option (option nat).

Hypothesis par_lt : ∀ t p, par t = Some (Some p) → (p < t)%nat.

Lemma desc_lt x t : desc vals par x t → (x < t)%nat.
Proof using par_lt.
  induction 1 as [t _ Hp|t p _ Hp _ IH].
  - by apply par_lt.
  - apply par_lt in Hp. lia.
Qed.

Lemma desc_extend x c t :
  c ∈ vals → par c = Some (Some x) → desc vals par c t → desc vals par x t.
Proof.
  intros Hc Hx. induction 1 as [t Ht Hp|t p Ht Hp _ IH].
  - eapply desc_down; [done..|]. by apply desc_child.
  - by eapply desc_down.
Qed.

Lemma desc_top x t :
  desc vals par x t →
  ∃ c, c ∈ vals ∧ par c = Some (Some x) ∧ (t = c ∨ desc vals par c t).
Proof.
  induction 1 as [t Ht Hp|t p Ht Hp _ (c & Hc & Hx & [->|Hd])].
  - exists t. auto.
  - exists c. split_and!; [done..|]. right. by apply desc_child.
  - exists c. split_and!; [done..|]. right. by eapply desc_down.
Qed.

(** A thread is not below its sibling. *)
Lemma desc_sibling x c c' :
  par c = Some (Some x) → par c' = Some (Some x) → ¬ desc vals par c c'.
Proof using par_lt.
  intros Hc Hc' Hd. pose proof (par_lt _ _ Hc) as Hlt.
  inversion Hd as [t _ Hp|t p _ Hp Hd']; subst.
  - rewrite Hc' in Hp. injection Hp as ->. lia.
  - rewrite Hc' in Hp. injection Hp as <-. apply desc_lt in Hd'. lia.
Qed.

End Descendants.

(** ** Counting *)

Lemma count_done_ext h h' vals :
  (∀ i, i ∈ vals → (counted_at h i ↔ counted_at h' i)) →
  count_done h vals = count_done h' vals.
Proof.
  unfold count_done. intros H. f_equal.
  induction vals as [|a l IH]; [done|].
  rewrite !filter_cons.
  assert (counted_at h a ↔ counted_at h' a) as Ha by (apply H; left).
  assert (length (filter (counted_at h) l) = length (filter (counted_at h') l))
    as Hl by (apply IH; intros i Hi; apply H; by right).
  repeat case_decide; simpl; tauto || lia.
Qed.

Lemma count_done_one h h' vals c :
  NoDup vals → c ∈ vals →
  ¬ counted_at h c → counted_at h' c →
  (∀ i, i ∈ vals → i ≠ c → (counted_at h i ↔ counted_at h' i)) →
  count_done h' vals = count_done h vals + 1.
Proof.
  intros Hnd Hc Hn Hy Ho.
  induction vals as [|a l IH]; [by apply elem_of_nil in Hc|].
  apply NoDup_cons in Hnd as [Ha Hnd].
  unfold count_done in *. rewrite !filter_cons.
  destruct (decide (a = c)) as [->|Hac].
  - assert (count_done h l = count_done h' l) as E.
    { apply count_done_ext. intros i Hi. apply Ho; [by right|].
      intros ->. contradiction. }
    unfold count_done in E. apply Nat2Z.inj in E.
    repeat case_decide; simpl; tauto || lia.
  - apply elem_of_cons in Hc as [->|Hc]; [done|].
    assert (counted_at h a ↔ counted_at h' a) as Ha' by (apply Ho; [left|]; done).
    specialize (IH Hnd Hc).
    assert (∀ i, i ∈ l → i ≠ c → counted_at h i ↔ counted_at h' i) as Ho'
      by (intros i Hi; apply Ho; by right).
    specialize (IH Ho').
    repeat case_decide; simpl; try tauto; lia.
Qed.

Lemma count_done_mono h h' vals :
  (∀ i, i ∈ vals → counted_at h i → counted_at h' i) →
  count_done h vals ≤ count_done h' vals.
Proof.
  unfold count_done. intros H. apply inj_le.
  induction vals as [|a l IH]; [done|].
  rewrite !filter_cons.
  assert (counted_at h a → counted_at h' a) as Ha by (apply H; left).
  assert (length (filter (counted_at h) l) ≤ length (filter (counted_at h') l))%nat
    as Hl by (apply IH; intros i Hi; apply H; by right).
  repeat case_decide; simpl; try tauto; lia.
Qed.

Lemma count_done_bounds h vals :
  0 ≤ count_done h vals ≤ Z.of_nat (length vals).
Proof.
  unfold count_done. pose proof (length_filter (counted_at h) vals). lia.
Qed.

(** When every registered thread is accounted for, and only then, the
    count is the size of the registry. *)
Lemma count_done_full h vals :
  count_done h vals = Z.of_nat (length vals) ↔ ∀ i, i ∈ vals → counted_at h i.
Proof.
  unfold count_done. split.
  - intros E i Hi. destruct (decide (counted_at h i)) as [|Hn]; [done|].
    pose proof (length_filter_lt (counted_at h) vals i Hi Hn). lia.
  - intros H. f_equal. induction vals as [|a l IH]; [done|].
    rewrite filter_cons. rewrite decide_True by (apply H; left).
    simpl. f_equal. apply IH. intros i Hi. apply H. by right.
Qed.

(** ** The cascade of [abort_dependents] *)

Section Cascade.

Variable vals : list nat.

Variable par : nat → option (option nat).

Hypothesis vals_nodup : NoDup vals.

Hypothesis par_lt : ∀ t p, par t = Some (Some p) → (p < t)%nat.

Lemma agrees_depends w t o :
  agrees vals par w → heap w !! t = Some o → par t = Some (depends o).
Proof. intros [_ H] Ho. rewrite <- H. unfold depends_of. by rewrite Ho. Qed.

Lemma agrees_lookup w t d :
  agrees vals par w → par t = Some d → ∃ o, heap w !! t = Some o ∧ depends o = d.
Proof.
  intros [_ H] Hp. rewrite <- H in Hp. unfold depends_of in Hp.
  destruct (heap w !! t) as [o|]; [|done]. exists o. split; [done|].
  simpl in Hp. congruence.
Qed.

Lemma agrees_dependents w x c :
  agrees vals par w → c ∈ dependents w x ↔ par c = Some (Some x) ∧ c ∈ vals.
Proof.
  intros [Hv Hp]. unfold dependents. rewrite list_elem_of_filter.
  by rewrite Hv, Hp.
Qed.

Lemma cascade_agrees R w w' : cascade vals R w w' → agrees vals par w → agrees vals par w'.
Proof.
  intros Hc [Hv Hp]. split.
  - unfold values. by rewrite (cas_threads _ _ _ _ Hc).
  - intros i. rewrite <- Hp. eapply touch_depends_of, cas_touch, Hc.
Qed.

Lemma cascade_refl (R : nat → Prop) w :
  fresh_closed (heap w) → (∀ i, ¬ R i) → cascade vals R w w.
Proof.
  intros Hcl HR. split; try done.
  - apply touch_refl.
  - intros i Hi. by destruct (HR i).
Qed.

Lemma cascade_trans (R1 R2 : nat → Prop) w1 w2 w3 :
  cascade vals R1 w1 w2 → cascade vals R2 w2 w3 →
  cascade vals (λ i, R1 i ∨ R2 i) w1 w3.
Proof.
  intros H12 H23. split.
  - rewrite (cas_caller _ _ _ _ H23). apply H12.
  - rewrite (cas_num _ _ _ _ H23). apply H12.
  - rewrite (cas_threads _ _ _ _ H23). apply H12.
  - rewrite (cas_all_done _ _ _ _ H23). apply H12.
  - rewrite (cas_abort _ _ _ _ H23). apply H12.
  - eapply touch_trans; [apply H12|apply H23].
  - intros i [Hi|Hi].
    + eapply touch_skipped; [apply H23|]. by apply H12.
    + by apply H23.
  - rewrite (cas_count _ _ _ _ H23). apply H12.
  - apply H23.
Qed.

Lemma cascade_equiv (R R' : nat → Prop) w w' :
  (∀ i, R i ↔ R' i) → cascade vals R w w' → cascade vals R' w w'.
Proof.
  intros HR Hc. split; try apply Hc.
  - eapply touch_mono; [|apply Hc]. intros i. apply HR.
  - intros i Hi. apply Hc. by apply HR.
Qed.

(** One round of the loop marks a fresh child of [x]. *)
Lemma skip_cascade w x c o :
  agrees vals par w → fresh_closed (heap w) →
  (∀ ox, heap w !! x = Some ox → ¬ fresh ox) →
  c ∈ vals → par c = Some (Some x) →
  heap w !! c = Some o → fresh o →
  cascade vals (λ i, i = c) w (skip c w) ∧ agrees vals par (skip c w).
Proof using vals_nodup par_lt.
  intros Hag Hcl Hx Hc Hpc Ho Hf.
  pose proof (par_lt _ _ Hpc) as Hlt.
  assert (heap (skip c w) !! c = Some (set_status 3 o)) as Ec.
  { simpl. by rewrite list_lookup_alter_eq, Ho. }
  assert (∀ i, i ≠ c → heap (skip c w) !! i = heap w !! i) as En.
  { intros i Hi. simpl. by rewrite list_lookup_alter_ne. }
  split; [split; try done|].
  - intros i. destruct (decide (i = c)) as [->|Hi].
    + right. split; [done|]. by exists o.
    + left. by apply En.
  - intros i ->. unfold skipped_at. by rewrite Ec.
  - cbn [skip multi incr_done done_threads heap].
    rewrite (count_done_one (heap w) (alter (set_status 3) c (heap w)) vals c);
      [lia|done..| | |].
    + unfold counted_at. rewrite Ho. by apply fresh_not_counted.
    + unfold counted_at. change (alter _ _ _) with (heap (skip c w)).
      rewrite Ec. by left.
    + intros i _ Hi. unfold counted_at.
      change (alter _ _ _) with (heap (skip c w)). by rewrite En.
  - intros t ot p op Ht Hd Hp Hfp.
    destruct (decide (p = c)) as [->|Hpn].
    { rewrite Ec in Hp. injection Hp as <-.
      by destruct (set_status_not_fresh o). }
    rewrite En in Hp by done.
    destruct (decide (t = c)) as [->|Htn].
    + rewrite Ec in Ht. injection Ht as <-. simpl in Hd.
      pose proof (agrees_depends _ _ _ Hag Ho) as E.
      rewrite Hpc, Hd in E. injection E as <-.
      by destruct (Hx _ Hp).
    + rewrite En in Ht by done. eapply Hcl; eauto.
  - destruct Hag as [Hv Hp]. split; [done|].
    intros i. rewrite <- Hp. unfold depends_of.
    destruct (decide (i = c)) as [->|Hi].
    + by rewrite Ec, Ho.
    + by rewrite En.
Qed.

Lemma skip_cpre w x c o :
  agrees vals par w → fresh_closed (heap w) →
  (∀ ox, heap w !! x = Some ox → ¬ fresh ox) →
  c ∈ vals → par c = Some (Some x) →
  heap w !! c = Some o → fresh o →
  cpre vals par (skip c w) c.
Proof using vals_nodup par_lt.
  intros Hag Hcl Hx Hc Hpc Ho Hf.
  destruct (skip_cascade w x c o) as [Hcas Hag']; try done.
  split; [done|apply Hcas| |].
  - intros o'. simpl. rewrite list_lookup_alter_eq, Ho. intros [= <-].
    apply set_status_not_fresh.
  - intros c2 Hc2 Hp2. pose proof (par_lt _ _ Hp2) as Hlt.
    destruct (agrees_lookup _ _ _ Hag Hp2) as (o2 & Ho2 & Hd2).
    exists o2. simpl. rewrite list_lookup_alter_ne by lia.
    split; [done|]. eapply Hcl; eauto.
Qed.

(** The loop of [abort_dependents] over children [l] of [x], given
    what the recursive call [rec] does. *)
Lemma for_each_cascade (rec : World → nat → option World) x n :
  (∀ w c, cpre vals par w c → length (heap w) = n →
     c ∈ vals → par c = Some (Some x) →
     ∃ w', rec w c = Some w' ∧ cascade vals (desc vals par c) w w') →
  ∀ l w,
    length (heap w) = n →
    NoDup l →
    (∀ c, c ∈ l → c ∈ vals ∧ par c = Some (Some x)) →
    agrees vals par w → fresh_closed (heap w) →
    (∀ o, heap w !! x = Some o → ¬ fresh o) →
    (∀ c, c ∈ l → ∃ o, heap w !! c = Some o ∧ fresh o) →
    ∃ w', for_each (λ th w1, rec (skip th w1) th) l w = Some w' ∧
          cascade vals (λ i, ∃ c, c ∈ l ∧ (i = c ∨ desc vals par c i)) w w'.
Proof using vals_nodup par_lt.
  intros Hrec l. induction l as [|c l IH]; intros w Hn Hnd Hl Hag Hcl Hx Hfr.
  { exists w. split; [done|]. apply cascade_refl; [done|].
    intros i (c & Hc & _). by apply elem_of_nil in Hc. }
  apply NoDup_cons in Hnd as [Hcl' Hnd].
  destruct (Hl c) as [Hcv Hcp]; [left|].
  destruct (Hfr c) as (o & Ho & Hfo); [left|].
  destruct (skip_cascade w x c o) as [Hc1 Hag1]; try done.
  pose proof (skip_cpre w x c o Hag Hcl Hx Hcv Hcp Ho Hfo) as Hpre1.
  assert (length (heap (skip c w)) = n) as Hn1
    by (simpl; by rewrite length_alter).
  destruct (Hrec _ _ Hpre1 Hn1 Hcv Hcp) as (w2 & Er & Hc2).
  pose proof (cascade_trans _ _ _ _ _ Hc1 Hc2) as Hc12.
  assert (agrees vals par w2) as Hag2 by (eapply cascade_agrees; eauto).
  destruct (IH w2) as (w3 & E3 & Hc3); try done.
  - by rewrite (touch_length _ _ _ (cas_touch _ _ _ _ Hc2)).
  - intros c' Hc'. apply Hl. by right.
  - apply Hc2.
  - intros o' Ho'.
    destruct (lookup_lt_is_Some_2 (heap w) x) as [ox Hox].
    { rewrite <- (touch_length _ _ _ (cas_touch _ _ _ _ Hc12)).
      apply lookup_lt_is_Some. eauto. }
    rewrite (touch_not_fresh _ _ _ _ _ _ (cas_touch _ _ _ _ Hc12) Hox
               (Hx _ Hox) Ho').
    by apply Hx.
  - intros c' Hc'. destruct (Hfr c') as (o' & Ho' & Hfo'); [by right|].
    exists o'. split; [|done].
    rewrite (touch_outside _ _ _ c' (cas_touch _ _ _ _ Hc12)); [done|].
    intros [->|Hd]; [done|].
    destruct (Hl c') as [_ Hp']; [by right|].
    by apply (desc_sibling vals par par_lt x c c').
  - exists w3. split; [simpl; by rewrite Er|].
    eapply cascade_equiv; [|eapply cascade_trans; [apply Hc12|apply Hc3]].
    intros i. simpl. split.
    + intros [[->|Hd]|(c' & Hc' & Hi)].
      * exists c. split; [left|by left].
      * exists c. split; [left|by right].
      * exists c'. split; [by right|done].
    + intros (c' & Hc' & Hi). apply elem_of_cons in Hc' as [->|Hc'].
      * left. destruct Hi; [by left|by right].
      * right. by exists c'.
Qed.

(** [abort_dependents] returns once [fuel] exceeds the number of
    objects above [x], and it marks exactly the descendants of [x]. *)
Lemma abort_dependents_cascade fuel :
  ∀ w x, cpre vals par w x → (length (heap w) ≤ fuel + x)%nat →
    ∃ w', abort_dependents (S fuel) w x = Some w' ∧
          cascade vals (desc vals par x) w w'.
Proof using vals_nodup par_lt.
  induction fuel as [|fuel IH]; intros w x Hpre Hlen.
  - assert (dependents w x = []) as E.
    { apply elem_of_nil_inv. intros c Hc.
      apply (agrees_dependents w x c (cp_agree _ _ _ _ Hpre)) in Hc as [Hp Hc].
      destruct (agrees_lookup _ _ _ (cp_agree _ _ _ _ Hpre) Hp) as (o & Ho & _).
      apply lookup_lt_Some in Ho. apply par_lt in Hp. lia. }
    exists w. simpl. rewrite E. split; [done|].
    apply cascade_refl; [apply Hpre|].
    intros i Hd. apply desc_top in Hd as (c & Hc & Hp & _).
    assert (c ∈ dependents w x) as Hin
      by (by apply (agrees_dependents w x c (cp_agree _ _ _ _ Hpre))).
    rewrite E in Hin. by apply elem_of_nil in Hin.
  - destruct (for_each_cascade (abort_dependents (S fuel)) x (length (heap w)))
      with (l := dependents w x) (w := w) as (w' & E & Hc).
    + intros w1 c Hpre1 El Hc Hp. apply IH; [done|].
      apply par_lt in Hp. lia.
    + done.
    + unfold dependents. destruct (cp_agree _ _ _ _ Hpre) as [-> _].
      by apply NoDup_filter.
    + intros c Hc.
      apply (agrees_dependents w x c (cp_agree _ _ _ _ Hpre)) in Hc. tauto.
    + apply Hpre.
    + apply Hpre.
    + apply Hpre.
    + intros c Hc.
      apply (agrees_dependents w x c (cp_agree _ _ _ _ Hpre)) in Hc as [Hp Hc].
      by apply (cp_children _ _ _ _ Hpre).
    + exists w'. split; [exact E|].
      eapply cascade_equiv; [|exact Hc]. intros i. split.
      * intros (c & Hc' & Hi).
        apply (agrees_dependents w x c (cp_agree _ _ _ _ Hpre)) in Hc' as [Hp Hc'].
        destruct Hi as [->|Hd]; [by apply desc_child|].
        by apply (desc_extend vals par x c).
      * intros Hd. apply desc_top in Hd as (c & Hc' & Hp & Hi).
        exists c. split; [|done].
        by apply (agrees_dependents w x c (cp_agree _ _ _ _ Hpre)).
Qed.

End Cascade.

(** ** The invariant is preserved *)

(** *** The registry and the registration phase *)

Lemma elem_of_values m t : t ∈ values m ↔ ∃ n, threads m !! n = Some t.
Proof.
  unfold values. rewrite list_elem_of_fmap. split.
  - intros ([n t'] & -> & H). exists n. by apply elem_of_map_to_list in H.
  - intros (n & H). exists (n, t). split; [done|]. by apply elem_of_map_to_list.
Qed.

Lemma length_values m : length (values m) = size (threads m).
Proof. unfold values. by rewrite length_fmap, length_map_to_list. Qed.

Lemma NoDup_values (h : list DemoGridThread) m :
  (∀ n t, threads m !! n = Some t → ∃ o, h !! t = Some o ∧ name o = n) →
  NoDup (values m).
Proof.
  intros Hreg. unfold values. apply NoDup_fmap_2_strong; [|apply NoDup_map_to_list].
  intros [n1 t1] [n2 t2] H1 H2. simpl. intros <-.
  apply elem_of_map_to_list, Hreg in H1 as (o1 & E1 & <-).
  apply elem_of_map_to_list, Hreg in H2 as (o2 & E2 & <-).
  congruence.
Qed.

Lemma Inv_NoDup_values w : Inv w → NoDup (values (multi w)).
Proof. intros H. eapply NoDup_values, H. Qed.

Lemma Inv_values_lookup w t :
  Inv w → t ∈ values (multi w) → ∃ o, heap w !! t = Some o.
Proof.
  intros H Ht. apply elem_of_values in Ht as (n & Hn).
  destruct (inv_reg _ H _ _ Hn) as (o & Ho & _). eauto.
Qed.

Lemma Inv_par_lt w t p :
  Inv w → depends_of (heap w) t = Some (Some p) → (p < t)%nat.
Proof.
  intros H. unfold depends_of. destruct (heap w !! t) as [o|] eqn:E; [|done].
  simpl. intros [= Hd]. eapply inv_order; eauto.
Qed.

Lemma Inv_fresh_closed w : Inv w → fresh_closed (heap w).
Proof.
  intros H t o p op Ht Hd Hp [Hpc Hst].
  split.
  - destruct (decide (at_pc o = NotStarted)) as [|Hn]; [done|exfalso].
    destruct (inv_started _ H _ _ Ht Hn) as [_ Hpar].
    destruct (Hpar _ Hd) as (op' & Hp' & Hfin & _). congruence.
  - intros Hs. destruct (inv_skipped _ H _ _ Ht Hs) as (_ & p' & op' & Hd' & Hp' & Hf).
    assert (op' = op) as -> by congruence.
    by apply (fresh_not_failed op).
Qed.

Lemma Inv_done_le_size w :
  Inv w → 0 ≤ done_threads (multi w) ≤ Z.of_nat (size (threads (multi w))).
Proof.
  intros H. rewrite (inv_count _ H), <- length_values. apply count_done_bounds.
Qed.

(** A world in which no thread has been started. *)
Lemma Inv_pristine w :
  (∀ t o p, heap w !! t = Some o → depends o = Some p → (p < t)%nat) →
  (∀ n t, threads (multi w) !! n = Some t →
          ∃ o, heap w !! t = Some o ∧ name o = n) →
  (∀ t o, heap w !! t = Some o → pristine o) →
  Z.of_nat (size (threads (multi w))) ≤ num_threads (multi w) →
  all_done (multi w) = false →
  done_threads (multi w) = 0 →
  caller_ok w →
  Inv w.
Proof.
  intros Hord Hreg Hpr Hsz Had Hdn Hcl.
  split; try done.
  - intros t o Ht. destruct (Hpr _ _ Ht) as (Hp & Hs & He & Htb).
    unfold local_ok. rewrite Hp. auto.
  - intros t o Ht Hn. destruct (Hpr _ _ Ht) as (Hp & _). contradiction.
  - intros t o Ht Hs. destruct (Hpr _ _ Ht) as (_ & Hs' & _). lia.
  - intros t o p op _ _ _ Hp Hf. destruct (Hpr _ _ Hp) as (Hp' & _). congruence.
  - intros t o p op _ _ _ Hp [Hf|[[Hf|Hf] _]];
      destruct (Hpr _ _ Hp) as (Hp' & Hs' & _); congruence || lia.
  - rewrite Hdn. symmetry.
    assert (filter (counted_at (heap w)) (values (multi w)) = []) as E; [|unfold count_done; by rewrite E].
    apply elem_of_nil_inv. intros i Hi. apply list_elem_of_filter in Hi as [Hc _].
    unfold counted_at in Hc. destruct (heap w !! i) as [o|] eqn:E; [|done].
    destruct (Hpr _ _ E) as (Hp' & Hs' & _).
    destruct Hc as [?|[?|[? _]]]; congruence || lia.
  - congruence.
  - intros _ Hd. lia.
Qed.

Lemma Inv_init : Inv World_init.
Proof.
  apply Inv_pristine; try done.
Qed.

Lemma Inv_registering_pristine w t o :
  Inv w → caller w = Registering → heap w !! t = Some o → pristine o.
Proof.
  intros H Hc Ht. pose proof (inv_caller _ H) as Hcl.
  unfold caller_ok in Hcl. rewrite Hc in Hcl. destruct Hcl as [_ Hp]. eauto.
Qed.

Lemma Inv_registering_done w :
  Inv w → caller w = Registering → done_threads (multi w) = 0.
Proof.
  intros H Hc. rewrite (inv_count _ H).
  assert (filter (counted_at (heap w)) (values (multi w)) = []) as E;
    [|unfold count_done; by rewrite E].
  apply elem_of_nil_inv. intros i Hi. apply list_elem_of_filter in Hi as [Hcn _].
  unfold counted_at in Hcn. destruct (heap w !! i) as [o|] eqn:E; [|done].
  destruct (Inv_registering_pristine _ _ _ H Hc E) as (Hp' & Hs' & _).
  destruct Hcn as [?|[?|[? _]]]; congruence || lia.
Qed.

Lemma Inv_registering_all_done w :
  Inv w → caller w = Registering → all_done (multi w) = false.
Proof.
  intros H Hc. pose proof (inv_caller _ H) as Hcl.
  unfold caller_ok in Hcl. rewrite Hc in Hcl. tauto.
Qed.

Lemma Inv_step_new w n d :
  Inv w → caller w = Registering →
  (∀ p, d = Some p → (p < length (heap w))%nat) →
  Inv (alloc (new_thread n d) w).
Proof.
  intros H Hc Hd.
  assert (∀ t o, (heap w ++ [new_thread n d]) !! t = Some o →
            heap w !! t = Some o ∨ (t = length (heap w) ∧ o = new_thread n d))
    as Hlk.
  { intros t o Ht. apply lookup_app_Some in Ht as [?|[? Ht]]; [by left|right].
    apply list_lookup_singleton_Some in Ht as [? ?]. split; [lia|done]. }
  apply Inv_pristine; simpl.
  - intros t o p Ht Hdp. destruct (Hlk _ _ Ht) as [Ht'|[-> ->]].
    + eapply inv_order; eauto.
    + by apply Hd.
  - intros m t Hm. destruct (inv_reg _ H _ _ Hm) as (o & Ho & Hn).
    exists o. split; [|done]. by apply lookup_app_l_Some.
  - intros t o Ht. destruct (Hlk _ _ Ht) as [Ht'|[-> ->]].
    + eapply Inv_registering_pristine; eauto.
    + done.
  - apply H.
  - by apply Inv_registering_all_done.
  - by apply Inv_registering_done.
  - unfold caller_ok. simpl. rewrite Hc. split.
    + by apply Inv_registering_all_done.
    + intros t o Ht. destruct (Hlk _ _ Ht) as [Ht'|[-> ->]]; [|done].
      eapply Inv_registering_pristine; eauto.
Qed.

Lemma Inv_step_add w t :
  Inv w → caller w = Registering → Inv (add_thread w t).
Proof.
  intros H Hc. unfold add_thread.
  destruct (heap w !! t) as [o|] eqn:Ho; [|done].
  apply Inv_pristine; simpl.
  - apply H.
  - intros n t' Hn. destruct (decide (name o = n)) as [<-|Hne].
    + rewrite lookup_insert_eq in Hn. injection Hn as <-. eauto.
    + rewrite lookup_insert_ne in Hn by done. by apply H.
  - intros t' o'. by apply Inv_registering_pristine.
  - pose proof (inv_size _ H). rewrite map_size_insert.
    destruct (threads (multi w) !! name o); simpl; unfold id; lia.
  - by apply Inv_registering_all_done.
  - by apply Inv_registering_done.
  - unfold caller_ok. simpl. rewrite Hc. split.
    + by apply Inv_registering_all_done.
    + intros t' o'. by apply Inv_registering_pristine.
Qed.

Lemma Inv_step_run w : Inv w → caller w = Registering → Inv (run w).
Proof.
  intros H Hc. apply Inv_pristine; simpl; try apply H.
  - intros t o. by apply Inv_registering_pristine.
  - by apply Inv_registering_all_done.
  - done.
  - unfold caller_ok. simpl. split_and!.
    + apply NoDup_filter. by apply Inv_NoDup_values.
    + intros t Ht. apply list_elem_of_filter in Ht as [Hd Ht].
      split; [done|]. unfold depends_of in Hd.
      destruct (heap w !! t) as [o|] eqn:Ho; [|done].
      exists o. simpl in Hd. split_and!; [done|congruence|].
      by destruct (Inv_registering_pristine _ _ _ H Hc Ho).
    + intros t o Ht Ho Hd Hn. exfalso. apply Hn.
      apply list_elem_of_filter. split; [|done].
      unfold depends_of. rewrite Ho. simpl. by rewrite Hd.
Qed.

(** *** Steps that change one thread object *)

Lemma same_role_refl o : same_role o o.
Proof. by split. Qed.

Lemma Inv_update w t o o' c' :
  Inv w → caller w ≠ Registering → heap w !! t = Some o →
  same_role o o' → local_ok o' →
  (at_pc o' ≠ NotStarted →
     at_pc o ≠ NotStarted ∨ (t ∈ values (multi w) ∧ depends o = None)) →
  c' ≠ Registering →
  caller_ok (mkWorld (<[t := o']> (heap w)) (multi w) c') →
  Inv (mkWorld (<[t := o']> (heap w)) (multi w) c').
Proof.
  intros H Hrun Ho Hrole Hloc Hst Hc' Hcaller.
  set (h' := <[t := o']> (heap w)).
  assert (h' !! t = Some o') as Et
    by (apply list_lookup_insert_eq; by eapply lookup_lt_Some).
  assert (∀ i, i ≠ t → h' !! i = heap w !! i) as En
    by (intros i Hi; by apply list_lookup_insert_ne).
  (* the object that was at [i] before the step *)
  assert (∀ i oi', h' !! i = Some oi' →
            ∃ oi, heap w !! i = Some oi ∧ same_role oi oi'
                  ∧ (i ≠ t → oi' = oi) ∧ (i = t → oi = o ∧ oi' = o')) as Hold.
  { intros i oi' Hi. destruct (decide (i = t)) as [->|Hne].
    - rewrite Et in Hi. injection Hi as <-. exists o. by split_and!.
    - rewrite En in Hi by done. exists oi'.
      split_and!; [done|apply same_role_refl|done|done]. }
  assert (∀ i oi, heap w !! i = Some oi →
            ∃ oi', h' !! i = Some oi' ∧ same_role oi oi') as Hnew.
  { intros i oi Hi. destruct (decide (i = t)) as [->|Hne].
    - exists o'. split; [done|]. by replace oi with o by congruence.
    - exists oi. split; [by rewrite En|apply same_role_refl]. }
  split; simpl; fold h'.
  - intros i oi' p Hi Hd. destruct (Hold _ _ Hi) as (oi & Hoi & Hr & _).
    rewrite (role_depends _ _ Hr) in Hd. eapply inv_order; eauto.
  - intros n i Hn. destruct (inv_reg _ H _ _ Hn) as (oi & Hoi & Hnm).
    destruct (Hnew _ _ Hoi) as (oi' & Hoi' & Hr). exists oi'.
    split; [done|]. by rewrite (role_name _ _ Hr).
  - intros i oi' Hi. destruct (Hold _ _ Hi) as (oi & Hoi & _ & Hne & Heq).
    destruct (decide (i = t)) as [->|Hn].
    + by destruct (Heq eq_refl) as [_ ->].
    + rewrite (Hne Hn). eapply inv_local; eauto.
  - intros i oi' Hi Hs. destruct (Hold _ _ Hi) as (oi & Hoi & Hr & Hne & Heq).
    assert (at_pc oi ≠ NotStarted ∨ (i ∈ values (multi w) ∧ depends oi = None))
      as [Hs'|[Hv Hd]].
    { destruct (decide (i = t)) as [->|Hn].
      - destruct (Heq eq_refl) as [-> ->]. by apply Hst.
      - left. by rewrite <- (Hne Hn). }
    + destruct (inv_started _ H _ _ Hoi Hs') as [Hv Hp]. split; [done|].
      intros p Hd. rewrite (role_depends _ _ Hr) in Hd.
      destruct (Hp _ Hd) as (op & Hop & Hfin).
      destruct (Hnew _ _ Hop) as (op' & Hop' & Hr'). exists op'.
      split; [done|]. by apply (role_success _ _ Hr').
    + split; [done|]. intros p Hd'. rewrite (role_depends _ _ Hr) in Hd'.
      congruence.
  - intros i oi' Hi Hs. destruct (Hold _ _ Hi) as (oi & Hoi & Hr & _).
    apply (role_skipped _ _ Hr) in Hs.
    destruct (inv_skipped _ H _ _ Hoi Hs) as (Hv & p & op & Hd & Hop & Hf).
    split; [done|]. destruct (Hnew _ _ Hop) as (op' & Hop' & Hr').
    exists p, op'. rewrite (role_depends _ _ Hr).
    split_and!; [done..|]. by apply (role_failed _ _ Hr').
  - intros i oi' p op' Hv Hi Hd Hp Hfin Hz.
    destruct (Hold _ _ Hi) as (oi & Hoi & Hr & _).
    destruct (Hold _ _ Hp) as (op & Hop & Hr' & _).
    rewrite (role_depends _ _ Hr) in Hd.
    apply (role_started _ _ Hr).
    eapply (inv_launch _ H i oi p op); try done;
      by apply (role_success _ _ Hr').
  - intros i oi' p op' Hv Hi Hd Hp Hf.
    destruct (Hold _ _ Hi) as (oi & Hoi & Hr & _).
    destruct (Hold _ _ Hp) as (op & Hop & Hr' & _).
    rewrite (role_depends _ _ Hr) in Hd.
    apply (role_skipped _ _ Hr).
    eapply (inv_cascade _ H i oi p op); try done.
    by apply (role_failed _ _ Hr').
  - rewrite (inv_count _ H). apply count_done_ext. intros i _.
    unfold counted_at. destruct (heap w !! i) as [oi|] eqn:Hoi.
    + destruct (Hnew _ _ Hoi) as (oi' & -> & Hr). apply Hr.
    + destruct (h' !! i) as [oi'|] eqn:Hoi'; [|done].
      destruct (Hold _ _ Hoi') as (oi & Hoi2 & _). congruence.
  - apply H.
  - apply H.
  - intros _. by apply (inv_wake _ H).
  - done.
Qed.

(** Such a step, when it leaves the caller where it is. *)
Lemma caller_ok_update w t o o' :
  caller_ok w → caller w ≠ Registering → heap w !! t = Some o →
  same_role o o' → at_pc o ≠ NotStarted →
  caller_ok (mkWorld (<[t := o']> (heap w)) (multi w) (caller w)).
Proof.
  intros Hok Hrun Ho Hr Hs. unfold caller_ok in *. simpl.
  set (h' := <[t := o']> (heap w)).
  assert (h' !! t = Some o') as Et
    by (apply list_lookup_insert_eq; by eapply lookup_lt_Some).
  assert (∀ i, i ≠ t → h' !! i = heap w !! i) as En
    by (intros i Hi; by apply list_lookup_insert_ne).
  assert (∀ i oi', i ∈ values (multi w) → h' !! i = Some oi' →
            depends oi' = None →
            (∀ oi, heap w !! i = Some oi → depends oi = None →
                   at_pc oi ≠ NotStarted) →
            at_pc oi' ≠ NotStarted) as Hroot.
  { intros i oi' Hv Hi Hd Hw. destruct (decide (i = t)) as [->|Hn].
    - rewrite Et in Hi. injection Hi as <-. by apply (role_started _ _ Hr).
    - rewrite En in Hi by done. by apply Hw. }
  destruct (caller w) as [|todo|]; [done| |].
  - destruct Hok as (Hnd & Htodo & Hrest). split_and!; [done| |].
    + intros i Hi. destruct (Htodo _ Hi) as (Hv & oi & Hoi & Hd & Hp).
      split; [done|]. exists oi. split_and!; [|done..].
      rewrite En; [done|]. intros ->. congruence.
    + intros i oi' Hv Hi Hd Hni. apply (Hroot i oi' Hv Hi Hd).
      intros oi Hoi Hdi. by apply (Hrest i oi).
  - destruct Hok as (Had & Hrest). split; [done|].
    intros i oi' Hv Hi Hd. apply (Hroot i oi' Hv Hi Hd).
    intros oi Hoi Hdi. by apply (Hrest i oi).
Qed.

(** A thread that has been started is seen only once [run] is called. *)
Lemma Inv_started_running w t o :
  Inv w → heap w !! t = Some o → at_pc o ≠ NotStarted →
  caller w ≠ Registering.
Proof.
  intros H Ho Hs Hc.
  by destruct (Inv_registering_pristine _ _ _ H Hc Ho) as [? _].
Qed.

Lemma Inv_step_body w t o r :
  Inv w → heap w !! t = Some o → at_pc o = InBody →
  Inv (mkWorld (<[t := body_done r o]> (heap w)) (multi w) (caller w)).
Proof.
  intros H Ho Hpc.
  assert (at_pc o ≠ NotStarted) as Hs by congruence.
  pose proof (Inv_started_running _ _ _ H Ho Hs) as Hrun.
  pose proof (inv_local _ H _ _ Ho) as Hloc. unfold local_ok in Hloc.
  rewrite Hpc in Hloc. destruct Hloc as (Hst & Hex & Htb).
  assert (same_role o (body_done r o)) as Hr.
  { destruct r; split; unfold failed, counted; simpl; try done; rewrite ?Hpc, ?Hst;
      try (split; intros; intuition (congruence || lia)). }
  apply (Inv_update w t o); try done.
  - unfold local_ok. destruct r; simpl; [left; auto|eauto].
  - auto.
  - apply (caller_ok_update w t o); [apply H|done..].
Qed.

Lemma Inv_step_check_other w t o :
  Inv w → heap w !! t = Some o → at_pc o = AtCheck → status o ≠ 0 →
  Inv (with_pc t Finished w).
Proof.
  intros H Ho Hpc Hst.
  assert (at_pc o ≠ NotStarted) as Hs by congruence.
  pose proof (Inv_started_running _ _ _ H Ho Hs) as Hrun.
  pose proof (inv_local _ H _ _ Ho) as Hloc. unfold local_ok in Hloc.
  rewrite Hpc in Hloc.
  assert (same_role o (set_pc Finished o)) as Hr.
  { split; unfold failed, counted; simpl; try done; rewrite ?Hpc;
      try (split; intros; intuition (congruence || lia)). }
  unfold with_pc.
  assert (alter (set_pc Finished) t (heap w) = <[t := set_pc Finished o]> (heap w))
    as ->.
  { apply list_eq. intros i. destruct (decide (i = t)) as [->|Hn].
    - rewrite list_lookup_alter_eq, Ho, list_lookup_insert_eq; [done|].
      by eapply lookup_lt_Some.
    - by rewrite list_lookup_alter_ne, list_lookup_insert_ne. }
  apply (Inv_update w t o); try done.
  - auto.
  - apply (caller_ok_update w t o); [apply H|done..].
Qed.

Lemma start_Some t h h' :
  start t h = Some h' →
  ∃ o, h !! t = Some o ∧ at_pc o = NotStarted ∧ h' = <[t := set_pc InBody o]> h.
Proof.
  unfold start. destruct (h !! t) as [o|]; [|done].
  case_decide; [|done]. intros [= <-]. eauto.
Qed.

Lemma Inv_step_start w t todo h' :
  Inv w → caller w = Starting (t :: todo) → start t (heap w) = Some h' →
  Inv (mkWorld h' (multi w) (Starting todo)).
Proof.
  intros H Hc Hst. apply start_Some in Hst as (o & Ho & Hpc & ->).
  pose proof (inv_caller _ H) as Hok. unfold caller_ok in Hok.
  rewrite Hc in Hok. destruct Hok as (Hnd & Htodo & Hrest).
  apply NoDup_cons in Hnd as [Hnt Hnd].
  destruct (Htodo t) as (Hv & o2 & Ho2 & Hd & _); [left|].
  assert (o2 = o) as -> by congruence.
  pose proof (inv_local _ H _ _ Ho) as Hloc. unfold local_ok in Hloc.
  rewrite Hpc in Hloc. destruct Hloc as (Hst & Hex & Htb).
  assert (status o = -1) as Hst'.
  { destruct Hst as [|Hs3]; [done|].
    destruct (inv_skipped _ H _ _ Ho Hs3) as (_ & p & op & Hd' & _). congruence. }
  assert (same_role o (set_pc InBody o)) as Hr.
  { split; unfold failed, counted; simpl; try done; rewrite ?Hpc, ?Hst';
      try (split; intros; intuition (congruence || lia)). }
  apply (Inv_update w t o); try done.
  - by rewrite Hc.
  - auto.
  - unfold caller_ok. simpl.
    assert (<[t:=set_pc InBody o]> (heap w) !! t = Some (set_pc InBody o)) as Et
      by (apply list_lookup_insert_eq; by eapply lookup_lt_Some).
    split_and!; [done| |].
    + intros i Hi. destruct (Htodo i) as (Hvi & oi & Hoi & Hdi & Hpi); [by right|].
      split; [done|]. exists oi. split_and!; [|done..].
      rewrite list_lookup_insert_ne; [done|]. intros ->. contradiction.
    + intros i oi' Hvi Hi Hdi Hni. destruct (decide (i = t)) as [->|Hn].
      * rewrite Et in Hi. by injection Hi as <-.
      * rewrite list_lookup_insert_ne in Hi by done.
        apply (Hrest i oi'); try done.
        intros [?|?]%elem_of_cons; done.
Qed.

Lemma Inv_step_return w :
  Inv w → caller w = Starting [] → all_done (multi w) = true →
  Inv (mkWorld (heap w) (multi w) Returned).
Proof.
  intros H Hc Had. pose proof (inv_caller _ H) as Hok.
  unfold caller_ok in Hok. rewrite Hc in Hok.
  destruct Hok as (_ & _ & Hrest).
  split; simpl; try apply H.
  - intros _. apply (inv_wake _ H). by rewrite Hc.
  - unfold caller_ok. simpl. split; [done|].
    intros t o Hv Ho Hd. apply (Hrest t o); try done. apply not_elem_of_nil.
Qed.

(** *** [thread_success] *)

Lemma start_all_Some l h h' :
  start_all l h = Some h' →
  NoDup l
  ∧ ∀ i, (i ∈ l → ∃ o, h !! i = Some o ∧ at_pc o = NotStarted
                       ∧ h' !! i = Some (set_pc InBody o))
         ∧ (i ∉ l → h' !! i = h !! i).
Proof.
  revert h. induction l as [|t l IH]; intros h; simpl.
  { intros [= <-]. split; [constructor|]. intros i. split; [|done].
    by intros ?%elem_of_nil. }
  destruct (start t h) as [h1|] eqn:E1; [|done]. simpl. intros E.
  apply start_Some in E1 as (o & Ho & Hpc & ->).
  destruct (IH _ E) as [Hnd Hi].
  assert (<[t:=set_pc InBody o]> h !! t = Some (set_pc InBody o)) as Et
    by (apply list_lookup_insert_eq; by eapply lookup_lt_Some).
  assert (t ∉ l) as Htl.
  { intros Ht. destruct (Hi t) as [Hin _].
    destruct (Hin Ht) as (o1 & Ho1 & Hp1 & _).
    rewrite Et in Ho1. by injection Ho1 as <-. }
  split; [by constructor|]. intros i. split.
  - intros [->|Hil]%elem_of_cons.
    + exists o. split_and!; [done..|]. destruct (Hi t) as [_ Hout].
      by rewrite Hout.
    + destruct (Hi i) as [Hin _]. destruct (Hin Hil) as (oi & Hoi & Hpi & Hi').
      exists oi. split_and!; [|done..].
      rewrite list_lookup_insert_ne in Hoi; [done|]. by intros ->.
  - intros Hni. apply not_elem_of_cons in Hni as [Hne Hni].
    destruct (Hi i) as [_ Hout]. rewrite Hout by done.
    by rewrite list_lookup_insert_ne.
Qed.

Lemma start_all_is_Some l (h : list DemoGridThread) :
  NoDup l →
  (∀ i, i ∈ l → ∃ o, h !! i = Some o ∧ at_pc o = NotStarted) →
  is_Some (start_all l h).
Proof.
  revert h. induction l as [|t l IH]; intros h Hnd Hl; simpl; [eauto|].
  apply NoDup_cons in Hnd as [Ht Hnd].
  destruct (Hl t) as (o & Ho & Hpc); [left|].
  unfold start. rewrite Ho. rewrite decide_True by done. simpl.
  apply IH; [done|]. intros i Hi.
  destruct (Hl i) as (oi & Hoi & Hpi); [by right|].
  exists oi. split; [|done]. rewrite list_lookup_insert_ne; [done|].
  by intros ->.
Qed.

Lemma signal_if_done_spec m :
  num_threads (signal_if_done m) = num_threads m
  ∧ done_threads (signal_if_done m) = done_threads m
  ∧ threads (signal_if_done m) = threads m
  ∧ abort (signal_if_done m) = abort m
  ∧ (all_done (signal_if_done m) = true
     ↔ all_done m = true ∨ done_threads m = num_threads m).
Proof.
  unfold signal_if_done. case_decide; simpl; split_and!; try done.
  - split; auto.
  - split; [auto|]. by intros [?|?].
Qed.

Lemma values_signal_if_done m : values (signal_if_done m) = values m.
Proof.
  unfold values. by destruct (signal_if_done_spec m) as (_ & _ & -> & _).
Qed.

Lemma elem_of_dependents w t i :
  i ∈ dependents w t ↔
  i ∈ values (multi w) ∧ ∃ oi, heap w !! i = Some oi ∧ depends oi = Some t.
Proof.
  unfold dependents. rewrite list_elem_of_filter. unfold depends_of.
  split.
  - intros [Hd Hv]. split; [done|].
    destruct (heap w !! i) as [oi|]; [|done]. exists oi. split; [done|].
    simpl in Hd. congruence.
  - intros [Hv (oi & -> & Hd)]. split; [|done]. simpl. by rewrite Hd.
Qed.

Lemma launched_depends t D i oi oi' :
  launched t D i oi oi' → depends oi' = depends oi ∧ name oi' = name oi.
Proof. by intros [[_ ->]|[(_ & _ & _ & _ & ->)|(_ & _ & ->)]]. Qed.

Lemma Inv_step_check_success w t o w' :
  Inv w → heap w !! t = Some o → at_pc o = AtCheck → status o = 0 →
  thread_success w t = Some w' →
  Inv (with_pc t Finished w').
Proof.
  intros H Ho Hpc Hst Hts.
  assert (at_pc o ≠ NotStarted) as Hs by congruence.
  pose proof (Inv_started_running _ _ _ H Ho Hs) as Hrun.
  destruct (inv_started _ H _ _ Ho Hs) as [Hvt _].
  assert (¬ failed o) as Hnf.
  { intros [?|[_ ?]]; lia. }
  unfold thread_success in Hts.
  destruct (start_all (dependents w t) (heap w)) as [h1|] eqn:Esa; [|done].
  simpl in Hts. injection Hts as <-.
  apply start_all_Some in Esa as [HndD HD].
  set (D := dependents w t) in *.
  destruct (signal_if_done_spec (incr_done (multi w)))
    as (Enum & Edone & Ethr & Eab & Ead).
  unfold with_pc. cbn [heap multi caller].
  set (h2 := alter (set_pc Finished) t h1).
  set (m2 := signal_if_done (incr_done (multi w))) in *.
  assert (values m2 = values (multi w)) as Evals
    by (unfold values; by rewrite Ethr).
  assert (t ∉ D) as HtD.
  { intros (_ & ot & Hot & Hd)%elem_of_dependents.
    pose proof (inv_order _ H _ _ _ Hot Hd). lia. }
  assert (∀ i oi, heap w !! i = Some oi → i ∈ D →
            at_pc oi = NotStarted ∧ status oi = -1) as Hfresh.
  { intros i oi Hoi HiD. destruct (HD i) as [Hin _].
    destruct (Hin HiD) as (oi2 & Hoi2 & Hp2 & _).
    assert (oi2 = oi) as -> by congruence. split; [done|].
    pose proof (inv_local _ H _ _ Hoi) as Hloc. unfold local_ok in Hloc.
    rewrite Hp2 in Hloc. destruct Hloc as ([?|Hs3] & _); [done|].
    destruct (inv_skipped _ H _ _ Hoi Hs3) as (_ & p & op & Hd & Hop & Hf).
    apply elem_of_dependents in HiD as (_ & oi3 & Hoi3 & Hd3).
    assert (oi3 = oi) as -> by congruence.
    assert (p = t) as -> by congruence.
    assert (op = o) as -> by congruence. contradiction. }
  assert (∀ i oi, heap w !! i = Some oi →
            ∃ oi', h2 !! i = Some oi' ∧ launched t D i oi oi') as Hnew.
  { intros i oi Hoi. unfold h2. destruct (decide (i = t)) as [->|Hne].
    - exists (set_pc Finished oi). split; [|left; done].
      rewrite list_lookup_alter_eq. destruct (HD t) as [_ Hout].
      by rewrite Hout, Hoi.
    - rewrite list_lookup_alter_ne by done.
      destruct (decide (i ∈ D)) as [HiD|HiD].
      + destruct (HD i) as [Hin _].
        destruct (Hin HiD) as (oi2 & Hoi2 & Hp2 & Hi').
        assert (oi2 = oi) as -> by congruence.
        exists (set_pc InBody oi). split; [done|]. right; left.
        destruct (Hfresh _ _ Hoi HiD). done.
      + destruct (HD i) as [_ Hout]. exists oi.
        split; [by rewrite Hout|]. right; right. done. }
  assert (∀ i oi', h2 !! i = Some oi' →
            ∃ oi, heap w !! i = Some oi ∧ launched t D i oi oi') as Hold.
  { intros i oi' Hoi'.
    destruct (heap w !! i) as [oi|] eqn:Hoi.
    - destruct (Hnew _ _ Hoi) as (oi2 & Hoi2 & Hl). exists oi.
      split; [done|]. congruence.
    - exfalso. unfold h2 in Hoi'.
      assert (h1 !! i = None) as E1.
      { destruct (decide (i ∈ D)) as [HiD|HiD].
        - destruct (HD i) as [Hin _].
          destruct (Hin HiD) as (? & ? & _). congruence.
        - destruct (HD i) as [_ Hout]. by rewrite Hout. }
      destruct (decide (i = t)) as [->|Hne]; [congruence|].
      rewrite list_lookup_alter_ne in Hoi' by done. congruence. }
  (* finished and failed threads are left alone *)
  assert (∀ p op, heap w !! p = Some op →
            (at_pc op = Finished ∨ failed op) → h2 !! p = Some op) as Hkeep.
  { intros p op Hop Hfin. destruct (Hnew _ _ Hop) as (op' & Hop' & Hl).
    destruct Hl as [[-> _]|[(HpD & _ & Hpp & Hps & _)|(_ & _ & ->)]]; [|exfalso|done].
    - assert (op = o) as -> by congruence.
      destruct Hfin; [congruence|contradiction].
    - destruct Hfin as [?|[?|[[?|?] _]]]; congruence || lia. }
  assert (done_threads m2 = count_done h2 (values m2)) as Hcount.
  { rewrite Edone, Evals. cbn [incr_done done_threads].
    rewrite (inv_count _ H). symmetry.
    apply (count_done_one (heap w) h2 _ t); [by apply Inv_NoDup_values|done| | |].
    - unfold counted_at. rewrite Ho. intros [?|[?|[_ ?]]]; congruence || lia.
    - unfold counted_at. destruct (Hnew _ _ Ho) as (o' & -> & Hl).
      destruct Hl as [[_ ->]|[(? & ? & _)|(? & _)]]; [|done..].
      right; left. done.
    - intros i _ Hne. unfold counted_at.
      destruct (heap w !! i) as [oi|] eqn:Hoi.
      + destruct (Hnew _ _ Hoi) as (oi' & -> & Hl).
        destruct Hl as [[? _]|[(_ & _ & Hpp & Hps & ->)|(_ & _ & ->)]];
          [done| |done].
        unfold counted. simpl. rewrite Hpp, Hps.
        split; intros [?|[?|[? _]]]; congruence || lia.
      + destruct (h2 !! i) as [oi'|] eqn:Hoi'; [|done].
        destruct (Hold _ _ Hoi') as (? & ? & _). congruence. }
  assert (done_threads m2 ≤ num_threads m2) as Hle.
  { rewrite Hcount, Enum. cbn [incr_done num_threads].
    pose proof (count_done_bounds h2 (values m2)) as Hb.
    rewrite length_values, Ethr in Hb. cbn [incr_done threads] in Hb.
    pose proof (inv_size _ H). lia. }
  rewrite Evals in Hcount.
  split; cbn [heap multi caller]; fold h2; rewrite ?Evals.
  - intros i oi' p Hi Hd. destruct (Hold _ _ Hi) as (oi & Hoi & Hl).
    destruct (launched_depends _ _ _ _ _ Hl) as [Ed _]. rewrite Ed in Hd.
    eapply inv_order; eauto.
  - rewrite Ethr. cbn [incr_done threads]. intros n i Hn.
    destruct (inv_reg _ H _ _ Hn) as (oi & Hoi & Hnm).
    destruct (Hnew _ _ Hoi) as (oi' & Hoi' & Hl).
    destruct (launched_depends _ _ _ _ _ Hl) as [_ En]. exists oi'.
    split; [done|congruence].
  - intros i oi' Hi. destruct (Hold _ _ Hi) as (oi & Hoi & Hl).
    pose proof (inv_local _ H _ _ Hoi) as Hloc. unfold local_ok in *.
    destruct Hl as [[-> ->]|[(_ & _ & Hpp & Hps & ->)|(_ & _ & ->)]];
      [|simpl|done].
    + assert (oi = o) as -> by congruence. simpl. by rewrite Hpc in Hloc.
    + rewrite Hpp in Hloc. tauto.
  - intros i oi' Hi Hsi. destruct (Hold _ _ Hi) as (oi & Hoi & Hl).
    destruct (launched_depends _ _ _ _ _ Hl) as [Ed _]. rewrite Ed.
    destruct Hl as [[-> ->]|[(HiD & Hne & Hpp & Hps & ->)|(Hne & HiD & ->)]].
    + assert (oi = o) as -> by congruence.
      destruct (inv_started _ H _ _ Ho Hs) as [Hv Hp]. split; [done|].
      intros p Hd. destruct (Hp _ Hd) as (op & Hop & Hfin & Hz).
      exists op. split_and!; [|done..]. apply Hkeep; auto.
    + apply elem_of_dependents in HiD as (Hv & oi2 & Hoi2 & Hd2).
      assert (oi2 = oi) as -> by congruence. split; [done|].
      intros p Hd. assert (p = t) as -> by congruence.
      destruct (Hnew _ _ Ho) as (o' & Ho' & Hl).
      destruct Hl as [[_ ->]|[(? & ? & _)|(? & _)]]; [|done..].
      exists (set_pc Finished o). by split_and!.
    + destruct (inv_started _ H _ _ Hoi Hsi) as [Hv Hp]. split; [done|].
      intros p Hd. destruct (Hp _ Hd) as (op & Hop & Hfin & Hz).
      exists op. split_and!; [|done..]. apply Hkeep; auto.
  - intros i oi' Hi Hsi. destruct (Hold _ _ Hi) as (oi & Hoi & Hl).
    destruct (launched_depends _ _ _ _ _ Hl) as [Ed _]. rewrite Ed.
    destruct Hl as [[-> ->]|[(HiD & Hne & Hpp & Hps & ->)|(Hne & HiD & ->)]].
    + assert (oi = o) as -> by congruence. simpl in Hsi. lia.
    + simpl in Hsi. lia.
    + destruct (inv_skipped _ H _ _ Hoi Hsi) as (Hv & p & op & Hd & Hop & Hf).
      split; [done|]. exists p, op. split_and!; [done| |done].
      apply Hkeep; auto.
  - intros i oi' p op' Hv Hi Hd Hp Hfin Hz.
    destruct (Hold _ _ Hi) as (oi & Hoi & Hl).
    destruct (launched_depends _ _ _ _ _ Hl) as [Ed _]. rewrite Ed in Hd.
    destruct Hl as [[-> ->]|[(HiD & Hne & Hpp & Hps & ->)|(Hne & HiD & ->)]];
      [done|done|].
    destruct (Hold _ _ Hp) as (op & Hop & Hlp).
    destruct Hlp as [[-> ->]|[(HpD & _ & _ & _ & ->)|(_ & _ & ->)]].
    + exfalso. apply HiD. apply elem_of_dependents. eauto.
    + done.
    + eapply (inv_launch _ H i oi p op); eauto.
  - intros i oi' p op' Hv Hi Hd Hp Hf.
    destruct (Hold _ _ Hi) as (oi & Hoi & Hl).
    destruct (launched_depends _ _ _ _ _ Hl) as [Ed _]. rewrite Ed in Hd.
    destruct (Hold _ _ Hp) as (op & Hop & Hlp).
    assert (op' = op ∧ failed op) as [-> Hf'].
    { destruct Hlp as [[-> ->]|[(HpD & _ & Hpp & Hps & ->)|(_ & _ & ->)]];
        [exfalso|exfalso|done].
      - assert (op = o) as -> by congruence.
        destruct Hf as [Hf|[_ Hf]]; simpl in Hf; lia.
      - destruct Hf as [Hf|[[Hf|Hf] _]]; simpl in Hf; congruence || lia. }
    pose proof (inv_cascade _ H i oi p op Hv Hoi Hd Hop Hf') as Hs3.
    destruct Hl as [[-> ->]|[(HiD & Hne & Hpp & Hps & ->)|(Hne & HiD & ->)]];
      [|simpl; lia|done].
    assert (oi = o) as -> by congruence. lia.
  - done.
  - rewrite Ethr, Enum. cbn [incr_done threads num_threads].
    pose proof (inv_size _ H). lia.
  - intros Had. apply Ead in Had as [Had|Had]; [exfalso|by rewrite Enum, Edone].
    cbn [incr_done all_done] in Had. pose proof (inv_signal _ H Had) as E.
    rewrite Edone, Enum in Hle. cbn [incr_done done_threads num_threads] in Hle.
    lia.
  - intros _ _ E. apply Ead. right. by rewrite <- Edone, <- Enum.
  - pose proof (inv_caller _ H) as Hok. unfold caller_ok in *.
    cbn [heap multi caller]. fold h2. rewrite ?Evals.
    assert (∀ i oi', i ∈ values (multi w) → h2 !! i = Some oi' →
              depends oi' = None →
              (∀ oi, heap w !! i = Some oi → depends oi = None →
                     at_pc oi ≠ NotStarted) →
              at_pc oi' ≠ NotStarted) as Hroot.
    { intros i oi' Hv Hi Hd Hw. destruct (Hold _ _ Hi) as (oi & Hoi & Hl).
      destruct Hl as [[-> ->]|[(HiD & Hne & Hpp & Hps & ->)|(Hne & HiD & ->)]];
        [done|done|]. by apply Hw. }
    destruct (caller w) as [|todo|]; [done| |].
    + destruct Hok as (Hnd & Htodo & Hrest). split_and!; [done| |].
      * intros i Hi. destruct (Htodo _ Hi) as (Hv & oi & Hoi & Hd & Hp).
        split; [done|]. exists oi. split_and!; [|done..].
        destruct (Hnew _ _ Hoi) as (oi' & Hoi' & Hl).
        destruct Hl as [[-> ->]|[(HiD & _)|(_ & _ & ->)]]; [|exfalso|done].
        -- assert (oi = o) as -> by congruence. congruence.
        -- apply elem_of_dependents in HiD as (_ & oi2 & Hoi2 & Hd2). congruence.
      * intros i oi' Hv Hi Hd Hni. apply (Hroot i oi' Hv Hi Hd).
        intros oi Hoi Hdi. by apply (Hrest i oi).
    + destruct Hok as (Had & Hrest). split.
      * apply Ead. by left.
      * intros i oi' Hv Hi Hd. apply (Hroot i oi' Hv Hi Hd).
        intros oi Hoi Hdi. by apply (Hrest i oi).
Qed.

(** *** [thread_failure] *)

Lemma Inv_handler_exception w t o :
  Inv w → heap w !! t = Some o → at_pc o = InHandler →
  status o = 1 ∧ ∃ e tb, exception o = Some e ∧ stack_trace o = Some tb.
Proof.
  intros H Ho Hpc. pose proof (inv_local _ H _ _ Ho) as Hloc.
  unfold local_ok in Hloc. rewrite Hpc in Hloc.
  destruct Hloc as (Hst & [e He] & [tb Htb]). eauto.
Qed.

(** The dependents of a thread that is in its handler are untouched. *)
Lemma Inv_handler_children w t o c oc :
  Inv w → heap w !! t = Some o → at_pc o = InHandler →
  heap w !! c = Some oc → depends oc = Some t → fresh oc.
Proof.
  intros H Ho Hpc Hoc Hd.
  destruct (Inv_handler_exception _ _ _ H Ho Hpc) as (Hst & _).
  split.
  - destruct (decide (at_pc oc = NotStarted)) as [|Hn]; [done|exfalso].
    destruct (inv_started _ H _ _ Hoc Hn) as [_ Hp].
    destruct (Hp _ Hd) as (op & Hop & Hfin & _). congruence.
  - intros Hs3.
    destruct (inv_skipped _ H _ _ Hoc Hs3) as (_ & p & op & Hd' & Hop & Hf).
    assert (p = t) as -> by congruence.
    assert (op = o) as -> by congruence.
    destruct Hf as [?|[[?|?] _]]; congruence || lia.
Qed.

Lemma thread_failure_effect w t o e :
  Inv w → heap w !! t = Some o → at_pc o = InHandler →
  exception o = Some e →
  ∃ w', thread_failure w t = Some w' ∧ failure_effect w t o e w'.
Proof.
  intros H Ho Hpc He.
  destruct (Inv_handler_exception _ _ _ H Ho Hpc) as (Hst & _).
  unfold thread_failure. rewrite Ho. cbn [mbind option_bind]. rewrite He.
  set (o2 := if is_abort e then set_status 2 o else o).
  set (w1 := if is_abort e
             then mkWorld (alter (set_status 2) t (heap w)) (multi w) (caller w)
             else mkWorld (heap w) (set_abort (multi w)) (caller w)).
  set (w2 := mkWorld (heap w1) (incr_done (multi w1)) (caller w1)).
  assert (heap w2 !! t = Some o2) as E2t.
  { unfold w2, w1, o2. destruct (is_abort e); simpl; [|done].
    by rewrite list_lookup_alter_eq, Ho. }
  assert (∀ i, i ≠ t → heap w2 !! i = heap w !! i) as E2n.
  { intros i Hi. unfold w2, w1. destruct (is_abort e); simpl; [|done].
    by rewrite list_lookup_alter_ne. }
  assert (length (heap w2) = length (heap w)) as E2l.
  { unfold w2, w1. destruct (is_abort e); simpl; [|done]. apply length_alter. }
  assert (threads (multi w2) = threads (multi w)
          ∧ num_threads (multi w2) = num_threads (multi w)
          ∧ done_threads (multi w2) = done_threads (multi w) + 1
          ∧ all_done (multi w2) = all_done (multi w)
          ∧ abort (multi w2) = abort (multi w) || negb (is_abort e)
          ∧ caller w2 = caller w) as (E2thr & E2num & E2done & E2ad & E2ab & E2c).
  { unfold w2, w1. destruct (is_abort e); simpl; split_and!; try done.
    - by rewrite orb_false_r.
    - by rewrite orb_true_r. }
  assert (at_pc o2 = InHandler ∧ depends o2 = depends o ∧ ¬ counted o2)
    as (Hpc2 & Hd2 & Hnc2).
  { unfold o2, counted. destruct (is_abort e); simpl; rewrite Hpc, ?Hst;
      split_and!; try done; intros [?|[?|[? _]]]; congruence || lia. }
  set (vals := values (multi w)). set (par := depends_of (heap w)).
  assert (NoDup vals) as Hnd by (by apply Inv_NoDup_values).
  assert (∀ i p, par i = Some (Some p) → (p < i)%nat) as Hlt
    by (intros i p; by apply Inv_par_lt).
  assert (agrees vals par w2) as Hag.
  { split.
    - unfold values. by rewrite E2thr.
    - intros i. unfold par, depends_of. destruct (decide (i = t)) as [->|Hn].
      + rewrite E2t, Ho. simpl. by rewrite Hd2.
      + by rewrite E2n. }
  assert (cpre vals par w2 t) as Hpre.
  { split; [done| | |].
    - intros i oi p op Hi Hd Hp Hf.
      assert (p ≠ t) as Hpt.
      { intros ->. rewrite E2t in Hp. injection Hp as <-.
        destruct Hf. congruence. }
      rewrite E2n in Hp by done.
      destruct (decide (i = t)) as [->|Hn].
      + rewrite E2t in Hi. injection Hi as <-. rewrite Hd2 in Hd.
        pose proof (Inv_fresh_closed _ H _ _ _ _ Ho Hd Hp Hf) as [? _].
        congruence.
      + rewrite E2n in Hi by done. by eapply (Inv_fresh_closed _ H).
    - intros o' Ho' [Hf _]. congruence.
    - intros c Hc Hp. unfold par, depends_of in Hp.
      destruct (heap w !! c) as [oc|] eqn:Hoc; [|done].
      simpl in Hp. injection Hp as Hd.
      pose proof (inv_order _ H _ _ _ Hoc Hd). exists oc. split.
      + rewrite E2n; [done|lia].
      + by apply (Inv_handler_children w t o c oc). }
  destruct (abort_dependents_cascade vals par Hnd Hlt (length (heap w)) w2 t)
    as (w3 & E3 & Hcas); [done|lia|].
  rewrite E3. cbn [mbind option_bind].
  destruct (signal_if_done_spec (multi w3)) as (Enum & Edone & Ethr & Eab & Ead).
  eexists. split; [reflexivity|].
  assert (¬ desc vals par t t) as Hself
    by (intros Hd%(desc_lt vals par Hlt); lia).
  split; cbn [heap multi caller].
  - by rewrite (cas_caller _ _ _ _ Hcas).
  - by rewrite Enum, (cas_num _ _ _ _ Hcas).
  - by rewrite Ethr, (cas_threads _ _ _ _ Hcas).
  - by rewrite Eab, (cas_abort _ _ _ _ Hcas).
  - rewrite Ead, Enum, Edone, (cas_all_done _ _ _ _ Hcas), E2ad. done.
  - rewrite Edone. fold vals. rewrite (cas_count _ _ _ _ Hcas), E2done.
    f_equal. apply count_done_ext. intros i _. unfold counted_at.
    destruct (decide (i = t)) as [->|Hn].
    + rewrite E2t, Ho. split; [by intros ?|].
      intros [?|[?|[? _]]]; congruence || lia.
    + by rewrite E2n.
  - by rewrite (touch_outside _ _ _ t (cas_touch _ _ _ _ Hcas)).
  - intros i Hi. destruct (cas_touch _ _ _ _ Hcas i) as [E|(Hd & oi & Hoi & Hf & E)].
    + left. by rewrite E, E2n.
    + right. split; [done|]. exists oi. by rewrite <- E2n.
  - apply Hcas.
Qed.

Lemma desc_parent vals par x i :
  desc vals par x i →
  i ∈ vals ∧ ∃ p, par i = Some (Some p) ∧ (p = x ∨ desc vals par x p).
Proof. intros [i' Hv Hp|i' p Hv Hp Hd]; split; eauto. Qed.

Lemma Inv_step_handler w t o w' :
  Inv w → heap w !! t = Some o → at_pc o = InHandler →
  thread_failure w t = Some w' →
  Inv (with_pc t AtCheck w').
Proof.
  intros H Ho Hpc Htf.
  assert (at_pc o ≠ NotStarted) as Hs by congruence.
  pose proof (Inv_started_running _ _ _ H Ho Hs) as Hrun.
  destruct (inv_started _ H _ _ Ho Hs) as [Hvt Hpt].
  destruct (Inv_handler_exception _ _ _ H Ho Hpc) as (Hst & e & tb & He & Htb).
  destruct (thread_failure_effect _ _ _ _ H Ho Hpc He) as (w2 & E & Hfe).
  assert (w2 = w') as -> by congruence. clear E Htf.
  unfold with_pc. set (h4 := alter (set_pc AtCheck) t (heap w')).
  set (o4 := set_pc AtCheck (if is_abort e then set_status 2 o else o)).
  assert (values (multi w') = values (multi w)) as Evals
    by (unfold values; by rewrite (fe_threads _ _ _ _ _ Hfe)).
  assert (h4 !! t = Some o4) as E4t.
  { unfold h4, o4. by rewrite list_lookup_alter_eq, (fe_self _ _ _ _ _ Hfe). }
  assert (at_pc o4 = AtCheck ∧ depends o4 = depends o ∧ name o4 = name o
          ∧ status o4 = (if is_abort e then 2 else 1)
          ∧ exception o4 = Some e ∧ stack_trace o4 = Some tb)
    as (Hpc4 & Hd4 & Hn4 & Hst4 & He4 & Htb4).
  { unfold o4. destruct (is_abort e); simpl; by split_and!. }
  assert (failed o4) as Hf4.
  { right. split; [by left|]. rewrite Hst4. destruct (is_abort e); lia. }
  assert (∀ i oi, heap w !! i = Some oi →
            ∃ oi', h4 !! i = Some oi' ∧ cascaded w t o4 i oi oi') as Hnew.
  { intros i oi Hoi. destruct (decide (i = t)) as [->|Hne].
    - exists o4. split; [done|]. by left.
    - unfold h4. rewrite list_lookup_alter_ne by done.
      destruct (fe_others _ _ _ _ _ Hfe i Hne) as [E|(Hd & oi2 & Hoi2 & Hf & E)].
      + exists oi. split; [by rewrite E|]. right; right. done.
      + assert (oi2 = oi) as -> by congruence.
        exists (set_status 3 oi). split; [done|]. right; left. done. }
  assert (∀ i oi', h4 !! i = Some oi' →
            ∃ oi, heap w !! i = Some oi ∧ cascaded w t o4 i oi oi') as Hold.
  { intros i oi' Hoi'. destruct (heap w !! i) as [oi|] eqn:Hoi.
    - destruct (Hnew _ _ Hoi) as (oi2 & Hoi2 & Hc). exists oi.
      split; [done|]. congruence.
    - exfalso. destruct (decide (i = t)) as [->|Hne]; [congruence|].
      unfold h4 in Hoi'. rewrite list_lookup_alter_ne in Hoi' by done.
      destruct (fe_others _ _ _ _ _ Hfe i Hne) as [E|(_ & ? & ? & _)];
        congruence. }
  assert (∀ i oi oi', cascaded w t o4 i oi oi' → heap w !! i = Some oi →
            depends oi' = depends oi ∧ name oi' = name oi) as Hdep.
  { intros i oi oi' [[-> ->]|[(_ & _ & _ & ->)|(_ & ->)]] Hoi; [|done..].
    assert (oi = o) as -> by congruence. done. }
  assert (∀ i, descendant w t i →
            ∃ oi', h4 !! i = Some oi' ∧ status oi' = 3) as Hmarked.
  { intros i Hd. pose proof (fe_marked _ _ _ _ _ Hfe i Hd) as Hsk.
    assert (i ≠ t) as Hne.
    { intros ->. apply desc_lt in Hd; [lia|]. intros ? ?. by apply Inv_par_lt. }
    unfold skipped_at in Hsk. unfold h4. rewrite list_lookup_alter_ne by done.
    destruct (heap w' !! i) as [oi'|]; [|done]. exists oi'.
    split; [done|]. simpl in Hsk. congruence. }
  assert (∀ p op, heap w !! p = Some op →
            (at_pc op = Finished ∨ failed op) → h4 !! p = Some op) as Hkeep.
  { intros p op Hop Hfin. destruct (Hnew _ _ Hop) as (op' & Hop' & Hc).
    destruct Hc as [[-> _]|[(_ & _ & Hf & _)|(_ & ->)]]; [exfalso|exfalso|done].
    - assert (op = o) as -> by congruence.
      destruct Hfin as [?|[?|[[?|?] _]]]; congruence || lia.
    - destruct Hfin as [?|Hfl]; [destruct Hf; congruence|].
      by apply (fresh_not_failed op). }
  assert (done_threads (multi w') = count_done h4 (values (multi w))) as Hcount.
  { pose proof (fe_count _ _ _ _ _ Hfe) as Hc. rewrite (inv_count _ H) in Hc.
    assert (count_done h4 (values (multi w))
            = count_done (heap w') (values (multi w)) + 1) as E; [|lia].
    apply (count_done_one (heap w') h4 _ t); [by apply Inv_NoDup_values|done| | |].
    - unfold counted_at. rewrite (fe_self _ _ _ _ _ Hfe).
      destruct (is_abort e); simpl; intros [?|[?|[? _]]];
        simpl in *; congruence || lia.
    - unfold counted_at. rewrite E4t. by apply failed_counted.
    - intros i _ Hne. unfold counted_at, h4.
      by rewrite list_lookup_alter_ne. }
  assert (done_threads (multi w') ≤ num_threads (multi w')) as Hle.
  { rewrite Hcount, (fe_num _ _ _ _ _ Hfe).
    pose proof (count_done_bounds h4 (values (multi w))) as Hb.
    rewrite length_values in Hb. pose proof (inv_size _ H). lia. }
  assert (done_threads (multi w) < done_threads (multi w')) as Hgrow.
  { pose proof (fe_count _ _ _ _ _ Hfe) as Hc.
    assert (count_done (heap w) (values (multi w))
            ≤ count_done (heap w') (values (multi w))); [|lia].
    apply count_done_mono. intros a _.
    unfold counted_at. destruct (decide (a = t)) as [->|Hne].
    - rewrite Ho. intros [?|[?|[? _]]]; congruence || lia.
    - destruct (fe_others _ _ _ _ _ Hfe a Hne) as [->|(_ & oi & -> & Hf & ->)];
        [done|]. intros _. by left. }
  split; cbn [heap multi caller]; fold h4; rewrite ?Evals.
  - intros i oi' p Hi Hd. destruct (Hold _ _ Hi) as (oi & Hoi & Hc).
    destruct (Hdep _ _ _ Hc Hoi) as [Ed _]. rewrite Ed in Hd.
    eapply inv_order; eauto.
  - rewrite (fe_threads _ _ _ _ _ Hfe). intros n i Hn.
    destruct (inv_reg _ H _ _ Hn) as (oi & Hoi & Hnm).
    destruct (Hnew _ _ Hoi) as (oi' & Hoi' & Hc).
    destruct (Hdep _ _ _ Hc Hoi) as [_ En]. exists oi'.
    split; [done|congruence].
  - intros i oi' Hi. destruct (Hold _ _ Hi) as (oi & Hoi & Hc).
    pose proof (inv_local _ H _ _ Hoi) as Hloc. unfold local_ok in *.
    destruct Hc as [[-> ->]|[(_ & _ & [Hf1 Hf2] & ->)|(_ & ->)]]; [| |done].
    + rewrite Hpc4. right. exists e, tb. by split_and!.
    + simpl. rewrite Hf1 in *. tauto.
  - intros i oi' Hi Hsi. destruct (Hold _ _ Hi) as (oi & Hoi & Hc).
    destruct (Hdep _ _ _ Hc Hoi) as [Ed _]. rewrite Ed.
    assert (at_pc oi ≠ NotStarted) as Hsi'.
    { destruct Hc as [[-> ->]|[(_ & _ & [Hf1 Hf2] & ->)|(_ & ->)]];
        [|done..]. by replace oi with o by congruence. }
    destruct (inv_started _ H _ _ Hoi Hsi') as [Hv Hp]. split; [done|].
    intros p Hd. destruct (Hp _ Hd) as (op & Hop & Hfin & Hz).
    exists op. split_and!; [|done..]. apply Hkeep; auto.
  - intros i oi' Hi Hsi. destruct (Hold _ _ Hi) as (oi & Hoi & Hc).
    destruct (Hdep _ _ _ Hc Hoi) as [Ed _]. rewrite Ed.
    destruct Hc as [[-> ->]|[(Hne & Hd & Hf & ->)|(_ & ->)]].
    + rewrite Hst4 in Hsi. destruct (is_abort e); lia.
    + apply desc_parent in Hd as (Hv & p & Hp & Hpd). split; [done|].
      unfold depends_of in Hp. rewrite Hoi in Hp. simpl in Hp.
      injection Hp as Hp. destruct Hpd as [->|Hpd].
      * exists t, o4. by split_and!.
      * destruct (Hmarked _ Hpd) as (op' & Hop' & Hs3).
        exists p, op'. split_and!; [done..|]. by left.
    + destruct (inv_skipped _ H _ _ Hoi Hsi) as (Hv & p & op & Hd & Hop & Hf).
      split; [done|]. exists p, op. split_and!; [done| |done].
      apply Hkeep; auto.
  - intros i oi' p op' Hv Hi Hd Hp Hfin Hz.
    destruct (Hold _ _ Hi) as (oi & Hoi & Hc).
    destruct (Hdep _ _ _ Hc Hoi) as [Ed _]. rewrite Ed in Hd.
    destruct (Hold _ _ Hp) as (op & Hop & Hcp).
    assert (op' = op) as ->.
    { destruct Hcp as [[-> ->]|[(_ & _ & [Hf1 _] & ->)|(_ & ->)]];
        [congruence|simpl in Hfin; congruence|done]. }
    pose proof (inv_launch _ H i oi p op Hv Hoi Hd Hop Hfin Hz) as Hsi.
    destruct Hc as [[-> ->]|[(_ & _ & [Hf1 _] & ->)|(_ & ->)]];
      [congruence|done|done].
  - intros i oi' p op' Hv Hi Hd Hp Hf.
    destruct (Hold _ _ Hi) as (oi & Hoi & Hc).
    destruct (Hdep _ _ _ Hc Hoi) as [Ed _]. rewrite Ed in Hd.
    destruct (Hold _ _ Hp) as (op & Hop & Hcp).
    assert (depends_of (heap w) i = Some (Some p)) as Hpar
      by (unfold depends_of; rewrite Hoi; simpl; by rewrite Hd).
    destruct Hcp as [[-> ->]|[(_ & Hdp & _ & ->)|(_ & ->)]].
    + destruct (Hmarked i) as (oi2 & Hoi2 & Hs3); [by apply desc_child|].
      congruence.
    + destruct (Hmarked i) as (oi2 & Hoi2 & Hs3); [by eapply desc_down|].
      congruence.
    + pose proof (inv_cascade _ H i oi p op Hv Hoi Hd Hop Hf) as Hs3.
      destruct Hc as [[-> ->]|[(_ & _ & [_ Hf2] & ->)|(_ & ->)]];
        [|done..].
      assert (oi = o) as -> by congruence. lia.
  - done.
  - rewrite (fe_threads _ _ _ _ _ Hfe), (fe_num _ _ _ _ _ Hfe). apply H.
  - intros Had. apply (fe_all_done _ _ _ _ _ Hfe) in Had as [Had|Had]; [|done].
    pose proof (inv_signal _ H Had) as E.
    rewrite (fe_num _ _ _ _ _ Hfe) in Hle. lia.
  - intros _ _ E. apply (fe_all_done _ _ _ _ _ Hfe). by right.
  - pose proof (inv_caller _ H) as Hok. unfold caller_ok in *.
    cbn [heap multi caller]. fold h4. rewrite ?Evals.
    rewrite (fe_caller _ _ _ _ _ Hfe).
    assert (∀ i oi', i ∈ values (multi w) → h4 !! i = Some oi' →
              depends oi' = None →
              (∀ oi, heap w !! i = Some oi → depends oi = None →
                     at_pc oi ≠ NotStarted) →
              at_pc oi' ≠ NotStarted) as Hroot.
    { intros i oi' Hv Hi Hd Hw. destruct (Hold _ _ Hi) as (oi & Hoi & Hc).
      destruct (Hdep _ _ _ Hc Hoi) as [Ed _]. rewrite Ed in Hd.
      pose proof (Hw _ Hoi Hd) as Hsi.
      destruct Hc as [[-> ->]|[(_ & _ & [Hf1 _] & ->)|(_ & ->)]];
        [congruence|done|done]. }
    destruct (caller w) as [|todo|]; [done| |].
    + destruct Hok as (Hnd & Htodo & Hrest). split_and!; [done| |].
      * intros i Hi. destruct (Htodo _ Hi) as (Hv & oi & Hoi & Hd & Hp).
        split; [done|]. destruct (Hnew _ _ Hoi) as (oi' & Hoi' & Hc).
        exists oi'. split; [done|].
        destruct Hc as [[-> ->]|[(_ & _ & _ & ->)|(_ & ->)]]; [|done..].
        assert (oi = o) as -> by congruence. congruence.
      * intros i oi' Hv Hi Hd Hni. apply (Hroot i oi' Hv Hi Hd).
        intros oi Hoi Hdi. by apply (Hrest i oi).
    + destruct Hok as (Had & Hrest). split.
      * apply (fe_all_done _ _ _ _ _ Hfe). by left.
      * intros i oi' Hv Hi Hd. apply (Hroot i oi' Hv Hi Hd).
        intros oi Hoi Hdi. by apply (Hrest i oi).
Qed.

(** *** Every reachable world satisfies the invariant *)

Lemma Inv_step w w' : Inv w → step w w' → Inv w'.
Proof.
  intros H Hs. destruct Hs.
  - by apply Inv_step_new.
  - by apply Inv_step_add.
  - by apply Inv_step_run.
  - by eapply Inv_step_start.
  - by apply Inv_step_return.
  - by apply Inv_step_body.
  - by eapply Inv_step_handler.
  - by eapply Inv_step_check_success.
  - by eapply Inv_step_check_other.
Qed.

Lemma Inv_steps w w' : Inv w → rtc step w w' → Inv w'.
Proof. intros H Hs. induction Hs; eauto using Inv_step. Qed.

Lemma reachable_Inv w : reachable w → Inv w.
Proof. apply Inv_steps, Inv_init. Qed.

(** ** Schedules follow the transitions *)

Lemma exec_step a w w' : exec a w = Some w' → step w w'.
Proof.
  destruct a as [n d|t| | | |t r|t|t]; simpl.
  - destruct (caller w) eqn:Hc; simpl; try done.
    destruct d as [p|]; [case_bool_decide; simpl; [|done]|]; intros [= <-];
      apply step_new; try done; by intros ? [= <-].
  - destruct (caller w) eqn:Hc; simpl; try done.
    case_bool_decide; simpl; [|done]. intros [= <-]. by apply step_add.
  - destruct (caller w) eqn:Hc; simpl; try done.
    intros [= <-]. by apply step_run.
  - destruct (caller w) as [|[|t todo]|] eqn:Hc; try done.
    destruct (start t (heap w)) as [h'|] eqn:Hs; [|done]. simpl.
    intros [= <-]. by eapply step_start.
  - destruct (caller w) as [|[|t todo]|] eqn:Hc; try done.
    destruct (all_done (multi w)) eqn:Had; [|done].
    intros [= <-]. by apply step_return.
  - destruct (heap w !! t) as [o|] eqn:Ho; [|done]. simpl.
    case_decide; [|done]. intros [= <-]. by apply step_body.
  - destruct (heap w !! t) as [o|] eqn:Ho; [|done]. simpl.
    case_decide; [|done].
    destruct (thread_failure w t) as [w1|] eqn:Htf; [|done]. simpl.
    intros [= <-]. by eapply step_handler.
  - destruct (heap w !! t) as [o|] eqn:Ho; [|done]. simpl.
    case_decide; [|done]. case_decide.
    + destruct (thread_success w t) as [w1|] eqn:Hts; [|done]. simpl.
      intros [= <-]. by eapply step_check_success.
    + intros [= <-]. by eapply step_check_other.
Qed.

Lemma execs_steps l w w' : execs l w = Some w' → rtc step w w'.
Proof.
  revert w. induction l as [|a l IH]; intros w; simpl.
  - intros [= <-]. constructor.
  - destruct (exec a w) as [w1|] eqn:E; [|done]. simpl. intros Hl.
    eapply rtc_l; [by apply (exec_step a)|by apply IH].
Qed.

Lemma after_reachable l : is_Some (execs l World_init) → reachable (after l).
Proof.
  intros [w E]. unfold after. rewrite E. simpl. by apply (execs_steps l).
Qed.

(** ** Properties of the coordinator *)

(** The dependents of a thread that is about to report success are
    untouched. *)
Lemma Inv_check_children w t o c oc :
  Inv w → heap w !! t = Some o → at_pc o = AtCheck → status o = 0 →
  heap w !! c = Some oc → depends oc = Some t →
  at_pc oc = NotStarted ∧ status oc = -1.
Proof.
  intros H Ho Hpc Hst Hoc Hd.
  assert (at_pc oc = NotStarted) as Hn.
  { destruct (decide (at_pc oc = NotStarted)) as [|Hn]; [done|exfalso].
    destruct (inv_started _ H _ _ Hoc Hn) as [_ Hp].
    destruct (Hp _ Hd) as (op & Hop & Hfin & _). congruence. }
  split; [done|].
  pose proof (inv_local _ H _ _ Hoc) as Hloc. unfold local_ok in Hloc.
  rewrite Hn in Hloc. destruct Hloc as ([?|Hs3] & _); [done|exfalso].
  destruct (inv_skipped _ H _ _ Hoc Hs3) as (_ & p & op & Hd' & Hop & Hf).
  assert (p = t) as -> by congruence.
  assert (op = o) as -> by congruence.
  destruct Hf as [?|[_ ?]]; lia.
Qed.

Lemma thread_success_is_Some w t o :
  Inv w → heap w !! t = Some o → at_pc o = AtCheck → status o = 0 →
  is_Some (thread_success w t).
Proof.
  intros H Ho Hpc Hst. unfold thread_success.
  destruct (start_all_is_Some (dependents w t) (heap w)) as [h' E].
  - apply NoDup_filter. by apply Inv_NoDup_values.
  - intros i (_ & oi & Hoi & Hd)%elem_of_dependents. exists oi.
    split; [done|]. by destruct (Inv_check_children w t o i oi).
  - rewrite E. simpl. eauto.
Qed.

(** C1 (as the code has it).  When a thread that succeeded reports to
    the coordinator, [thread_success] returns, adds one to
    [done_threads], starts every registered thread that depends on it
    (not started, status -1, becomes running) whether or not [abort]
    is set, leaves every other thread object and [abort] as they were,
    and sets [all_done] exactly if it was set or [done_threads] has
    reached [num_threads]. *)
Theorem thread_success_launches_dependents w t o :
  reachable w → heap w !! t = Some o → at_pc o = AtCheck → status o = 0 →
  ∃ w', thread_success w t = Some w'
    ∧ done_threads (multi w') = done_threads (multi w) + 1
    ∧ (∀ i, i ∈ values (multi w) → depends_of (heap w) i = Some (Some t) →
         ∃ oi, heap w !! i = Some oi ∧ at_pc oi = NotStarted ∧ status oi = -1
               ∧ heap w' !! i = Some (set_pc InBody oi))
    ∧ (∀ i, i ∉ dependents w t → heap w' !! i = heap w !! i)
    ∧ abort (multi w') = abort (multi w)
    ∧ (all_done (multi w') = true
       ↔ all_done (multi w) = true
         ∨ done_threads (multi w') = num_threads (multi w')).
Proof.
  intros Hr Ho Hpc Hst. pose proof (reachable_Inv _ Hr) as H.
  destruct (thread_success_is_Some _ _ _ H Ho Hpc Hst) as [w' E].
  exists w'. split; [done|]. unfold thread_success in E.
  destruct (start_all (dependents w t) (heap w)) as [h'|] eqn:Es; [|done].
  simpl in E. injection E as <-. cbn [heap multi].
  destruct (signal_if_done_spec (incr_done (multi w)))
    as (Enum & Edone & Ethr & Eab & Ead).
  apply start_all_Some in Es as [_ HD].
  split_and!.
  - by rewrite Edone.
  - intros i Hv Hd. destruct (HD i) as [Hin _].
    destruct Hin as (oi & Hoi & Hp & Hi').
    { unfold dependents. by apply list_elem_of_filter. }
    exists oi. split_and!; try done.
    unfold depends_of in Hd. rewrite Hoi in Hd. simpl in Hd.
    injection Hd as Hd. by destruct (Inv_check_children w t o i oi).
  - intros i Hi. by apply HD.
  - by rewrite Eab.
  - by rewrite Ead, Enum, Edone.
Qed.

(** C1, witness: [A] reports success in the scenario where [C] has
    failed before. *)
Lemma thread_success_launches_dependents_witness :
  ∃ w', thread_success (after abc_c_failed_a_returned) 0%nat = Some w'
    ∧ done_threads (multi w') = 2.
Proof.
  destruct (thread_success_launches_dependents
              (after abc_c_failed_a_returned) 0%nat
              (set_pc AtCheck (set_status 0 (set_pc InBody (new_thread "A" None)))))
    as (w' & E & Hd & _).
  - apply after_reachable. vm_compute. eauto.
  - vm_compute. reflexivity.
  - reflexivity.
  - reflexivity.
  - exists w'. split; [exact E|]. rewrite Hd. vm_compute. reflexivity.
Defined.

(** C1, counterexample.  The specification has the dependents of a
    succeeded thread marked as skipped when [abort] is set.  Here
    [abort] is set (by the failure of [C]), [A] reports success, and
    its dependent [B] is started, with status -1, not 3. *)
Lemma thread_success_with_abort_set_starts_dependent :
  reachable (after abc_c_failed_a_returned)
  ∧ abort (multi (after abc_c_failed_a_returned)) = true
  ∧ dependents (after abc_c_failed_a_returned) 0%nat = [1%nat]
  ∧ ∃ w', thread_success (after abc_c_failed_a_returned) 0%nat = Some w'
          ∧ heap w' !! 1%nat
            = Some (set_pc InBody (new_thread "B" (Some 0%nat)))
          ∧ status <$> heap w' !! 1%nat ≠ Some 3.
Proof.
  split_and!.
  - apply after_reachable. vm_compute. eauto.
  - vm_compute. reflexivity.
  - vm_compute. reflexivity.
  - eexists. split_and!.
    + vm_compute. reflexivity.
    + vm_compute. reflexivity.
    + vm_compute. discriminate.
Qed.

(** C2 (the failing input).  With no thread registered, [run] leaves
    the caller blocked in [all_done.wait()]: [done_threads] equals
    [num_threads] (both 0), yet [all_done] is not set, no transition
    is possible, and the caller never returns. *)
Theorem run_without_threads_never_returns :
  reachable (run World_init)
  ∧ done_threads (multi (run World_init)) = num_threads (multi (run World_init))
  ∧ all_done (multi (run World_init)) = false
  ∧ caller (run World_init) = Starting []
  ∧ (∀ w', ¬ step (run World_init) w')
  ∧ (∀ w', rtc step (run World_init) w' → caller w' ≠ Returned).
Proof.
  assert (∀ w', ¬ step (run World_init) w') as Hstuck.
  { intros w' Hs. inversion Hs; subst; simpl in *; try done.
    all: by rewrite lookup_nil in *. }
  split_and!; try done.
  - eapply rtc_l; [|constructor]. by apply step_run.
  - intros w' Hs. inversion Hs as [|? w1 ? Hs1]; subst; [done|].
    by destruct (Hstuck w1).
Qed.

(** When the dependency of every registered thread is registered, the
    registered threads that depend on [b] are the ones the recursion
    of [abort_dependents] visits. *)
Lemma depends_on_descendant w b t :
  (∀ t o p, t ∈ values (multi w) → heap w !! t = Some o →
     depends o = Some p → p ∈ values (multi w)) →
  t ∈ values (multi w) → depends_on (heap w) b t → descendant w b t.
Proof.
  intros Hdeps Ht Hd. revert Ht. unfold descendant.
  induction Hd as [t Hp|t p Hp _ IH]; intros Ht.
  - by apply desc_child.
  - eapply desc_down; [done..|]. apply IH.
    unfold depends_of in Hp. destruct (heap w !! t) as [o|] eqn:Ho; [|done].
    simpl in Hp. injection Hp as Hp. by eapply Hdeps.
Qed.

(** [check_continue] raises exactly when [abort] is set. *)
Lemma check_continue_raises w :
  check_continue w = Some ThreadAbortException ↔ abort (multi w) = true.
Proof. unfold check_continue. by destruct (abort (multi w)). Qed.

(** Descendants, once their ancestor has failed, are skipped. *)
Lemma Inv_descendants_skipped w b ob t :
  Inv w → heap w !! b = Some ob → failed ob → descendant w b t →
  ∃ ot, heap w !! t = Some ot ∧ status ot = 3 ∧ at_pc ot = NotStarted.
Proof.
  intros H Hb Hf. unfold descendant.
  assert (∀ i oi, heap w !! i = Some oi → status oi = 3 → at_pc oi = NotStarted)
    as Hpc.
  { intros i oi Hoi Hs3. pose proof (inv_local _ H _ _ Hoi) as Hloc.
    unfold local_ok in Hloc. destruct (at_pc oi); try done.
    - lia.
    - lia.
    - destruct Hloc as [[? _]|(e & tb & _ & _ & ?)]; [lia|].
      destruct (is_abort e); lia.
    - destruct Hloc as [[? _]|(e & tb & _ & _ & ?)]; [lia|].
      destruct (is_abort e); lia. }
  induction 1 as [t Hv Hp|t p Hv Hp _ (op & Hop & Hs3 & _)];
    unfold depends_of in Hp; destruct (heap w !! t) as [ot|] eqn:Hot;
    try done; simpl in Hp; injection Hp as Hd; exists ot.
  - assert (status ot = 3) by (by eapply (inv_cascade _ H t ot b ob)).
    split_and!; eauto.
  - assert (status ot = 3).
    { eapply (inv_cascade _ H t ot p op); try done. by left. }
    split_and!; eauto.
Qed.

(** C3.  When a thread [b] fails or is aborted, [thread_failure]
    returns with every registered thread that depends on [b], directly
    or through registered threads, marked as skipped (status 3), and
    with [done_threads] grown by one for [b] and by one for each thread
    newly accounted for.  From then on, in every reachable world where
    [b] is past [thread_failure] with status 1 or 2, each such thread
    has status 3, was never started, and is among the threads that
    [done_threads] counts. *)
Theorem failure_skips_all_descendants w b ob :
  reachable w → heap w !! b = Some ob →
  (at_pc ob = InHandler →
     ∃ w', thread_failure w b = Some w'
       ∧ (∀ t, descendant w b t → skipped_at (heap w') t)
       ∧ done_threads (multi w')
         = done_threads (multi w) + 1
           + (count_done (heap w') (values (multi w))
              - count_done (heap w) (values (multi w))))
  ∧ ((at_pc ob = AtCheck ∨ at_pc ob = Finished) →
     (status ob = 1 ∨ status ob = 2) →
     done_threads (multi w) = count_done (heap w) (values (multi w))
     ∧ ∀ t, descendant w b t →
         ∃ ot, heap w !! t = Some ot ∧ status ot = 3
               ∧ at_pc ot = NotStarted ∧ counted_at (heap w) t).
Proof.
  intros Hr Hb. pose proof (reachable_Inv _ Hr) as H. split.
  - intros Hpc.
    destruct (Inv_handler_exception _ _ _ H Hb Hpc) as (_ & e & tb & He & _).
    destruct (thread_failure_effect _ _ _ _ H Hb Hpc He) as (w' & E & Hfe).
    exists w'. split_and!; [done|apply Hfe|].
    pose proof (fe_count _ _ _ _ _ Hfe). lia.
  - intros Hpc Hst. split; [apply H|]. intros t Hd.
    destruct (Inv_descendants_skipped w b ob t) as (ot & Hot & Hs3 & Hn);
      try done.
    { right. split; [done|lia]. }
    exists ot. split_and!; try done.
    unfold counted_at. rewrite Hot. by left.
Qed.

(** C3, witness: in the diamond, after [A] has failed, [D] (which
    depends on [B], which depends on [A]) is skipped. *)
Lemma failure_skips_all_descendants_witness :
  ∃ ot, heap (after diamond_a_failed) !! 3%nat = Some ot ∧ status ot = 3.
Proof.
  destruct (failure_skips_all_descendants (after diamond_a_failed) 0%nat
              (set_pc Finished
                 (set_pc AtCheck
                    (body_done (Raises network_error (trace_of "network error"))
                       (set_pc InBody (new_thread "A" None))))))
    as [_ Hpast].
  - apply after_reachable. vm_compute. eauto.
  - vm_compute. reflexivity.
  - destruct Hpast as [_ Hd].
    + right. reflexivity.
    + left. reflexivity.
    + destruct (Hd 3%nat) as (ot & Hot & Hs & _).
      * apply desc_down with (p := 1%nat).
        -- apply (bool_decide_unpack _). vm_compute. exact I.
        -- vm_compute. reflexivity.
        -- apply desc_child.
           ++ apply (bool_decide_unpack _). vm_compute. exact I.
           ++ vm_compute. reflexivity.
      * exists ot. split; [exact Hot|exact Hs].
Defined.

(** C4.  A thread whose body raises [e] (with traceback [tb]) enters
    the handler with [e] and [tb] stored and status 1; [thread_failure]
    then returns, and in the world it returns: if [e] is a
    [ThreadAbortException] the status is 2 and [abort] is what it was
    (neither set nor set again), otherwise the status is 1 and [abort]
    is set (whether or not it was); in both cases [e] and [tb] stay
    stored, [done_threads] has grown by one for the thread and by one
    for each thread newly accounted for, and every thread that depends
    on it, directly or transitively, is marked as skipped. *)
Theorem thread_failure_records_outcome w t o e tb :
  reachable w → heap w !! t = Some o → at_pc o = InBody →
  let w1 := mkWorld (<[t := body_done (Raises e tb) o]> (heap w))
              (multi w) (caller w) in
  ∃ w2 o2,
    thread_failure w1 t = Some w2 ∧ heap w2 !! t = Some o2
    ∧ exception o2 = Some e ∧ stack_trace o2 = Some tb
    ∧ status o2 = (if is_abort e then 2 else 1)
    ∧ abort (multi w2) = (if is_abort e then abort (multi w) else true)
    ∧ done_threads (multi w2)
      = done_threads (multi w) + 1
        + (count_done (heap w2) (values (multi w))
           - count_done (heap w1) (values (multi w)))
    ∧ (∀ i, descendant w1 t i → skipped_at (heap w2) i).
Proof.
  intros Hr Ho Hpc w1.
  assert (reachable w1) as Hr1.
  { eapply rtc_r; [exact Hr|]. by apply step_body. }
  pose proof (reachable_Inv _ Hr1) as H1.
  assert (heap w1 !! t = Some (body_done (Raises e tb) o)) as Ho1.
  { unfold w1. simpl. apply list_lookup_insert_eq. by eapply lookup_lt_Some. }
  destruct (thread_failure_effect w1 t _ e H1 Ho1) as (w2 & E & Hfe); [done..|].
  exists w2. eexists. split_and!.
  - exact E.
  - apply Hfe.
  - by destruct (is_abort e).
  - by destruct (is_abort e).
  - by destruct (is_abort e).
  - rewrite (fe_abort _ _ _ _ _ Hfe). simpl.
    destruct (is_abort e); simpl; [by rewrite orb_false_r|by rewrite orb_true_r].
  - pose proof (fe_count _ _ _ _ _ Hfe) as Hc. unfold w1 in *.
    cbn [heap multi] in *. lia.
  - apply Hfe.
Qed.

(** C4, witness: a single thread acknowledges an abort. *)
Lemma thread_failure_records_outcome_witness :
  ∃ w2 o2,
    thread_failure
      (mkWorld (<[0%nat := body_done (Raises ThreadAbortException (trace_of ""))
                             (set_pc InBody (new_thread "A" None))]>
                  (heap (after (setup_one "A"))))
         (multi (after (setup_one "A"))) (caller (after (setup_one "A"))))
      0%nat = Some w2
    ∧ heap w2 !! 0%nat = Some o2 ∧ status o2 = 2
    ∧ abort (multi w2) = false.
Proof.
  destruct (thread_failure_records_outcome (after (setup_one "A")) 0%nat
              (set_pc InBody (new_thread "A" None))
              ThreadAbortException (trace_of ""))
    as (w2 & o2 & E & Ho2 & _ & _ & Hs & Ha & _).
  - apply after_reachable. vm_compute. eauto.
  - vm_compute. reflexivity.
  - reflexivity.
  - exists w2, o2. split_and!; [exact E|exact Ho2|exact Hs|].
    rewrite Ha. reflexivity.
Defined.

(** A step that starts a thread: either the caller starts a thread
    without dependency, or the dependency of the thread reports success. *)
Lemma step_launch w w' t o o' :
  Inv w → step w w' →
  heap w !! t = Some o → at_pc o = NotStarted →
  heap w' !! t = Some o' → at_pc o' ≠ NotStarted →
  depends o = None
  ∨ ∃ p op, depends o = Some p ∧ heap w !! p = Some op
            ∧ at_pc op = AtCheck ∧ status op = 0.
Proof.
  intros H Hs Ho Hpc Ho' Hpc'.
  destruct Hs as [w n d Hc Hd|w t0 Hc Ht0|w Hc|w t0 todo h' Hc Hst|w Hc Had
                 |w t0 o0 r Ho0 Hp0|w t0 o0 w1 Ho0 Hp0 Htf
                 |w t0 o0 w1 Ho0 Hp0 Hs0 Hts|w t0 o0 Ho0 Hp0 Hs0]; simpl in Ho'.
  - rewrite lookup_app_l in Ho' by (by eapply lookup_lt_Some). congruence.
  - unfold add_thread in Ho'. destruct (heap w !! t0); simpl in Ho'; congruence.
  - congruence.
  - apply start_Some in Hst as (o0 & Ho0 & Hp0 & ->).
    destruct (decide (t = t0)) as [->|Hne].
    + left. pose proof (inv_caller _ H) as Hok. unfold caller_ok in Hok.
      rewrite Hc in Hok. destruct Hok as (_ & Htodo & _).
      destruct (Htodo t0) as (_ & o1 & Ho1 & Hd1 & _); [left|]. congruence.
    + rewrite list_lookup_insert_ne in Ho' by done. congruence.
  - congruence.
  - destruct (decide (t = t0)) as [->|Hne]; [congruence|].
    rewrite list_lookup_insert_ne in Ho' by done. congruence.
  - destruct (decide (t = t0)) as [->|Hne]; [congruence|].
    rewrite list_lookup_alter_ne in Ho' by done.
    destruct (Inv_handler_exception _ _ _ H Ho0 Hp0) as (_ & e & tb & He & _).
    destruct (thread_failure_effect _ _ _ _ H Ho0 Hp0 He) as (w2 & E & Hfe).
    assert (w2 = w1) as -> by congruence.
    destruct (fe_others _ _ _ _ _ Hfe t) as [E'|(_ & oi & Hoi & _ & E')];
      [done|congruence|].
    rewrite E' in Ho'. injection Ho' as <-. simpl in Hpc'. congruence.
  - destruct (decide (t = t0)) as [->|Hne]; [congruence|].
    rewrite list_lookup_alter_ne in Ho' by done.
    unfold thread_success in Hts.
    destruct (start_all (dependents w t0) (heap w)) as [h1|] eqn:Esa; [|done].
    simpl in Hts. injection Hts as <-. simpl in Ho'.
    apply start_all_Some in Esa as [_ HD].
    destruct (decide (t ∈ dependents w t0)) as [Hin|Hout].
    + right. apply elem_of_dependents in Hin as (_ & o1 & Ho1 & Hd1).
      exists t0, o0. split_and!; congruence.
    + destruct (HD t) as [_ Hsame]. rewrite Hsame in Ho' by done. congruence.
  - destruct (decide (t = t0)) as [->|Hne]; [congruence|].
    rewrite list_lookup_alter_ne in Ho' by done. congruence.
Qed.

(** C5.  In every reachable world a thread that has been started and
    has a dependency finds that dependency with status 0, past
    [thread_success]; and a step that starts a thread with a dependency
    is taken from a world in which the dependency already has status 0.
    Threads without a dependency are started by the caller, in no
    particular order. *)
Theorem starts_only_after_dependency_succeeded w t o p :
  reachable w → heap w !! t = Some o → depends o = Some p →
  (at_pc o ≠ NotStarted →
     ∃ op, heap w !! p = Some op ∧ status op = 0 ∧ at_pc op = Finished)
  ∧ (∀ w' o', step w w' → at_pc o = NotStarted →
       heap w' !! t = Some o' → at_pc o' ≠ NotStarted →
       ∃ op, heap w !! p = Some op ∧ status op = 0).
Proof.
  intros Hr Ho Hd. pose proof (reachable_Inv _ Hr) as H. split.
  - intros Hs. destruct (inv_started _ H _ _ Ho Hs) as [_ Hp].
    destruct (Hp _ Hd) as (op & Hop & Hfin & Hz). eauto.
  - intros w' o' Hstep Hpc Ho' Hpc'.
    destruct (step_launch _ _ _ _ _ H Hstep Ho Hpc Ho' Hpc')
      as [Hn|(p' & op & Hd' & Hop & _ & Hz)]; [congruence|].
    exists op. split; [congruence|done].
Qed.

(** C5, witness: [B] runs, and [A] has status 0. *)
Lemma starts_only_after_dependency_succeeded_witness :
  ∃ op, heap (after chain_b_running) !! 0%nat = Some op ∧ status op = 0.
Proof.
  destruct (starts_only_after_dependency_succeeded (after chain_b_running)
              1%nat (set_pc InBody (new_thread "B" (Some 0%nat))) 0%nat)
    as [Hinv _].
  - apply after_reachable. vm_compute. eauto.
  - vm_compute. reflexivity.
  - reflexivity.
  - destruct Hinv as (op & Hop & Hs & _).
    + simpl. discriminate.
    + exists op. split; [exact Hop|exact Hs].
Defined.

(** After [run] has returned, every registered thread is accounted
    for. *)
Lemma Inv_returned_counted w t :
  Inv w → caller w = Returned → t ∈ values (multi w) →
  ∃ o, heap w !! t = Some o ∧ counted o
       ∧ (status o = 0 ∨ status o = 1 ∨ status o = 2 ∨ status o = 3).
Proof.
  intros H Hc Ht. pose proof (inv_caller _ H) as Hok.
  unfold caller_ok in Hok. rewrite Hc in Hok. destruct Hok as [Had _].
  pose proof (inv_signal _ H Had) as Hdn. pose proof (inv_size _ H) as Hsz.
  pose proof (count_done_bounds (heap w) (values (multi w))) as Hb.
  rewrite length_values in Hb.
  assert (count_done (heap w) (values (multi w))
          = Z.of_nat (length (values (multi w)))) as Hfull.
  { rewrite length_values. pose proof (inv_count _ H) as Hcnt. lia. }
  pose proof (proj1 (count_done_full _ _) Hfull t Ht) as Hcn.
  unfold counted_at in Hcn. destruct (heap w !! t) as [o|] eqn:Ho; [|done].
  exists o. split_and!; [done..|].
  pose proof (inv_local _ H _ _ Ho) as Hloc. unfold local_ok in Hloc.
  destruct Hcn as [?|[Hf|[Hf _]]]; [auto|..]; rewrite Hf in Hloc;
    (destruct Hloc as [[? _]|(e & tb & _ & _ & ?)]; [auto|]);
    destruct (is_abort e); auto.
Qed.

Lemma all_success_true w :
  all_success w = true ↔
  ∀ t, t ∈ values (multi w) → status <$> heap w !! t = Some 0.
Proof.
  unfold all_success. rewrite forallb_forall. split.
  - intros Hall t Ht. apply list_elem_of_In, Hall in Ht.
    by apply bool_decide_eq_true in Ht.
  - intros Hall t Ht. apply bool_decide_eq_true, Hall. by apply list_elem_of_In.
Qed.

(** C6.  After [run] has returned every registered thread has one of
    the statuses 0 (succeeded), 1 (failed), 2 (aborted), 3 (skipped);
    [all_success] answers true exactly if all of them have status 0,
    and false as soon as one has status 1, 2 or 3. *)
Theorem all_success_iff_all_succeeded w :
  reachable w → caller w = Returned →
  (∀ t, t ∈ values (multi w) →
     ∃ o, heap w !! t = Some o
          ∧ (status o = 0 ∨ status o = 1 ∨ status o = 2 ∨ status o = 3))
  ∧ (all_success w = true ↔
     ∀ t o, t ∈ values (multi w) → heap w !! t = Some o → status o = 0)
  ∧ (∀ t o, t ∈ values (multi w) → heap w !! t = Some o →
       status o = 1 ∨ status o = 2 ∨ status o = 3 → all_success w = false).
Proof.
  intros Hr Hc. pose proof (reachable_Inv _ Hr) as H. split_and!.
  - intros t Ht. destruct (Inv_returned_counted _ _ H Hc Ht) as (o & ? & _ & ?).
    eauto.
  - rewrite all_success_true. split.
    + intros Hall t o Ht Ho. specialize (Hall t Ht). rewrite Ho in Hall.
      simpl in Hall. congruence.
    + intros Hall t Ht. destruct (Inv_values_lookup _ _ H Ht) as [o Ho].
      rewrite Ho. simpl. f_equal. by apply (Hall t).
  - intros t o Ht Ho Hs. apply not_true_is_false. intros Hall.
    pose proof (proj1 (all_success_true w) Hall t Ht) as E.
    rewrite Ho in E. simpl in E. injection E as E. lia.
Qed.

(** C6, witness: the diamond after the failure of [A]. *)
Lemma all_success_iff_all_succeeded_witness :
  all_success (after diamond_a_failed) = false.
Proof.
  destruct (all_success_iff_all_succeeded (after diamond_a_failed))
    as (_ & _ & Hfalse).
  - apply after_reachable. vm_compute. eauto.
  - vm_compute. reflexivity.
  - apply (Hfalse 3%nat (set_status 3 (new_thread "D" (Some 1%nat)))).
    + apply (bool_decide_unpack _). vm_compute. exact I.
    + vm_compute. reflexivity.
    + right. right. reflexivity.
Defined.

(** The entries of [get_exceptions]. *)
Lemma get_exceptions_lookup w n v :
  Inv w →
  get_exceptions w !! n = Some v ↔
  ∃ t o, threads (multi w) !! n = Some t ∧ heap w !! t = Some o
         ∧ status o = 1 ∧ v = (exception o, stack_trace o).
Proof.
  intros H. unfold get_exceptions.
  set (f := λ t : nat, o ← heap w !! t;
              if decide (status o = 1)
              then Some (name o, (exception o, stack_trace o)) else None).
  assert (∀ n' v', (n', v') ∈ omap f (values (multi w)) ↔
            ∃ t o, threads (multi w) !! n' = Some t ∧ heap w !! t = Some o
                   ∧ status o = 1 ∧ v' = (exception o, stack_trace o)) as Hin.
  { intros n' v'. rewrite list_elem_of_omap. split.
    - intros (t & Ht & Hf). apply elem_of_values in Ht as (m & Hm).
      destruct (inv_reg _ H _ _ Hm) as (o & Ho & Hn).
      unfold f in Hf. rewrite Ho in Hf. simpl in Hf.
      case_decide; [|done]. injection Hf as <- <-.
      exists t, o. by rewrite Hn.
    - intros (t & o & Ht & Ho & Hs & ->).
      destruct (inv_reg _ H _ _ Ht) as (o2 & Ho2 & Hn).
      assert (o2 = o) as -> by congruence.
      exists t. split; [apply elem_of_values; eauto|].
      unfold f. rewrite Ho. simpl. rewrite decide_True by done. by rewrite Hn. }
  rewrite <- Hin. split.
  - apply elem_of_list_to_map_2.
  - intros Hv. apply elem_of_list_to_map_1'; [|done].
    intros y Hy. apply Hin in Hy as (t & o & Ht & Ho & _ & ->).
    apply Hin in Hv as (t2 & o2 & Ht2 & Ho2 & _ & ->). congruence.
Qed.

(** C9.  In every reachable world, [done_threads] is at least 0 and at
    most the number of registered threads, [len(self.threads)]. *)
Theorem done_threads_bounded w :
  reachable w →
  0 ≤ done_threads (multi w) ≤ Z.of_nat (size (threads (multi w))).
Proof. intros Hr. by apply Inv_done_le_size, reachable_Inv. Qed.

(** C9, witness: the diamond after the failure of [A], where three
    threads were counted without having run. *)
Lemma done_threads_bounded_witness :
  0 ≤ done_threads (multi (after diamond_a_failed)) ≤ 4.
Proof.
  pose proof (done_threads_bounded (after diamond_a_failed)) as Hb.
  change 4 with (Z.of_nat (size (threads (multi (after diamond_a_failed))))).
  apply Hb. apply after_reachable. vm_compute. eauto.
Defined.

(** No step makes the registry catch up with the counter of
    registrations. *)
Lemma step_registry w w' :
  Inv w → step w w' →
  num_threads (multi w) - Z.of_nat (size (threads (multi w)))
  ≤ num_threads (multi w') - Z.of_nat (size (threads (multi w'))).
Proof.
  intros H Hs.
  destruct Hs as [w n d Hc Hd|w t0 Hc Ht0|w Hc|w t0 todo h' Hc Hst|w Hc Had
                 |w t0 o0 r Ho0 Hp0|w t0 o0 w1 Ho0 Hp0 Htf
                 |w t0 o0 w1 Ho0 Hp0 Hs0 Hts|w t0 o0 Ho0 Hp0 Hs0];
    cbn [alloc run with_pc heap multi caller]; try lia.
  - unfold add_thread. destruct (heap w !! t0) as [o|]; [|lia].
    cbn [multi threads num_threads]. rewrite map_size_insert.
    destruct (threads (multi w) !! name o); simpl; unfold id; lia.
  - simpl. lia.
  - destruct (Inv_handler_exception _ _ _ H Ho0 Hp0) as (_ & e & tb & He & _).
    destruct (thread_failure_effect _ _ _ _ H Ho0 Hp0 He) as (w2 & E & Hfe).
    assert (w2 = w1) as -> by congruence.
    rewrite (fe_num _ _ _ _ _ Hfe), (fe_threads _ _ _ _ _ Hfe). lia.
  - unfold thread_success in Hts.
    destruct (start_all (dependents w t0) (heap w)) as [h1|]; [|done].
    simpl in Hts. injection Hts as <-. cbn [multi].
    destruct (signal_if_done_spec (incr_done (multi w))) as (-> & _ & -> & _).
    simpl. lia.
Qed.

Lemma steps_registry w w' :
  Inv w → rtc step w w' →
  num_threads (multi w) - Z.of_nat (size (threads (multi w)))
  ≤ num_threads (multi w') - Z.of_nat (size (threads (multi w'))).
Proof.
  intros H Hs. induction Hs as [|w1 w2 w3 Hs1 _ IH]; [lia|].
  pose proof (step_registry _ _ H Hs1). pose proof (Inv_step _ _ H Hs1) as H2.
  specialize (IH H2). lia.
Qed.

(** C10.  While the caller registers threads, [add_thread] accepts a
    thread whose name is already a key of [threads]: the entry under
    that name now refers to the new thread, the number of entries is
    unchanged and [num_threads] has grown by one, so that it exceeds
    the number of entries.  From then on, whatever happens,
    [done_threads] stays below [num_threads], [all_done] is never set
    and the caller never returns from [run]. *)
Theorem duplicate_name_blocks_run w t o :
  reachable w → caller w = Registering → heap w !! t = Some o →
  is_Some (threads (multi w) !! name o) →
  step w (add_thread w t)
  ∧ threads (multi (add_thread w t)) !! name o = Some t
  ∧ size (threads (multi (add_thread w t))) = size (threads (multi w))
  ∧ num_threads (multi (add_thread w t)) = num_threads (multi w) + 1
  ∧ Z.of_nat (size (threads (multi (add_thread w t))))
    < num_threads (multi (add_thread w t))
  ∧ ∀ w', rtc step (add_thread w t) w' →
      done_threads (multi w') < num_threads (multi w')
      ∧ all_done (multi w') = false
      ∧ caller w' ≠ Returned.
Proof.
  intros Hr Hc Ho [old Hold]. pose proof (reachable_Inv _ Hr) as H.
  assert (step w (add_thread w t)) as Hstep.
  { apply step_add; [done|]. by eapply lookup_lt_Some. }
  pose proof (Inv_step _ _ H Hstep) as H1.
  assert (size (threads (multi (add_thread w t))) = size (threads (multi w))
          ∧ num_threads (multi (add_thread w t)) = num_threads (multi w) + 1
          ∧ threads (multi (add_thread w t)) !! name o = Some t)
    as (Esz & Enum & Elk).
  { unfold add_thread. rewrite Ho. cbn [multi threads num_threads].
    rewrite map_size_insert, Hold, lookup_insert_eq. done. }
  pose proof (inv_size _ H) as Hsz.
  split_and!; [done|done|done|done|lia|].
  intros w' Hs. pose proof (Inv_steps _ _ H1 Hs) as H'.
  pose proof (steps_registry _ _ H1 Hs) as Hreg.
  pose proof (Inv_done_le_size _ H') as Hle.
  assert (done_threads (multi w') < num_threads (multi w')) as Hlt by lia.
  assert (all_done (multi w') = false) as Had.
  { apply not_true_is_false. intros Had.
    pose proof (inv_signal _ H' Had). lia. }
  split_and!; [done|done|].
  intros Hret. pose proof (inv_caller _ H') as Hok. unfold caller_ok in Hok.
  rewrite Hret in Hok. destruct Hok as [? _]. congruence.
Qed.

(** C10, witness: the second ["A"] is registered too. *)
Lemma duplicate_name_blocks_run_witness :
  threads (multi (add_thread (after two_named_a) 1%nat)) !! "A" = Some 1%nat
  ∧ Z.of_nat (size (threads (multi (add_thread (after two_named_a) 1%nat))))
    < num_threads (multi (add_thread (after two_named_a) 1%nat)).
Proof.
  destruct (duplicate_name_blocks_run (after two_named_a) 1%nat
              (new_thread "A" None))
    as (_ & Hlk & _ & _ & Hlt & _).
  - apply after_reachable. vm_compute. eauto.
  - vm_compute. reflexivity.
  - vm_compute. reflexivity.
  - vm_compute. eauto.
  - split; [exact Hlk|exact Hlt].
Defined.

(** ** Termination of [run] when threads are registered *)

Lemma same_length_lookup {A} (h h' : list A) :
  (∀ i, is_Some (h' !! i) ↔ is_Some (h !! i)) → length h' = length h.
Proof.
  intros Hs.
  destruct (decide (length h' = length h)) as [|Hne]; [done|exfalso].
  destruct (decide (length h' < length h)%nat).
  - assert (is_Some (h !! length h')) as H by (apply lookup_lt_is_Some; lia).
    apply Hs, lookup_lt_is_Some in H. lia.
  - assert (is_Some (h' !! length h)) as H by (apply lookup_lt_is_Some; lia).
    apply Hs, lookup_lt_is_Some in H. lia.
Qed.

Lemma sum_pointwise_le {A} (f : A → nat) (h h' : list A) :
  length h' = length h →
  (∀ i o o', h !! i = Some o → h' !! i = Some o' → (f o' ≤ f o)%nat) →
  (sum_list_with f h' ≤ sum_list_with f h)%nat.
Proof.
  revert h'. induction h as [|a h IH]; intros [|a' h'] Hlen Hle;
    simpl in *; try done.
  assert (f a' ≤ f a)%nat by (by apply (Hle 0%nat)).
  assert (sum_list_with f h' ≤ sum_list_with f h)%nat.
  { apply IH; [lia|]. intros i o o' Ho Ho'. by apply (Hle (S i)). }
  lia.
Qed.

Lemma sum_pointwise_lt {A} (f : A → nat) (h h' : list A) t o o' :
  length h' = length h →
  (∀ i o o', h !! i = Some o → h' !! i = Some o' → (f o' ≤ f o)%nat) →
  h !! t = Some o → h' !! t = Some o' → (f o' < f o)%nat →
  (sum_list_with f h' < sum_list_with f h)%nat.
Proof.
  revert h' t. induction h as [|a h IH]; intros [|a' h'] t Hlen Hle Ho Ho' Hlt;
    simpl in *; try done.
  assert (f a' ≤ f a)%nat by (by apply (Hle 0%nat)).
  assert (∀ i o o', h !! i = Some o → h' !! i = Some o' → (f o' ≤ f o)%nat)
    as Hle' by (intros i o1 o1' H1 H1'; by apply (Hle (S i))).
  destruct t as [|t].
  - simpl in Ho, Ho'. injection Ho as ->. injection Ho' as ->.
    assert (sum_list_with f h' ≤ sum_list_with f h)%nat
      by (apply sum_pointwise_le; [lia|done]).
    lia.
  - assert (sum_list_with f h' < sum_list_with f h)%nat
      by (apply (IH h' t); [lia|done..]).
    lia.
Qed.

(** Once [run] is called, every step brings the system closer to its
    end. *)
Lemma step_steps_left w w' :
  Inv w → caller w ≠ Registering → step w w' →
  (steps_left w' < steps_left w)%nat.
Proof.
  intros H Hrun Hs. unfold steps_left.
  destruct Hs as [w n d Hc Hd|w t0 Hc Ht0|w Hc|w t0 todo h' Hc Hst|w Hc Had
                 |w t0 o0 r Ho0 Hp0|w t0 o0 w1 Ho0 Hp0 Htf
                 |w t0 o0 w1 Ho0 Hp0 Hs0 Hts|w t0 o0 Ho0 Hp0 Hs0];
    try done; cbn [with_pc heap multi caller].
  - apply start_Some in Hst as (o0 & Ho0 & Hp0 & ->). rewrite Hc. simpl.
    assert (sum_list_with pc_rank (<[t0:=set_pc InBody o0]> (heap w))
            < sum_list_with pc_rank (heap w))%nat; [|lia].
    apply (sum_pointwise_lt _ _ _ t0 o0 (set_pc InBody o0));
      [apply length_insert| |done| |].
    + intros i o o' Ho Ho'. destruct (decide (i = t0)) as [->|Hne].
      * rewrite list_lookup_insert_eq in Ho' by (by eapply lookup_lt_Some).
        injection Ho' as <-. assert (o = o0) as -> by congruence.
        unfold pc_rank. simpl. rewrite Hp0. lia.
      * rewrite list_lookup_insert_ne in Ho' by done.
        assert (o' = o) as -> by congruence. lia.
    + apply list_lookup_insert_eq. by eapply lookup_lt_Some.
    + unfold pc_rank. simpl. rewrite Hp0. lia.
  - rewrite Hc. simpl. lia.
  - assert (sum_list_with pc_rank (<[t0:=body_done r o0]> (heap w))
            < sum_list_with pc_rank (heap w))%nat; [|lia].
    apply (sum_pointwise_lt _ _ _ t0 o0 (body_done r o0));
      [apply length_insert| |done| |].
    + intros i o o' Ho Ho'. destruct (decide (i = t0)) as [->|Hne].
      * rewrite list_lookup_insert_eq in Ho' by (by eapply lookup_lt_Some).
        injection Ho' as <-. assert (o = o0) as -> by congruence.
        unfold pc_rank. destruct r; simpl; rewrite Hp0; lia.
      * rewrite list_lookup_insert_ne in Ho' by done.
        assert (o' = o) as -> by congruence. lia.
    + apply list_lookup_insert_eq. by eapply lookup_lt_Some.
    + unfold pc_rank. destruct r; simpl; rewrite Hp0; lia.
  - destruct (Inv_handler_exception _ _ _ H Ho0 Hp0) as (_ & e & tb & He & _).
    destruct (thread_failure_effect _ _ _ _ H Ho0 Hp0 He) as (w2 & E & Hfe).
    assert (w2 = w1) as -> by congruence.
    rewrite (fe_caller _ _ _ _ _ Hfe).
    set (o1 := if is_abort e then set_status 2 o0 else o0).
    assert (at_pc o1 = InHandler) as Hp1
      by (unfold o1; by destruct (is_abort e)).
    set (h4 := alter (set_pc AtCheck) t0 (heap w1)).
    assert (h4 !! t0 = Some (set_pc AtCheck o1)) as E4
      by (unfold h4; by rewrite list_lookup_alter_eq, (fe_self _ _ _ _ _ Hfe)).
    assert (∀ i o o', heap w !! i = Some o → h4 !! i = Some o' →
              (pc_rank o' ≤ pc_rank o)%nat) as Hle.
    { intros i o o' Ho Ho'. destruct (decide (i = t0)) as [->|Hne].
      - rewrite E4 in Ho'. injection Ho' as <-.
        assert (o = o0) as -> by congruence.
        unfold pc_rank. simpl. rewrite Hp0. lia.
      - unfold h4 in Ho'. rewrite list_lookup_alter_ne in Ho' by done.
        destruct (fe_others _ _ _ _ _ Hfe i Hne) as [E'|(_ & oi & Hoi & _ & E')].
        + assert (o' = o) as -> by congruence. lia.
        + rewrite E' in Ho'. injection Ho' as <-.
          assert (oi = o) as -> by congruence. unfold pc_rank. simpl. lia. }
    assert (sum_list_with pc_rank h4 < sum_list_with pc_rank (heap w))%nat;
      [|lia].
    apply (sum_pointwise_lt _ _ _ t0 o0 (set_pc AtCheck o1)); try done.
    + apply same_length_lookup. intros i.
      destruct (decide (i = t0)) as [->|Hne].
      * rewrite E4, Ho0. split; eauto.
      * unfold h4. rewrite list_lookup_alter_ne by done.
        destruct (fe_others _ _ _ _ _ Hfe i Hne) as [->|(_ & oi & -> & _ & ->)];
          [done|]. split; eauto.
    + unfold pc_rank. simpl. rewrite Hp0. lia.
  - unfold thread_success in Hts.
    destruct (start_all (dependents w t0) (heap w)) as [h1|] eqn:Esa; [|done].
    simpl in Hts. injection Hts as <-. cbn [heap caller].
    apply start_all_Some in Esa as [_ HD].
    assert (t0 ∉ dependents w t0) as HtD.
    { intros (_ & ot & Hot & Hd)%elem_of_dependents.
      pose proof (inv_order _ H _ _ _ Hot Hd). lia. }
    set (h2 := alter (set_pc Finished) t0 h1).
    assert (h2 !! t0 = Some (set_pc Finished o0)) as E2.
    { unfold h2. rewrite list_lookup_alter_eq. destruct (HD t0) as [_ Hout].
      by rewrite Hout, Ho0. }
    assert (∀ i, i ≠ t0 → h2 !! i = heap w !! i
              ∨ ∃ oi, heap w !! i = Some oi ∧ h2 !! i = Some (set_pc InBody oi)
                      ∧ at_pc oi = NotStarted) as Hoth.
    { intros i Hne. unfold h2. rewrite list_lookup_alter_ne by done.
      destruct (decide (i ∈ dependents w t0)) as [Hin|Hout].
      - right. destruct (HD i) as [Hi _].
        destruct (Hi Hin) as (oi & Hoi & Hpi & Ei). eauto.
      - left. by apply HD. }
    assert (sum_list_with pc_rank h2 < sum_list_with pc_rank (heap w))%nat;
      [|lia].
    apply (sum_pointwise_lt _ _ _ t0 o0 (set_pc Finished o0)); try done.
    + apply same_length_lookup. intros i.
      destruct (decide (i = t0)) as [->|Hne].
      * rewrite E2, Ho0. split; eauto.
      * destruct (Hoth i Hne) as [->|(oi & -> & -> & _)]; [done|].
        split; eauto.
    + intros i o o' Ho Ho'. destruct (decide (i = t0)) as [->|Hne].
      * rewrite E2 in Ho'. injection Ho' as <-.
        assert (o = o0) as -> by congruence.
        unfold pc_rank. simpl. lia.
      * destruct (Hoth i Hne) as [E'|(oi & Hoi & E' & Hpi)].
        -- assert (o' = o) as -> by congruence. lia.
        -- rewrite E' in Ho'. injection Ho' as <-.
           assert (oi = o) as -> by congruence.
           unfold pc_rank. simpl. rewrite Hpi. lia.
    + unfold pc_rank. simpl. rewrite Hp0. lia.
  - set (h2 := alter (set_pc Finished) t0 (heap w)).
    assert (sum_list_with pc_rank h2 < sum_list_with pc_rank (heap w))%nat;
      [|lia].
    apply (sum_pointwise_lt _ _ _ t0 o0 (set_pc Finished o0)); try done.
    + apply length_alter.
    + intros i o o' Ho Ho'. unfold h2 in Ho'.
      destruct (decide (i = t0)) as [->|Hne].
      * rewrite list_lookup_alter_eq, Ho0 in Ho'. injection Ho' as <-.
        assert (o = o0) as -> by congruence. unfold pc_rank. simpl. lia.
      * rewrite list_lookup_alter_ne in Ho' by done.
        assert (o' = o) as -> by congruence. lia.
    + unfold h2. by rewrite list_lookup_alter_eq, Ho0.
    + unfold pc_rank. simpl. rewrite Hp0. lia.
Qed.

(** A thread that has been started and has not returned can take a
    step. *)
Lemma Inv_thread_progress w t o :
  Inv w → heap w !! t = Some o →
  at_pc o ≠ NotStarted → at_pc o ≠ Finished → ∃ w', step w w'.
Proof.
  intros H Ho Hn Hf. destruct (at_pc o) eqn:Hpc; try done.
  - eexists. by apply (step_body w t o Returns).
  - destruct (Inv_handler_exception _ _ _ H Ho Hpc) as (_ & e & tb & He & _).
    destruct (thread_failure_effect _ _ _ _ H Ho Hpc He) as (w' & E & _).
    eexists. by eapply step_handler.
  - destruct (decide (status o = 0)) as [Hz|Hnz].
    + destruct (thread_success_is_Some _ _ _ H Ho Hpc Hz) as [w' E].
      eexists. by eapply step_check_success.
    + eexists. by eapply step_check_other.
Qed.

(** When no thread can take a step and the caller has started all it
    had to start, every registered thread is accounted for. *)
Lemma Inv_quiescent_counted w :
  Inv w → deps_registered w → caller w = Starting [] →
  (∀ t o, heap w !! t = Some o → at_pc o = NotStarted ∨ at_pc o = Finished) →
  ∀ t, t ∈ values (multi w) → counted_at (heap w) t.
Proof.
  intros H Hdeps Hc Hq t. induction (lt_wf t) as [t _ IH]. intros Ht.
  destruct (Inv_values_lookup _ _ H Ht) as [o Ho].
  unfold counted_at. rewrite Ho.
  destruct (depends o) as [p|] eqn:Hd.
  - pose proof (inv_order _ H _ _ _ Ho Hd) as Hlt.
    pose proof (Hdeps _ _ _ Ht Ho Hd) as Hp.
    specialize (IH p Hlt Hp). unfold counted_at in IH.
    destruct (heap w !! p) as [op|] eqn:Hop; [|done].
    assert (failed op ∨ (at_pc op = Finished ∧ status op = 0)) as [Hf|[Hf Hz]].
    { destruct IH as [?|[Hf|[Hf _]]].
      - left. by left.
      - destruct (decide (status op = 0)); [by right|].
        left. right. split; [by right|done].
      - destruct (Hq _ _ Hop); congruence. }
    + left. by eapply (inv_cascade _ H t o p op).
    + right. left.
      pose proof (inv_launch _ H t o p op Ht Ho Hd Hop Hf Hz).
      destruct (Hq _ _ Ho); [done|done].
  - right. left. pose proof (inv_caller _ H) as Hok. unfold caller_ok in Hok.
    rewrite Hc in Hok. destruct Hok as (_ & _ & Hrest).
    pose proof (Hrest t o Ht Ho Hd (not_elem_of_nil t)).
    destruct (Hq _ _ Ho); [done|done].
Qed.

(** For a coordinator with at least one registration, names registered
    once and dependencies registered, once [run] is called:
    every step reduces [steps_left], so every execution is finite; a
    world from which no step is possible is one where [run] has
    returned; [all_done] is set exactly when [done_threads] equals
    [num_threads]; and after the return every registered thread has
    one of the statuses 0, 1, 2, 3.  Without any registration the
    caller stays blocked in [run]. *)
Theorem run_returns_with_threads w :
  reachable w → caller w ≠ Registering →
  0 < num_threads (multi w) → unique_names w → deps_registered w →
  (∀ w', step w w' → (steps_left w' < steps_left w)%nat)
  ∧ ((∀ w', ¬ step w w') → caller w = Returned)
  ∧ (all_done (multi w) = true
     ↔ done_threads (multi w) = num_threads (multi w))
  ∧ (caller w = Returned →
     ∀ t, t ∈ values (multi w) →
       ∃ o, heap w !! t = Some o
            ∧ (status o = 0 ∨ status o = 1 ∨ status o = 2 ∨ status o = 3)
            ∧ (at_pc o = NotStarted → status o = 3)
            ∧ at_pc o ≠ InBody ∧ at_pc o ≠ InHandler).
Proof.
  intros Hr Hrun Hnum Huniq Hdeps. pose proof (reachable_Inv _ Hr) as H.
  split_and!.
  - intros w'. by apply step_steps_left.
  - intros Hstuck.
    assert (∀ t o, heap w !! t = Some o →
              at_pc o = NotStarted ∨ at_pc o = Finished) as Hq.
    { intros t o Ho.
      destruct (decide (at_pc o = NotStarted)) as [|Hn]; [by left|].
      destruct (decide (at_pc o = Finished)) as [|Hf]; [by right|].
      destruct (Inv_thread_progress _ _ _ H Ho Hn Hf) as [w' Hs].
      by destruct (Hstuck w'). }
    pose proof (inv_caller _ H) as Hok. unfold caller_ok in Hok.
    destruct (caller w) as [|[|t todo]|] eqn:Hc; [done| | |done]; exfalso.
    + pose proof (Inv_quiescent_counted _ H Hdeps Hc Hq) as Hall.
      apply count_done_full in Hall. rewrite length_values in Hall.
      pose proof (inv_count _ H) as Hcnt. unfold unique_names in Huniq.
      assert (all_done (multi w) = true) as Had.
      { apply (inv_wake _ H); [by rewrite Hc|lia|lia]. }
      apply (Hstuck (mkWorld (heap w) (multi w) Returned)).
      by apply step_return.
    + destruct Hok as (_ & Htodo & _).
      destruct (Htodo t) as (_ & o & Ho & _ & Hp); [left|].
      apply (Hstuck (mkWorld (<[t:=set_pc InBody o]> (heap w)) (multi w)
                       (Starting todo))).
      apply (step_start w t todo); [done|].
      unfold start. rewrite Ho. by rewrite decide_True.
  - split; [apply H|]. intros E. apply (inv_wake _ H); [done|lia|done].
  - intros Hc t Ht.
    destruct (Inv_returned_counted _ _ H Hc Ht) as (o & Ho & Hcn & Hst).
    exists o. split_and!; [done|done| | |].
    + intros Hp. destruct Hcn as [?|[?|[? _]]]; [done|congruence|congruence].
    + intros Hp. pose proof (inv_local _ H _ _ Ho) as Hloc.
      unfold local_ok in Hloc. rewrite Hp in Hloc.
      destruct Hcn as [?|[?|[? _]]]; [lia|congruence|congruence].
    + intros Hp. destruct Hcn as [Hs3|[?|[? _]]]; [|congruence|congruence].
      pose proof (inv_local _ H _ _ Ho) as Hloc.
      unfold local_ok in Hloc. rewrite Hp in Hloc. lia.
Qed.

(** The diamond is such a coordinator, and [run] has returned. *)
Lemma run_returns_with_threads_witness :
  all_done (multi (after diamond_a_failed)) = true
  ↔ done_threads (multi (after diamond_a_failed))
    = num_threads (multi (after diamond_a_failed)).
Proof.
  destruct (run_returns_with_threads (after diamond_a_failed))
    as (_ & _ & Hiff & _).
  - apply after_reachable. vm_compute. eauto.
  - vm_compute. discriminate.
  - vm_compute. reflexivity.
  - vm_compute. reflexivity.
  - intros t o p Ht Ho Hd. apply (bool_decide_unpack _).
    assert (t < 4)%nat as Hlt.
    { apply lookup_lt_Some in Ho. vm_compute in Ho. lia. }
    destruct t as [|[|[|[|t]]]]; [| | | |lia];
      vm_compute in Ho; injection Ho as <-; simpl in Hd;
      try discriminate; injection Hd as <-; vm_compute; exact I.
  - exact Hiff.
Defined.

(** ** Further properties of the coordinator *)

(** One step changes a thread object along [obj_step], or not at all. *)
Lemma step_object w w' t o :
  Inv w → step w w' → heap w !! t = Some o →
  ∃ o', heap w' !! t = Some o' ∧ (o' = o ∨ obj_step (abort (multi w')) o o').
Proof.
  intros H Hs Ho.
  destruct Hs as [w n d Hc Hd|w t0 Hc Ht0|w Hc|w t0 todo h' Hc Hst|w Hc Had
                 |w t0 o0 r Ho0 Hp0|w t0 o0 w1 Ho0 Hp0 Htf
                 |w t0 o0 w1 Ho0 Hp0 Hs0 Hts|w t0 o0 Ho0 Hp0 Hs0];
    cbn [with_pc heap multi caller].
  - exists o. split; [|by left]. simpl. by apply lookup_app_l_Some.
  - exists o. split; [|by left]. unfold add_thread.
    by destruct (heap w !! t0).
  - exists o. split; [done|by left].
  - apply start_Some in Hst as (o0 & Ho0 & Hp0 & ->).
    destruct (decide (t = t0)) as [->|Hne].
    + assert (o0 = o) as -> by congruence.
      exists (set_pc InBody o). split.
      * apply list_lookup_insert_eq. by eapply lookup_lt_Some.
      * right. apply os_start. split; [done|]. intros Hs3.
        destruct (inv_skipped _ H _ _ Ho Hs3) as (_ & p & op & Hd' & _).
        pose proof (inv_caller _ H) as Hok. unfold caller_ok in Hok.
        rewrite Hc in Hok. destruct Hok as (_ & Htodo & _).
        destruct (Htodo t0) as (_ & o1 & Ho1 & Hd1 & _); [left|]. congruence.
    + exists o. split; [by rewrite list_lookup_insert_ne|by left].
  - exists o. split; [done|by left].
  - destruct (decide (t = t0)) as [->|Hne].
    + assert (o0 = o) as -> by congruence. exists (body_done r o). split.
      * apply list_lookup_insert_eq. by eapply lookup_lt_Some.
      * right. by apply os_body.
    + exists o. split; [by rewrite list_lookup_insert_ne|by left].
  - destruct (Inv_handler_exception _ _ _ H Ho0 Hp0) as (_ & e & tb & He & _).
    destruct (thread_failure_effect _ _ _ _ H Ho0 Hp0 He) as (w2 & E & Hfe).
    assert (w2 = w1) as -> by congruence.
    destruct (decide (t = t0)) as [->|Hne].
    + assert (o0 = o) as -> by congruence.
      exists (set_pc AtCheck (if is_abort e then set_status 2 o else o)).
      split.
      * by rewrite list_lookup_alter_eq, (fe_self _ _ _ _ _ Hfe).
      * right. apply os_report; [done..|]. intros Hab.
        rewrite (fe_abort _ _ _ _ _ Hfe), Hab. apply orb_true_r.
    + rewrite list_lookup_alter_ne by done.
      destruct (fe_others _ _ _ _ _ Hfe t Hne) as [E'|(_ & oi & Hoi & Hf & E')].
      * exists o. split; [congruence|by left].
      * assert (oi = o) as -> by congruence.
        exists (set_status 3 o). split; [done|]. right. by apply os_skip.
  - unfold thread_success in Hts.
    destruct (start_all (dependents w t0) (heap w)) as [h1|] eqn:Esa; [|done].
    simpl in Hts. injection Hts as <-. cbn [heap multi].
    apply start_all_Some in Esa as [_ HD].
    assert (t0 ∉ dependents w t0) as HtD.
    { intros (_ & ot & Hot & Hd)%elem_of_dependents.
      pose proof (inv_order _ H _ _ _ Hot Hd). lia. }
    destruct (decide (t = t0)) as [->|Hne].
    + assert (o0 = o) as -> by congruence. exists (set_pc Finished o). split.
      * rewrite list_lookup_alter_eq. destruct (HD t0) as [_ Hout].
        by rewrite Hout, Ho.
      * right. by apply os_return.
    + rewrite list_lookup_alter_ne by done.
      destruct (decide (t ∈ dependents w t0)) as [Hin|Hout].
      * destruct (HD t) as [Hi _]. destruct (Hi Hin) as (oi & Hoi & Hpi & Ei).
        assert (oi = o) as -> by congruence.
        exists (set_pc InBody o). split; [done|]. right. apply os_start.
        apply elem_of_dependents in Hin as (_ & o2 & Ho2 & Hd2).
        assert (o2 = o) as -> by congruence.
        destruct (Inv_check_children w t0 o0 t o) as [? Hst]; try done.
        split; [done|lia].
      * exists o. split; [|by left]. destruct (HD t) as [_ Hsame].
        by rewrite Hsame.
  - destruct (decide (t = t0)) as [->|Hne].
    + assert (o0 = o) as -> by congruence. exists (set_pc Finished o).
      split; [by rewrite list_lookup_alter_eq, Ho|]. right. by apply os_return.
    + exists o. split; [by rewrite list_lookup_alter_ne|by left].
Qed.


Lemma obj_step_keeps ab o o' :
  obj_step ab o o' → name o' = name o ∧ depends o' = depends o.
Proof. intros [o1 _|o1 _|o1 [|e tb] _|o1 e _ _ _|o1 _]; try done.
  by destruct (is_abort e). Qed.

Lemma obj_step_settled ab o o' :
  local_ok o → settled o → obj_step ab o o' →
  settled o' ∧ status o' = status o ∧ exception o' = exception o
  ∧ stack_trace o' = stack_trace o.
Proof.
  intros Hloc Hset Hs. unfold local_ok in Hloc.
  destruct Hs as [o [Hp Hs]|o [Hp Hs]|o r Hp|o e Hp He _|o Hp].
  - destruct Hset as [?|[?|?]]; congruence.
  - destruct Hset as [?|[?|?]]; congruence.
  - rewrite Hp in Hloc. destruct Hset as [?|[?|?]]; [lia|congruence..].
  - rewrite Hp in Hloc. destruct Hset as [?|[?|?]]; [lia|congruence..].
  - split_and!; try done. right. by right.
Qed.

(** X1.  One step of the system leaves a thread object as it is or
    moves it one stage along its life: started (untouched, then in its
    body), skipped (untouched, then status 3), body ended (status 0, or
    status 1 with the exception and traceback stored), failure reported
    (status 2 for a [ThreadAbortException]; otherwise status 1 and
    [abort] is set afterwards), returned.  The name and the dependency
    never change. *)
Theorem thread_life_cycle w w' t o :
  reachable w → step w w' → heap w !! t = Some o →
  ∃ o', heap w' !! t = Some o'
    ∧ name o' = name o ∧ depends o' = depends o
    ∧ (o' = o ∨ obj_step (abort (multi w')) o o').
Proof.
  intros Hr Hs Ho. pose proof (reachable_Inv _ Hr) as H.
  destruct (step_object _ _ _ _ H Hs Ho) as (o' & Ho' & Hcase).
  exists o'. split; [done|]. destruct Hcase as [->|Hos]; [by split_and!; [..|left]|].
  destruct (obj_step_keeps _ _ _ Hos). split_and!; [done..|by right].
Qed.

(** X1, instance: in the chain, [B] is started by the step in which [A]
    reports success. *)
Lemma thread_life_cycle_witness :
  ∃ o', heap (after chain_b_running) !! 1%nat = Some o'
        ∧ name o' = "B".
Proof.
  destruct (thread_life_cycle
              (after [ANew "A" None; AAdd 0%nat; ANew "B" (Some 0%nat);
                      AAdd 1%nat; ARun; AStart; ABody 0%nat Returns])
              (after chain_b_running) 1%nat (new_thread "B" (Some 0%nat)))
    as (o' & Ho' & Hn & _).
  - apply after_reachable. vm_compute. eauto.
  - apply (exec_step (ACheck 0%nat)). vm_compute. reflexivity.
  - vm_compute. reflexivity.
  - exists o'. split; [exact Ho'|exact Hn].
Defined.

Lemma steps_settled w w' t o :
  Inv w → rtc step w w' → heap w !! t = Some o → settled o →
  ∃ o', heap w' !! t = Some o' ∧ settled o' ∧ status o' = status o
        ∧ exception o' = exception o ∧ stack_trace o' = stack_trace o.
Proof.
  intros H Hs. revert o. induction Hs as [w|w w1 w2 Hs1 _ IH]; intros o Ho Hset.
  - exists o. by split_and!.
  - destruct (step_object _ _ _ _ H Hs1 Ho) as (o1 & Ho1 & Hcase).
    assert (settled o1 ∧ status o1 = status o ∧ exception o1 = exception o
            ∧ stack_trace o1 = stack_trace o) as (Hset1 & E1 & E2 & E3).
    { destruct Hcase as [->|Hos]; [done|].
      eapply obj_step_settled; [|done..]. by eapply inv_local. }
    destruct (IH (Inv_step _ _ H Hs1) o1 Ho1 Hset1) as (o2 & Ho2 & ? & ? & ? & ?).
    exists o2. split_and!; [done..|congruence|congruence|congruence].
Qed.

(** X2.  Once a thread is skipped, or its body has ended and its
    outcome is classified (it is at the final check of [run] or has
    returned), its status, exception and traceback never change again,
    whatever the other threads do. *)
Theorem terminal_status_is_final w w' t o :
  reachable w → rtc step w w' → heap w !! t = Some o → settled o →
  ∃ o', heap w' !! t = Some o' ∧ status o' = status o
        ∧ exception o' = exception o ∧ stack_trace o' = stack_trace o.
Proof.
  intros Hr Hs Ho Hset. pose proof (reachable_Inv _ Hr) as H.
  destruct (steps_settled _ _ _ _ H Hs Ho Hset) as (o' & ? & _ & ? & ? & ?).
  by exists o'.
Qed.

(** X2, instance: [C] has failed; [A] ending its body afterwards does
    not change what [C] holds. *)
Lemma terminal_status_is_final_witness :
  ∃ o', heap (after abc_c_failed_a_returned) !! 2%nat = Some o'
        ∧ status o' = 1.
Proof.
  destruct (terminal_status_is_final (after abc_c_failed)
              (after abc_c_failed_a_returned) 2%nat
              (set_pc AtCheck
                 (body_done (Raises disk_full (trace_of "disk full"))
                    (set_pc InBody (new_thread "C" None)))))
    as (o' & Ho' & Hs & _).
  - apply after_reachable. vm_compute. eauto.
  - eapply rtc_l; [|apply rtc_refl].
    apply (exec_step (ABody 0%nat Returns)). vm_compute. reflexivity.
  - vm_compute. reflexivity.
  - right. left. reflexivity.
  - exists o'. split; [exact Ho'|exact Hs].
Defined.

Lemma step_flags w w' :
  Inv w → step w w' →
  (abort (multi w) = true → abort (multi w') = true)
  ∧ (all_done (multi w) = true → all_done (multi w') = true)
  ∧ (caller w ≠ Registering →
     caller w' ≠ Registering
     ∧ num_threads (multi w') = num_threads (multi w)
     ∧ threads (multi w') = threads (multi w)
     ∧ done_threads (multi w) ≤ done_threads (multi w')).
Proof.
  intros H Hs.
  destruct Hs as [w n d Hc Hd|w t0 Hc Ht0|w Hc|w t0 todo h' Hc Hst|w Hc Had
                 |w t0 o0 r Ho0 Hp0|w t0 o0 w1 Ho0 Hp0 Htf
                 |w t0 o0 w1 Ho0 Hp0 Hs0 Hts|w t0 o0 Ho0 Hp0 Hs0];
    cbn [alloc run with_pc heap multi caller].
  - by split_and!.
  - unfold add_thread. destruct (heap w !! t0); simpl; by split_and!.
  - simpl. by split_and!.
  - split_and!; try done; intros _; split_and!; try done; lia.
  - split_and!; try done; intros _; split_and!; try done; lia.
  - split_and!; try done; intros Hrun; split_and!; try done; lia.
  - destruct (Inv_handler_exception _ _ _ H Ho0 Hp0) as (_ & e & tb & He & _).
    destruct (thread_failure_effect _ _ _ _ H Ho0 Hp0 He) as (w2 & E & Hfe).
    assert (w2 = w1) as -> by congruence.
    split_and!.
    + intros Hab. by rewrite (fe_abort _ _ _ _ _ Hfe), Hab.
    + intros Had. apply (fe_all_done _ _ _ _ _ Hfe). by left.
    + intros Hrun. rewrite (fe_caller _ _ _ _ _ Hfe).
      split_and!; [done|apply Hfe|apply Hfe|].
      pose proof (fe_count _ _ _ _ _ Hfe) as Hc.
      assert (count_done (heap w) (values (multi w))
              ≤ count_done (heap w1) (values (multi w))); [|lia].
      apply count_done_mono. intros a _. unfold counted_at.
      destruct (decide (a = t0)) as [->|Hne].
      * rewrite Ho0. intros [?|[?|[? _]]]; [|congruence..].
        destruct (Inv_handler_exception _ _ _ H Ho0 Hp0) as (? & _). lia.
      * destruct (fe_others _ _ _ _ _ Hfe a Hne) as [->|(_ & oi & -> & Hf & ->)];
          [done|]. intros _. by left.
  - unfold thread_success in Hts.
    destruct (start_all (dependents w t0) (heap w)) as [h1|]; [|done].
    simpl in Hts. injection Hts as <-. cbn [heap multi caller].
    destruct (signal_if_done_spec (incr_done (multi w)))
      as (Enum & Edone & Ethr & Eab & Ead).
    split_and!.
    + by rewrite Eab.
    + intros Had. apply Ead. by left.
    + intros Hrun. rewrite Enum, Edone, Ethr. simpl. split_and!; [done..|lia].
  - split_and!; try done; intros Hrun; split_and!; try done; lia.
Qed.

Lemma steps_flags w w' :
  Inv w → rtc step w w' →
  (abort (multi w) = true → abort (multi w') = true)
  ∧ (all_done (multi w) = true → all_done (multi w') = true)
  ∧ (caller w ≠ Registering →
     caller w' ≠ Registering
     ∧ num_threads (multi w') = num_threads (multi w)
     ∧ threads (multi w') = threads (multi w)
     ∧ done_threads (multi w) ≤ done_threads (multi w')).
Proof.
  intros H Hs. induction Hs as [w|w w1 w2 Hs1 _ IH].
  - split_and!; try done; intros ?; split_and!; try done; lia.
  - destruct (step_flags _ _ H Hs1) as (Hab & Had & Hrun).
    destruct (IH (Inv_step _ _ H Hs1)) as (Hab' & Had' & Hrun').
    split_and!; [auto|auto|].
    intros Hc. destruct (Hrun Hc) as (Hc1 & E1 & E2 & E3).
    destruct (Hrun' Hc1) as (Hc2 & E1' & E2' & E3').
    split_and!; [done|congruence|congruence|lia].
Qed.

(** X3.  [abort] and [all_done], once set, stay set; and once [run] is
    called, the registry and [num_threads] are never changed by the
    coordinator and [done_threads] never decreases. *)
Theorem flags_and_counter_are_monotone w w' :
  reachable w → rtc step w w' →
  (abort (multi w) = true → abort (multi w') = true)
  ∧ (all_done (multi w) = true → all_done (multi w') = true)
  ∧ (caller w ≠ Registering →
     caller w' ≠ Registering
     ∧ num_threads (multi w') = num_threads (multi w)
     ∧ threads (multi w') = threads (multi w)
     ∧ done_threads (multi w) ≤ done_threads (multi w')).
Proof. intros Hr Hs. apply steps_flags; [by apply reachable_Inv|done]. Qed.

(** X3, instance: [abort], set by the failure of [C], is still set
    after [A] has ended its body. *)
Lemma flags_and_counter_are_monotone_witness :
  abort (multi (after abc_c_failed_a_returned)) = true.
Proof.
  destruct (flags_and_counter_are_monotone (after abc_c_failed)
              (after abc_c_failed_a_returned)) as (Hab & _).
  - apply after_reachable. vm_compute. eauto.
  - eapply rtc_l; [|apply rtc_refl].
    apply (exec_step (ABody 0%nat Returns)). vm_compute. reflexivity.
  - apply Hab. vm_compute. reflexivity.
Defined.

Lemma obj_step_genuinely_failed ab o o' :
  local_ok o → obj_step ab o o' →
  (genuinely_failed o → genuinely_failed o')
  ∧ (genuinely_failed o' → genuinely_failed o ∨ ab = true).
Proof.
  unfold genuinely_failed, local_ok. intros Hloc Hs.
  destruct Hs as [o [Hp Hs]|o [Hp Hs]|o r Hp|o e Hp He Hab|o Hp].
  - simpl. split; intros [[?|?] ?]; congruence.
  - simpl. split; intros [[?|?] ?]; congruence || lia.
  - split; [intros [[?|?] ?]; congruence|].
    destruct r; simpl; intros [[?|?] ?]; congruence || lia.
  - split; [intros [[?|?] ?]; congruence|].
    destruct (is_abort e); simpl; intros [_ ?]; [lia|]. right. by apply Hab.
  - simpl. split; intros [_ ?]; [split; auto|left; split; auto].
Qed.

(** A step that sets [abort] is the report of a failure. *)
Lemma step_sets_abort w w' :
  Inv w → step w w' →
  abort (multi w) ≠ true → abort (multi w') = true →
  ∃ t o, heap w' !! t = Some o ∧ genuinely_failed o.
Proof.
  intros H Hs Hnab Hab1.
  destruct Hs as [w n d Hc Hd|w t0 Hc Ht0|w Hc|w t0 todo h' Hc Hst|w Hc Had
                 |w t0 o0 r Ho0 Hp0|w t0 o0 w1 Ho0 Hp0 Htf
                 |w t0 o0 w1 Ho0 Hp0 Hs0 Hts|w t0 o0 Ho0 Hp0 Hs0];
    cbn [alloc run with_pc heap multi caller] in *; try done.
  - unfold add_thread in Hab1. by destruct (heap w !! t0).
  - destruct (Inv_handler_exception _ _ _ H Ho0 Hp0)
      as (Hst & e & tb & He & _).
    destruct (thread_failure_effect _ _ _ _ H Ho0 Hp0 He) as (w2 & E & Hfe).
    assert (w2 = w1) as -> by congruence.
    rewrite (fe_abort _ _ _ _ _ Hfe) in Hab1.
    destruct (is_abort e) eqn:Hab.
    { rewrite orb_false_r in Hab1. contradiction. }
    exists t0, (set_pc AtCheck o0). split.
    + by rewrite list_lookup_alter_eq, (fe_self _ _ _ _ _ Hfe), Hab.
    + split; [by left|done].
  - unfold thread_success in Hts.
    destruct (start_all (dependents w t0) (heap w)) as [h1|]; [|done].
    simpl in Hts. injection Hts as <-. cbn [multi] in Hab1.
    destruct (signal_if_done_spec (incr_done (multi w)))
      as (_ & _ & _ & Eab & _).
    rewrite Eab in Hab1. contradiction.
Qed.

(** Only the creation of a thread object extends the store. *)
Lemma step_new_object w w' t o1 :
  Inv w → step w w' → heap w !! t = None → heap w' !! t = Some o1 →
  ∃ n d, o1 = new_thread n d.
Proof.
  intros H Hs Ho Ho1.
  destruct Hs as [w n d Hc Hd|w t0 Hc Ht0|w Hc|w t0 todo h' Hc Hst|w Hc Had
                 |w t0 o0 r Ho0 Hp0|w t0 o0 w1 Ho0 Hp0 Htf
                 |w t0 o0 w1 Ho0 Hp0 Hs0 Hts|w t0 o0 Ho0 Hp0 Hs0];
    cbn [alloc run with_pc heap multi caller] in *.
  - apply lookup_app_Some in Ho1 as [?|[_ Ho1]]; [congruence|].
    apply list_lookup_singleton_Some in Ho1 as [_ <-]. eauto.
  - unfold add_thread in Ho1. destruct (heap w !! t0); simpl in Ho1;
      congruence.
  - congruence.
  - exfalso. apply start_Some in Hst as (o0 & Ho0 & Hp0 & ->).
    apply lookup_lt_Some in Ho1. rewrite length_insert in Ho1.
    apply lookup_ge_None in Ho. lia.
  - congruence.
  - exfalso. apply lookup_lt_Some in Ho1. rewrite length_insert in Ho1.
    apply lookup_ge_None in Ho. lia.
  - exfalso. assert (heap w1 !! t = None) as E1.
    { destruct (Inv_handler_exception _ _ _ H Ho0 Hp0)
        as (_ & e & tb & He & _).
      destruct (thread_failure_effect _ _ _ _ H Ho0 Hp0 He)
        as (w2 & E & Hfe).
      assert (w2 = w1) as -> by congruence.
      assert (t ≠ t0) as Hne by congruence.
      destruct (fe_others _ _ _ _ _ Hfe t Hne) as [->|(_ & ? & ? & _)];
        congruence. }
    apply lookup_lt_Some in Ho1. rewrite length_alter in Ho1.
    apply lookup_ge_None in E1. lia.
  - exfalso. unfold thread_success in Hts.
    destruct (start_all (dependents w t0) (heap w)) as [h1|] eqn:Esa;
      [|done].
    simpl in Hts. injection Hts as <-. cbn [heap] in Ho1.
    apply start_all_Some in Esa as [_ HD].
    assert (h1 !! t = None) as E1.
    { destruct (decide (t ∈ dependents w t0)) as [Hin|Hout].
      - destruct (HD t) as [Hi _]. destruct (Hi Hin) as (? & ? & _).
        congruence.
      - destruct (HD t) as [_ Hsame]. by rewrite Hsame. }
    apply lookup_lt_Some in Ho1. rewrite length_alter in Ho1.
    apply lookup_ge_None in E1. lia.
  - exfalso. apply lookup_lt_Some in Ho1. rewrite length_alter in Ho1.
    apply lookup_ge_None in Ho. lia.
Qed.

(** In every world that satisfies the invariant, [abort] is set
    exactly if a thread has failed with an error of its own. *)
Lemma steps_abort w w' :
  Inv w →
  (abort (multi w) = true ↔
   ∃ t o, heap w !! t = Some o ∧ genuinely_failed o) →
  rtc step w w' →
  (abort (multi w') = true ↔
   ∃ t o, heap w' !! t = Some o ∧ genuinely_failed o).
Proof.
  intros H Hiff Hs. induction Hs as [w|w wa wb Hs1 _ IH]; [done|].
  apply (IH (Inv_step _ _ H Hs1)). clear IH. split.
  - intros Hab1.
    destruct (decide (abort (multi w) = true)) as [Hab|Hnab].
    + apply Hiff in Hab as (t & o & Ho & Hgf).
      destruct (step_object _ _ _ _ H Hs1 Ho) as (o1 & Ho1 & [->|Hos]);
        [by exists t, o|].
      exists t, o1. split; [done|].
      by apply (obj_step_genuinely_failed _ _ _ (inv_local _ H _ _ Ho) Hos).
    + by apply (step_sets_abort w wa).
  - intros (t & o1 & Ho1 & Hgf).
    destruct (heap w !! t) as [o|] eqn:Ho.
    + destruct (step_object _ _ _ _ H Hs1 Ho) as (o2 & Ho2 & Hcase).
      assert (o2 = o1) as -> by congruence.
      destruct Hcase as [->|Hos].
      * apply (step_flags _ _ H Hs1), Hiff. by exists t, o.
      * destruct (obj_step_genuinely_failed _ _ _ (inv_local _ H _ _ Ho) Hos)
          as [_ Hback].
        destruct (Hback Hgf) as [Hgf0|?]; [|done].
        apply (step_flags _ _ H Hs1), Hiff. by exists t, o.
    + destruct (step_new_object _ _ _ _ H Hs1 Ho Ho1) as (n & d & ->).
      destruct Hgf as [[?|?] _]; done.
Qed.

(** X4.  In every reachable world [abort] is set exactly if some thread
    has failed with an exception that is not a [ThreadAbortException]
    and has reported it (status 1, past [thread_failure]).  An aborted
    or skipped thread never sets it. *)
Theorem abort_iff_some_thread_failed w :
  reachable w →
  (abort (multi w) = true ↔
   ∃ t o, heap w !! t = Some o ∧ genuinely_failed o).
Proof.
  intros Hr. apply (steps_abort World_init w Inv_init); [|exact Hr].
  split; [done|]. intros (t & o & Ho & _). simpl in Ho.
  by rewrite lookup_nil in Ho.
Qed.

(** X4, instance: a single thread has acknowledged an abort that was
    never requested; [abort] is not set. *)
Lemma abort_iff_some_thread_failed_witness :
  ¬ ∃ t o, heap (after one_aborted) !! t = Some o ∧ genuinely_failed o.
Proof.
  intros Hex.
  apply (abort_iff_some_thread_failed (after one_aborted)) in Hex.
  - vm_compute in Hex. discriminate.
  - apply after_reachable. vm_compute. eauto.
Defined.

(** A registered thread whose dependency is not registered is never
    started and never skipped. *)
Lemma Inv_orphan_fresh w t o p :
  Inv w → heap w !! t = Some o → depends o = Some p →
  p ∉ values (multi w) → fresh o.
Proof.
  intros H Ho Hd Hp.
  assert (∀ op, heap w !! p = Some op → at_pc op = NotStarted ∧ status op ≠ 3)
    as Hpar.
  { intros op Hop. split.
    - destruct (decide (at_pc op = NotStarted)) as [|Hn]; [done|].
      by destruct (inv_started _ H _ _ Hop Hn).
    - intros Hs3. by destruct (inv_skipped _ H _ _ Hop Hs3). }
  split.
  - destruct (decide (at_pc o = NotStarted)) as [|Hn]; [done|exfalso].
    destruct (inv_started _ H _ _ Ho Hn) as [_ Hpp].
    destruct (Hpp _ Hd) as (op & Hop & Hfin & _).
    destruct (Hpar _ Hop). congruence.
  - intros Hs3.
    destruct (inv_skipped _ H _ _ Ho Hs3) as (_ & p' & op & Hd' & Hop & Hf).
    assert (p' = p) as -> by congruence.
    destruct (Hpar _ Hop) as [Hn Hs]. destruct Hf as [?|[[?|?] _]]; congruence.
Qed.

(** X5.  If, when [run] is called, a registered thread depends on a
    thread object that was not registered, that thread is never started
    and never skipped, [done_threads] stays below [num_threads],
    [all_done] is never set and [run] never returns. *)
Theorem unregistered_dependency_blocks_run w t o p :
  reachable w → caller w ≠ Registering →
  t ∈ values (multi w) → heap w !! t = Some o → depends o = Some p →
  p ∉ values (multi w) →
  ∀ w', rtc step w w' →
    (∃ o', heap w' !! t = Some o' ∧ at_pc o' = NotStarted ∧ status o' = -1)
    ∧ done_threads (multi w') < num_threads (multi w')
    ∧ all_done (multi w') = false
    ∧ caller w' ≠ Returned.
Proof.
  intros Hr Hrun Ht Ho Hd Hp w' Hs. pose proof (reachable_Inv _ Hr) as H.
  pose proof (Inv_steps _ _ H Hs) as H'.
  destruct (steps_flags _ _ H Hs) as (_ & _ & Hreg).
  destruct (Hreg Hrun) as (Hrun' & Enum & Ethr & _).
  assert (values (multi w') = values (multi w)) as Evals
    by (unfold values; by rewrite Ethr).
  assert (∃ o', heap w' !! t = Some o' ∧ depends o' = Some p)
    as (o' & Ho' & Hd').
  { clear Hreg Hrun' Enum Ethr Evals H'. revert o Ho Hd Ht Hp Hrun.
    induction Hs as [w|w wa wb Hs1 _ IH]; intros o Ho Hd Ht Hp Hrun; [eauto|].
    destruct (step_object _ _ _ _ H Hs1 Ho) as (o1 & Ho1 & Hcase).
    assert (depends o1 = Some p) as Hd1.
    { destruct Hcase as [->|Hos]; [done|].
      destruct (obj_step_keeps _ _ _ Hos) as [_ ->]. done. }
    destruct (step_flags _ _ H Hs1) as (_ & _ & Hreg).
    destruct (Hreg Hrun) as (Hrun1 & _ & Ethr1 & _).
    assert (values (multi wa) = values (multi w)) as Ev
      by (unfold values; by rewrite Ethr1).
    apply (IH (rtc_r _ _ _ Hr Hs1) (Inv_step _ _ H Hs1) o1); try done;
      by rewrite Ev. }
  assert (fresh o') as [Hpc Hst].
  { eapply Inv_orphan_fresh; eauto. by rewrite Evals. }
  assert (status o' = -1) as Hst'.
  { pose proof (inv_local _ H' _ _ Ho') as Hloc. unfold local_ok in Hloc.
    rewrite Hpc in Hloc. destruct Hloc as ([?|?] & _); [done|contradiction]. }
  assert (done_threads (multi w') < num_threads (multi w')) as Hlt.
  { rewrite (inv_count _ H'). pose proof (inv_size _ H') as Hsz.
    rewrite <- length_values in Hsz.
    assert (length (filter (counted_at (heap w')) (values (multi w')))
            < length (values (multi w')))%nat; [|unfold count_done; lia].
    apply (length_filter_lt _ _ t); [by rewrite Evals|].
    unfold counted_at. rewrite Ho'. intros [?|[?|[? _]]]; congruence. }
  assert (all_done (multi w') = false) as Had.
  { apply not_true_is_false. intros Had.
    pose proof (inv_signal _ H' Had). lia. }
  split_and!; [by exists o'|done|done|].
  intros Hret. pose proof (inv_caller _ H') as Hok. unfold caller_ok in Hok.
  rewrite Hret in Hok. destruct Hok as [? _]. congruence.
Qed.

(** X5, instance. *)
Lemma unregistered_dependency_blocks_run_witness :
  all_done (multi (after orphan_b)) = false
  ∧ caller (after orphan_b) ≠ Returned.
Proof.
  destruct (unregistered_dependency_blocks_run (after orphan_b) 1%nat
              (new_thread "B" (Some 0%nat)) 0%nat) with (w' := after orphan_b)
    as (_ & _ & Had & Hc).
  - apply after_reachable. vm_compute. eauto.
  - vm_compute. discriminate.
  - apply (bool_decide_unpack _). vm_compute. exact I.
  - vm_compute. reflexivity.
  - reflexivity.
  - apply (bool_decide_unpack _). vm_compute. exact I.
  - apply rtc_refl.
  - split; [exact Had|exact Hc].
Defined.

Lemma failed_status o :
  local_ok o → failed o → status o = 1 ∨ status o = 2 ∨ status o = 3.
Proof.
  unfold local_ok. intros Hloc [?|[[Hp|Hp] Hnz]]; [auto|..];
    rewrite Hp in Hloc;
    (destruct Hloc as [[? _]|(e & tb & _ & _ & ?)]; [lia|]);
    destruct (is_abort e); auto.
Qed.

(** X6.  A thread is skipped (status 3) only if it has a dependency,
    and that dependency has status 1, 2 or 3; a thread without
    dependency is never skipped.  After [run] has returned the
    converse holds too: a registered thread whose registered dependency
    has a status other than 0 is skipped. *)
Theorem skipped_iff_dependency_did_not_succeed w t o :
  reachable w → heap w !! t = Some o →
  (status o = 3 →
     ∃ p op, depends o = Some p ∧ heap w !! p = Some op
             ∧ (status op = 1 ∨ status op = 2 ∨ status op = 3))
  ∧ (caller w = Returned → t ∈ values (multi w) →
     ∀ p op, depends o = Some p → p ∈ values (multi w) →
       heap w !! p = Some op → status op ≠ 0 → status o = 3).
Proof.
  intros Hr Ho. pose proof (reachable_Inv _ Hr) as H. split.
  - intros Hs3.
    destruct (inv_skipped _ H _ _ Ho Hs3) as (_ & p & op & Hd & Hop & Hf).
    exists p, op. split_and!; [done..|].
    apply failed_status; [by eapply inv_local|done].
  - intros Hc Ht p op Hd Hp Hop Hnz.
    destruct (Inv_returned_counted _ _ H Hc Hp) as (op' & Hop' & Hcn & _).
    assert (op' = op) as -> by congruence.
    apply (inv_cascade _ H t o p op); try done.
    destruct Hcn as [?|[?|[? _]]]; [by left|right..]; split; auto.
Qed.

(** X6, instance: [D] of the diamond is skipped, and [B], which it
    depends on, is skipped too. *)
Lemma skipped_iff_dependency_did_not_succeed_witness :
  ∃ p op, heap (after diamond_a_failed) !! p = Some op
          ∧ (status op = 1 ∨ status op = 2 ∨ status op = 3).
Proof.
  destruct (skipped_iff_dependency_did_not_succeed (after diamond_a_failed)
              3%nat (set_status 3 (new_thread "D" (Some 1%nat))))
    as [Hskip _].
  - apply after_reachable. vm_compute. eauto.
  - vm_compute. reflexivity.
  - destruct Hskip as (p & op & _ & Hop & Hs); [reflexivity|].
    exists p, op. split; [exact Hop|exact Hs].
Defined.

(** ** [SSH.open] *)

Lemma open_loop_negative fuel connect k slept remaining :
  remaining < 0 →
  open_loop (S fuel) connect k slept remaining
  = Some (OpenFailed SSHTimeout k slept).
Proof.
  intros Hneg. simpl.
  rewrite (proj2 (Z.ltb_lt _ _)) by lia.
  by rewrite (proj2 (Z.ltb_lt _ _)) by lia.
Qed.

(** The loop ends within [remaining / 2 + 1] rounds, with the bounds
    on what it did. *)
Lemma open_loop_bounded connect fuel :
  ∀ k slept remaining,
    0 ≤ remaining → (Z.to_nat (remaining / 2) < fuel)%nat →
    ∃ r, open_loop fuel connect k slept remaining = Some r
         ∧ (k < attempts_of r ≤ k + Z.to_nat (remaining / 2) + 1)%nat
         ∧ slept_of r = slept + 2 * (Z.of_nat (attempts_of r) - Z.of_nat k - 1)
         ∧ match r with
           | Opened a _ =>
               connect (a - 1)%nat = None
               ∧ ∀ j, (k ≤ j < a - 1)%nat → is_Some (connect j)
           | OpenFailed e a _ =>
               (∃ msg, e = ConnectError msg ∧ connect (a - 1)%nat = Some msg)
               ∧ a = (k + Z.to_nat (remaining / 2) + 1)%nat
               ∧ ∀ j, (k ≤ j < a)%nat → is_Some (connect j)
           end.
Proof.
  induction fuel as [|fuel IH]; intros k slept remaining Hpos Hfuel; [lia|].
  simpl. rewrite (proj2 (Z.ltb_ge _ _)) by lia.
  destruct (connect k) as [msg|] eqn:Ek.
  - destruct (remaining - 2 <? 0) eqn:Elt.
    + apply Z.ltb_lt in Elt.
      assert (remaining / 2 = 0) as E0 by (apply Z.div_small; lia).
      eexists. split; [reflexivity|]. simpl. rewrite E0. simpl.
      rewrite ?Nat.sub_0_r. split_and!; try lia.
      * by exists msg.
      * intros j Hj. assert (j = k) as -> by lia. eauto.
    + apply Z.ltb_ge in Elt.
      assert ((remaining - 2) / 2 = remaining / 2 - 1) as Ediv.
      { replace (remaining - 2) with (remaining + (-1) * 2) by lia.
        rewrite Z.div_add by lia. lia. }
      assert (0 < remaining / 2) as Hq.
      { apply Z.div_str_pos. lia. }
      destruct (IH (S k) (slept + 2) (remaining - 2)) as (r & Er & Hatt & Hsl & Hr);
        [lia|rewrite Ediv; lia|].
      exists r. split; [done|]. rewrite Ediv in Hatt, Hr.
      split_and!; [lia|lia|lia|].
      destruct r as [a s|e a s]; simpl in *.
      * destruct Hr as [Hlast Hbefore]. split; [done|].
        intros j Hj. destruct (decide (j = k)) as [->|]; [eauto|].
        apply Hbefore. lia.
      * destruct Hr as (Hmsg & Ha & Hall). split_and!; [done|lia|].
        intros j Hj. destruct (decide (j = k)) as [->|]; [eauto|].
        apply Hall. lia.
  - eexists. split; [reflexivity|]. simpl. rewrite ?Nat.sub_0_r.
    split_and!; [lia|lia|lia|done|]. intros j Hj. lia.
Qed.

(** X8.  [SSH.open] always comes to an end.  With a timeout that is not
    negative it calls [connect] at least once and at most
    [timeout / 2 + 1] times, sleeps two seconds after each failed call
    but the last, in all at most [timeout] seconds, and the call it
    ends on is the first that succeeds, if it ends connected. *)
Theorem ssh_open_is_bounded connect timeout :
  0 ≤ timeout →
  ∃ r, ssh_open (S (Z.to_nat (timeout / 2))) connect timeout = Some r
       ∧ (1 ≤ attempts_of r ≤ Z.to_nat (timeout / 2) + 1)%nat
       ∧ slept_of r = 2 * (Z.of_nat (attempts_of r) - 1)
       ∧ slept_of r ≤ timeout
       ∧ (∀ a s, r = Opened a s →
            connect (a - 1)%nat = None
            ∧ ∀ j, (j < a - 1)%nat → is_Some (connect j)).
Proof.
  intros Hpos. unfold ssh_open.
  destruct (open_loop_bounded connect (S (Z.to_nat (timeout / 2))) 0%nat 0 timeout)
    as (r & Er & Hatt & Hsl & Hr); [done|lia|].
  exists r. split; [done|].
  assert (2 * (timeout / 2) ≤ timeout) as Hdiv
    by (apply Z.mul_div_le; lia).
  assert (0 ≤ timeout / 2) as Hq by (apply Z.div_pos; lia).
  split_and!; [lia|lia|lia|lia|].
  intros a s ->. destruct Hr as [Hlast Hbefore]. split; [done|].
  intros j Hj. apply Hbefore. lia.
Qed.

(** X8, instance: the default timeout of 180 seconds and a server that
    refuses the first three attempts. *)
Lemma ssh_open_is_bounded_witness :
  ∃ r, ssh_open 91 (refuses_first 3) 180 = Some r ∧ slept_of r ≤ 180.
Proof.
  destruct (ssh_open_is_bounded (refuses_first 3) 180)
    as (r & Er & _ & _ & Hle & _); [lia|].
  exists r. split; [exact Er|exact Hle].
Defined.

(** X9.  When every connection attempt fails, [SSH.open] with a timeout
    that is not negative raises the exception of its last attempt,
    attempt number [timeout / 2 + 1], and never the "SSH timeout" of
    its own; with a negative timeout it raises "SSH timeout" without
    having called [connect] or slept. *)
Theorem ssh_open_failure connect timeout fuel :
  (∀ k, is_Some (connect k)) → (Z.to_nat (timeout / 2) < fuel)%nat →
  (0 ≤ timeout →
     ∃ msg, connect (Z.to_nat (timeout / 2)) = Some msg
       ∧ ssh_open fuel connect timeout
         = Some (OpenFailed (ConnectError msg)
                   (Z.to_nat (timeout / 2) + 1) (2 * (timeout / 2))))
  ∧ (timeout < 0 →
     ssh_open fuel connect timeout = Some (OpenFailed SSHTimeout 0 0)).
Proof.
  intros Hall Hfuel. split.
  - intros Hpos. unfold ssh_open.
    destruct (open_loop_bounded connect fuel 0%nat 0 timeout)
      as (r & Er & Hatt & Hsl & Hr); [done..|].
    assert (0 ≤ timeout / 2) as Hq by (apply Z.div_pos; lia).
    destruct r as [a s|e a s]; simpl in *.
    + destruct Hr as [Hlast _]. destruct (Hall (a - 1)%nat) as [? ?].
      congruence.
    + destruct Hr as ((msg & -> & Hmsg) & Ha & _). subst a.
      exists msg. split.
      * rewrite <- Hmsg. f_equal. lia.
      * rewrite Er. f_equal. f_equal; lia.
  - intros Hneg. destruct fuel as [|fuel]; [lia|].
    unfold ssh_open. by apply open_loop_negative.
Qed.

(** X9, instance: a server that always refuses, timeout 5. *)
Lemma ssh_open_failure_witness :
  ssh_open 3 (λ _, Some "Connection refused") 5
  = Some (OpenFailed (ConnectError "Connection refused") 3 4).
Proof.
  destruct (ssh_open_failure (λ _, Some "Connection refused") 5 3)
    as [Hfail _].
  - intros k. eauto.
  - vm_compute. lia.
  - destruct Hfail as (msg & Hmsg & E); [lia|].
    injection Hmsg as <-. exact E.
Defined.

(** X10.  If the first [k] connection attempts fail and the next one
    succeeds, [SSH.open] ends connected after [k + 1] attempts and
    [2 * k] seconds of sleep, provided [2 * k] does not exceed the
    timeout; if it does, [open] raises without making that attempt. *)
Theorem ssh_open_success connect timeout fuel k :
  0 ≤ timeout → (Z.to_nat (timeout / 2) < fuel)%nat →
  (∀ j, (j < k)%nat → is_Some (connect j)) → connect k = None →
  (2 * Z.of_nat k ≤ timeout →
     ssh_open fuel connect timeout = Some (Opened (k + 1) (2 * Z.of_nat k)))
  ∧ (timeout < 2 * Z.of_nat k →
     ∃ e a s, ssh_open fuel connect timeout = Some (OpenFailed e a s)
              ∧ (a ≤ k)%nat).
Proof.
  intros Hpos Hfuel Hfail Hok. unfold ssh_open.
  destruct (open_loop_bounded connect fuel 0%nat 0 timeout)
    as (r & Er & Hatt & Hsl & Hr); [done..|].
  assert (0 ≤ timeout / 2) as Hq by (apply Z.div_pos; lia).
  assert (2 * (timeout / 2) ≤ timeout) as Hdiv
    by (apply Z.mul_div_le; lia).
  assert (timeout < 2 * (timeout / 2) + 2) as Hdiv'.
  { pose proof (Z.mod_pos_bound timeout 2 ltac:(lia)).
    pose proof (Z.div_mod timeout 2 ltac:(lia)). lia. }
  rewrite Er. destruct r as [a s|e a s]; simpl in *.
  - destruct Hr as [Hlast Hbefore].
    assert (a - 1 = k)%nat as Ea.
    { destruct (decide (a - 1 < k)%nat).
      - destruct (Hfail (a - 1)%nat) as [? ?]; [lia|congruence].
      - destruct (decide (k < a - 1)%nat); [|lia].
        destruct (Hbefore k) as [? ?]; [lia|congruence]. }
    split.
    + intros _. assert (a = (k + 1)%nat) as -> by lia.
      do 2 f_equal. lia.
    + intros Hlate. lia.
  - destruct Hr as (_ & Ha & Hall).
    assert (a ≤ k)%nat as Hak.
    { destruct (decide (a ≤ k)%nat); [done|].
      destruct (Hall k) as [? ?]; [lia|congruence]. }
    split.
    + intros Hin. lia.
    + intros _. eauto.
Qed.

(** X10, instance: three refusals, then success, within 180 seconds. *)
Lemma ssh_open_success_witness :
  ssh_open 91 (refuses_first 3) 180 = Some (Opened 4 6).
Proof.
  destruct (ssh_open_success (refuses_first 3) 180 91 3) as [Hin _].
  - lia.
  - vm_compute. lia.
  - intros j Hj. unfold refuses_first. rewrite decide_True by exact Hj. eauto.
  - reflexivity.
  - apply Hin. lia.
Defined.

(** ** [get_parent_directories] *)

Lemma rstrip_slash_prefix l : rstrip_slash l `prefix_of` l.
Proof.
  induction l as [|c l IH]; simpl; [done|].
  destruct (rstrip_slash l) as [|a r].
  - case_decide; [apply prefix_nil|].
    apply prefix_cons, prefix_nil.
  - by apply prefix_cons.
Qed.

Lemma rstrip_slash_nil l : rstrip_slash l = [] ↔ all_slashes l = true.
Proof.
  unfold all_slashes. induction l as [|c l IH]; simpl; [done|].
  destruct (rstrip_slash l) as [|a r].
  - case_decide as Hc.
    + rewrite bool_decide_eq_true_2 by done. simpl. tauto.
    + rewrite bool_decide_eq_false_2 by done. simpl. split; done.
  - split; [done|]. intros [_ H]%andb_true_iff. by apply IH in H.
Qed.

Lemma rstrip_slash_fixed l : rstrip_slash l = l → last l ≠ Some slash.
Proof.
  induction l as [|c l IH]; simpl; [done|].
  destruct (rstrip_slash l) as [|a r] eqn:E.
  - case_decide; [done|]. intros [= <-]. simpl. congruence.
  - intros [= <-]. specialize (IH eq_refl). done.
Qed.

Lemma after_last_slash_le p : (after_last_slash p ≤ length p)%nat.
Proof.
  induction p as [|c p IH]; simpl; [lia|].
  destruct (after_last_slash p); [case_decide|]; lia.
Qed.

Lemma after_last_slash_full p :
  after_last_slash p = length p → p ≠ [] → last p = Some slash.
Proof.
  induction p as [|c p IH]; simpl; [done|]. intros H _.
  destruct (after_last_slash p) as [|i] eqn:E.
  - case_decide; [|done]. destruct p; [simpl; congruence|simpl in H; lia].
  - destruct p as [|a p]; [done|]. apply IH; [simpl in *; lia|done].
Qed.

Lemma dirname_prefix p : dirname p `prefix_of` p.
Proof.
  unfold dirname. case_match.
  - etrans; [apply rstrip_slash_prefix|apply prefix_take].
  - apply prefix_take.
Qed.

Lemma after_last_slash_pos q : (1 ≤ after_last_slash (slash :: q))%nat.
Proof.
  simpl. destruct (after_last_slash q); lia.
Qed.

Lemma rooted_prefix d p : d `prefix_of` p → d ≠ [] → rooted p → rooted d.
Proof.
  intros [k ->] Hd. destruct d as [|c [|c' d]]; [done| |]; simpl.
  - intros [? _]. done.
  - intros [? ?]. done.
Qed.

Lemma dirname_nil p :
  dirname p = [] → take (after_last_slash p) p = [].
Proof.
  unfold dirname. case_match eqn:E; [|done].
  intros H%rstrip_slash_nil. rewrite H in E.
  by rewrite andb_false_r in E.
Qed.

Lemma rooted_dirname p : rooted p → rooted (dirname p).
Proof.
  intros Hp. apply (rooted_prefix _ p); [apply dirname_prefix| |done].
  intros H%dirname_nil. destruct p as [|c q]; [done|].
  destruct Hp as [-> _]. pose proof (after_last_slash_pos q).
  destruct (after_last_slash (slash :: q)); [lia|done].
Qed.

Lemma dirname_fixed p : dirname p = p → p = [] ∨ all_slashes p = true.
Proof.
  unfold dirname. case_match eqn:E.
  - intros H. pose proof (rstrip_slash_prefix (take (after_last_slash p) p)) as H1.
    pose proof (prefix_take p (after_last_slash p)) as H2.
    assert (take (after_last_slash p) p = p) as Ht.
    { apply prefix_length_eq; [done|].
      apply prefix_length in H1. rewrite H in H1. done. }
    rewrite Ht in H. apply rstrip_slash_fixed in H.
    destruct (decide (p = [])) as [|Hne]; [by left|].
    exfalso. apply H, after_last_slash_full; [|done].
    pose proof (after_last_slash_le p).
    apply (f_equal length) in Ht. rewrite length_take in Ht. lia.
  - intros H. rewrite H in E.
    apply andb_false_iff in E as [E|E].
    + left. apply negb_false_iff in E. by apply bool_decide_eq_true in E.
    + right. by apply negb_false_iff in E.
Qed.

Lemma rooted_all_slashes p : rooted p → all_slashes p = true → p = [slash].
Proof.
  destruct p as [|c [|c' q]]; [done| |]; simpl.
  - by intros [-> _].
  - intros [-> Hc]. rewrite (bool_decide_eq_false_2 (c' = slash)) by done.
    by rewrite andb_false_r.
Qed.

Lemma dirname_shrinks p :
  rooted p → p ≠ [slash] → (length (dirname p) < length p)%nat.
Proof.
  intros Hp Hne. pose proof (dirname_prefix p) as Hpre.
  pose proof (prefix_length _ _ Hpre).
  destruct (decide (length p ≤ length (dirname p))%nat) as [Hle|]; [|lia].
  exfalso. apply prefix_length_eq in Hle; [|done].
  apply dirname_fixed in Hle as [->|Hs]; [done|].
  by apply Hne, rooted_all_slashes.
Qed.

Lemma after_last_slash_two c k : (2 ≤ after_last_slash (c :: slash :: k))%nat.
Proof.
  pose proof (after_last_slash_pos k).
  change (after_last_slash (c :: slash :: k)) with
    (match after_last_slash (slash :: k) with
     | O => if decide (c = slash) then 1%nat else 0%nat
     | S i => S (S i)
     end).
  destruct (after_last_slash (slash :: k)); lia.
Qed.

Lemma dirname_double_slash k : dirname (slash :: slash :: k) ≠ [slash].
Proof.
  unfold dirname. pose proof (after_last_slash_two slash k) as Hi.
  destruct (after_last_slash (slash :: slash :: k)) as [|[|i]]; [lia|lia|].
  simpl take. case_match eqn:E; [|done].
  apply andb_true_iff in E as [_ E]. apply negb_true_iff in E.
  change (rstrip_slash (slash :: slash :: take i k)) with
    (match rstrip_slash (slash :: take i k) with
     | [] => if decide (slash = slash) then [] else [slash]
     | r => slash :: r
     end).
  destruct (rstrip_slash (slash :: take i k)) as [|a r] eqn:Er; [|done].
  apply rstrip_slash_nil in Er. unfold all_slashes in *. simpl in *.
  congruence.
Qed.

Lemma not_rooted_dirname p : ¬ rooted p → ¬ rooted (dirname p).
Proof.
  intros Hp Hd. pose proof (dirname_prefix p) as [k Hk].
  destruct (dirname p) as [|c [|c' d]] eqn:E; [done| |].
  - destruct Hd as [-> _]. rewrite Hk in Hp. simpl in Hp.
    destruct k as [|c' k]; [by apply Hp|].
    destruct (decide (c' = slash)) as [->|]; [|by apply Hp].
    rewrite Hk in E. by apply dirname_double_slash in E.
  - apply Hp. rewrite Hk. exact Hd.
Qed.

Lemma parents_loop_acc fuel dir dirs :
  parents_loop fuel dir dirs = reverse <$> parents_acc fuel dir (reverse dirs).
Proof.
  revert dir dirs. induction fuel as [|fuel IH]; intros dir dirs; simpl; [done|].
  case_decide.
  - simpl. by rewrite reverse_involutive.
  - by rewrite IH, reverse_snoc.
Qed.

Lemma get_parent_directories_acc fuel p :
  get_parent_directories fuel p = parents_acc fuel (dirname p) [dirname p].
Proof.
  unfold get_parent_directories. rewrite parents_loop_acc.
  change (reverse [dirname p]) with [dirname p].
  destruct (parents_acc fuel (dirname p) [dirname p]); simpl; [|done].
  by rewrite reverse_involutive.
Qed.

Lemma parents_acc_rooted fuel dir rest :
  rooted dir → (length dir ≤ fuel)%nat → descending (dir :: rest) →
  ∃ l, parents_acc fuel dir (dir :: rest) = Some l ∧
    head l = Some [slash] ∧ descending l ∧ last l = last (dir :: rest) ∧
    (length l ≤ length dir + length rest)%nat ∧
    ∀ d, d ∈ l → d ∈ rest ∨ (rooted d ∧ d `prefix_of` dir).
Proof.
  revert dir rest. induction fuel as [|fuel IH]; intros dir rest Hr Hlen Hd.
  { destruct dir; [done|simpl in Hlen; lia]. }
  simpl. case_decide as Hdir.
  - exists (dir :: rest). split_and!; try done.
    + simpl. by rewrite Hdir.
    + rewrite Hdir. simpl. lia.
    + intros d [->|]%elem_of_cons; auto.
  - pose proof (dirname_shrinks dir Hr Hdir) as Hs.
    destruct (IH (dirname dir) (dir :: rest)) as (l & El & Hh & Hdl & Hl & Hn & Hm).
    + by apply rooted_dirname.
    + lia.
    + by constructor.
    + exists l. split_and!; try done.
      * simpl in Hn. lia.
      * intros d Hin. destruct (Hm d Hin) as [[->|]%elem_of_cons|[? ?]]; auto.
        right. split; [done|]. etrans; [done|]. apply dirname_prefix.
Qed.

Lemma parents_acc_not_rooted fuel dir acc :
  ¬ rooted dir → parents_acc fuel dir acc = None.
Proof.
  revert dir acc. induction fuel as [|fuel IH]; intros dir acc Hr; simpl; [done|].
  case_decide as Hdir.
  - exfalso. apply Hr. by rewrite Hdir.
  - by apply IH, not_rooted_dirname.
Qed.

(** X11. For a path that starts with exactly one slash,
    [get_parent_directories] returns (the loop ends within [length p]
    rounds) the chain of ancestors from the root down: the first
    element is "/", the last is the directory of the path, every
    element is the [dirname] of the next one, every element is an
    absolute prefix of the path, and there are at most [length p]
    elements. *)
Theorem get_parent_directories_rooted p fuel :
  rooted p → (length p ≤ fuel)%nat →
  ∃ l, get_parent_directories fuel p = Some l ∧
    head l = Some [slash] ∧ last l = Some (dirname p) ∧ descending l ∧
    (length l ≤ length p)%nat ∧
    ∀ d, d ∈ l → rooted d ∧ d `prefix_of` p.
Proof.
  intros Hr Hlen. rewrite get_parent_directories_acc.
  pose proof (dirname_prefix p) as Hpre.
  pose proof (prefix_length _ _ Hpre) as Hle.
  destruct (parents_acc_rooted fuel (dirname p) [])
    as (l & El & Hh & Hdl & Hl & Hn & Hm).
  - by apply rooted_dirname.
  - lia.
  - constructor.
  - exists l. split_and!; try done.
    + simpl in Hn. lia.
    + intros d Hin. destruct (Hm d Hin) as [Hin'|[? ?]].
      * by apply elem_of_nil in Hin'.
      * split; [done|]. by etrans.
Qed.

(** X11, instance: the parents of "/a/b/c.txt". *)
Lemma get_parent_directories_rooted_witness :
  ∃ l, get_parent_directories 10 (path "/a/b/c.txt") = Some l ∧
    head l = Some [slash] ∧ last l = Some (path "/a/b") ∧ descending l ∧
    (length l ≤ 10)%nat ∧
    ∀ d, d ∈ l → rooted d ∧ d `prefix_of` path "/a/b/c.txt".
Proof.
  apply (get_parent_directories_rooted (path "/a/b/c.txt") 10).
  - vm_compute. split; [reflexivity|discriminate].
  - vm_compute. lia.
Defined.

(** X12. [get_parent_directories] returns exactly for the paths that
    start with one single slash: for these the result does not depend
    on the number of rounds allowed beyond [length p]; for every other
    path (relative, empty, or starting with two slashes) the loop
    [while dir != "/"] never ends. *)
Theorem get_parent_directories_returns_iff_rooted p :
  (rooted p →
     ∃ l, ∀ fuel, (length p ≤ fuel)%nat →
       get_parent_directories fuel p = Some l) ∧
  (¬ rooted p → ∀ fuel, get_parent_directories fuel p = None).
Proof.
  split.
  - intros Hr.
    pose proof (dirname_prefix p) as Hpre.
    pose proof (prefix_length _ _ Hpre) as Hle.
    destruct (parents_acc_rooted (length p) (dirname p) [])
      as (l & El & _); [by apply rooted_dirname|lia|constructor|].
    exists l. intros fuel Hf. rewrite get_parent_directories_acc.
    destruct (parents_acc_rooted fuel (dirname p) [])
      as (l' & El' & _); [by apply rooted_dirname|lia|constructor|].
    rewrite El'. f_equal.
    clear -El El' Hf. revert El El'.
    generalize (dirname p) at 1 3. generalize [dirname p].
    revert fuel Hf. induction (length p) as [|n IH]; intros fuel Hf acc dir; [done|].
    destruct fuel as [|fuel]; [lia|]. simpl. case_decide; [congruence|].
    apply IH. lia.
  - intros Hr fuel. rewrite get_parent_directories_acc.
    by apply parents_acc_not_rooted, not_rooted_dirname.
Qed.

(** X12, instance: a relative path and a path with two leading
    slashes. *)
Lemma get_parent_directories_returns_iff_rooted_witness :
  (∀ fuel, get_parent_directories fuel (path "etc/hosts") = None) ∧
  (∀ fuel, get_parent_directories fuel (path "//etc/hosts") = None).
Proof.
  split.
  - apply (get_parent_directories_returns_iff_rooted (path "etc/hosts")).
    vm_compute. intros [? _]. discriminate.
  - apply (get_parent_directories_returns_iff_rooted (path "//etc/hosts")).
    vm_compute. intros [_ ?]. congruence.
Defined.

(** ** [SSH.run] *)

Lemma copy_output_open f data s :
  f ∉ closed s →
  copy_output (Some f) data s =
  ({| closed := closed s;
      events := events s ++ flat_map (λ x, [EWrite f x; EFlush f]) data |},
   inr ()).
Proof.
  revert s. induction data as [|x data IH]; intros s Hf; simpl.
  - destruct s. unfold mret, IO_ret. simpl. by rewrite app_nil_r.
  - unfold mbind, IO_bind, write, flush, emit. simpl.
    rewrite !decide_False by done. simpl.
    rewrite IH by done. simpl. by rewrite <- !app_assoc.
Qed.

Lemma copy_output_closed f x data s :
  f ∈ closed s → copy_output (Some f) (x :: data) s = (s, inl ValueError).
Proof.
  intros Hf. simpl. unfold mbind, IO_bind, write. simpl.
  by rewrite decide_True.
Qed.

Lemma new_events_app s l c :
  new_events s {| closed := c; events := events s ++ l |} = l.
Proof. unfold new_events. simpl. by rewrite drop_app_length. Qed.

Lemma copy_output_events o data s :
  ∃ l r, copy_output o data s =
           ({| closed := closed s; events := events s ++ l |}, r)
    ∧ Forall (λ e, ∀ g, uses g e → o = Some g) l.
Proof.
  destruct data as [|x data].
  { exists [], (inr ()). simpl. unfold mret, IO_ret. destruct s; simpl.
    by rewrite app_nil_r. }
  destruct o as [f|].
  - destruct (decide (f ∈ closed s)) as [Hf|Hf].
    + exists [], (inl ValueError). rewrite copy_output_closed by done.
      destruct s; simpl. by rewrite app_nil_r.
    + eexists _, _. rewrite copy_output_open by done. split; [done|].
      apply Forall_flat_map, Forall_forall. intros y _.
      repeat constructor; simpl; congruence.
  - exists [], (inl AttributeError). simpl. destruct s; simpl.
    by rewrite app_nil_r.
Qed.

Lemma ssh_run_events self chan command outf errf eoe eno s s' r :
  ssh_run self chan command outf errf eoe eno s = (s', r) →
  ∃ l, events s' = events s ++ l
  ∧ Forall (λ e, ∀ g, uses g e → out_object self outf eno = Some g) l
  ∧ (∀ p, eno = false → errf = Some p → EOpen (ErrFile p) ∈ l).
Proof.
  unfold ssh_run, out_object.
  destruct eno, outf as [po|], errf as [pe|], (default_outf self) as [d|],
    (default_errf self) as [d'|];
    unfold mbind, IO_bind, mret, IO_ret, open_w, emit; simpl.
  all: repeat match goal with
    | |- context [copy_output ?o ?d ?s] =>
        let l := fresh "l" in let r := fresh "r" in let E := fresh "E" in
        let Hl := fresh "Hl" in
        destruct (copy_output_events o d s) as (l & [?|[]] & E & Hl);
        rewrite E; clear E; simpl
    | |- context [bool_decide ?P] => destruct (bool_decide P); simpl
    | |- context [andb ?a ?b] => destruct (andb a b); simpl
    end.
  all: intros [= <- <-]; simpl; rewrite <- ?app_assoc; eexists; (split; [reflexivity|]).
  all: split; [|intros p ? [= <-]; try done; set_solver].
  all: rewrite ?Forall_app, ?Forall_cons, ?Forall_nil; simpl; split_and?; try done; try congruence.
Qed.

Lemma out_object_not_errf self outf eno p :
  out_object self outf eno ≠ Some (ErrFile p).
Proof.
  unfold out_object. destruct eno, outf, (default_outf self); done.
Qed.

(** X13. Every write, flush and close that [run] makes is made on the
    output object (the file opened for [outf], or [default_outf]).
    The file named by [errf] is opened, and so truncated, but never
    written to and never closed; the standard error of the command is
    not copied anywhere. *)
Theorem ssh_run_never_uses_errf self chan command outf errf eoe eno s s' r :
  ssh_run self chan command outf errf eoe eno s = (s', r) →
  events s' = events s ++ new_events s s'
  ∧ (∀ e g, e ∈ new_events s s' → uses g e →
       out_object self outf eno = Some g)
  ∧ (∀ p, eno = false → errf = Some p →
       EOpen (ErrFile p) ∈ new_events s s'
       ∧ ∀ e, e ∈ new_events s s' → ¬ uses (ErrFile p) e).
Proof.
  intros (l & El & Hl & Hp)%ssh_run_events.
  assert (new_events s s' = l) as ->.
  { unfold new_events. by rewrite El, drop_app_length. }
  rewrite Forall_forall in Hl. split_and!; [done|by intros e g ?; apply Hl|].
  intros p He Hf. split; [by apply Hp|].
  intros e Hin Hu. by apply (Hl e Hin), out_object_not_errf in Hu.
Qed.

Lemma written_app f l1 l2 : written f (l1 ++ l2) = written f l1 ++ written f l2.
Proof. apply omap_app. Qed.

Lemma written_copied f data :
  written f (flat_map (λ x, [EWrite f x; EFlush f]) data) = data.
Proof.
  induction data as [|x data IH]; [done|].
  simpl. unfold written in *. simpl. rewrite decide_True by done.
  simpl. by rewrite IH.
Qed.

(** X14. When the output object is open ([outf] is given, or
    [default_outf] is a stream that is not closed), [run] writes to it
    exactly the bytes of the command's standard output, in order,
    closes the file it opened for [outf], and then returns the exit
    status, unless [exception_on_error] is set and the status is not 0:
    then it raises [SSHCommandFailureException].  So with
    [exception_on_error] it never returns a status other than 0. *)
Theorem ssh_run_copies_output self chan command outf errf eoe eno s f :
  out_object self outf eno = Some f → (outf = None → f ∉ closed s) →
  ∃ s', ssh_run self chan command outf errf eoe eno s =
        (s', if eoe && negb (exit_status chan =? 0)
             then inl (SSHCommandFailureException command)
             else inr (exit_status chan))
    ∧ written f (new_events s s') = stdout_data chan
    ∧ (∀ p, outf = Some p → EClose (OutFile p) ∈ new_events s s').
Proof.
  intros Ho Hc. unfold out_object in Ho. destruct eno; [done|].
  unfold ssh_run, mbind, IO_bind, mret, IO_ret, open_w, emit.
  destruct outf as [po|], errf as [pe|]; simpl in *;
    try specialize (Hc eq_refl).
  all: destruct (default_outf self) as [d|], (default_errf self) as [d'|];
    simplify_eq/=.
  all: rewrite copy_output_open
    by (simpl; rewrite ?list_elem_of_filter; intuition congruence); simpl.
  all: repeat match goal with
    | |- context [bool_decide ?P] => destruct (bool_decide P); simpl
    | |- context [andb ?a ?b] => destruct (andb a b); simpl
    end.
  all: unfold io_raise; eexists; (split; [reflexivity|]).
  all: rewrite <- ?app_assoc, new_events_app.
  all: split; [|intros p Hp; simplify_eq; rewrite ?elem_of_app, ?elem_of_cons; tauto].
  all: rewrite ?written_app, written_copied; simpl.
  all: by rewrite app_nil_r.
Qed.

(** X14, instance: [run("echo ok", outf="out.log")]. *)
Lemma ssh_run_copies_output_witness :
  ∃ s', ssh_run SSH_default prints_ok "echo ok" (Some "out.log") None
          true false io_init = (s', inr 0)
    ∧ written (OutFile "out.log") (new_events io_init s')
      = [Byte.x6f; Byte.x6b; Byte.x0a]
    ∧ (∀ p, Some "out.log" = Some p →
         EClose (OutFile p) ∈ new_events io_init s').
Proof.
  apply (ssh_run_copies_output SSH_default prints_ok "echo ok"
           (Some "out.log") None true false io_init (OutFile "out.log")).
  - reflexivity.
  - discriminate.
Defined.

(** X13, instance: [run("echo ok", errf="err.log")]. *)
Lemma ssh_run_never_uses_errf_witness :
  let s' := (ssh_run SSH_default prints_ok "echo ok" None (Some "err.log")
               true false io_init).1 in
  EOpen (ErrFile "err.log") ∈ new_events io_init s'
  ∧ ∀ e, e ∈ new_events io_init s' → ¬ uses (ErrFile "err.log") e.
Proof.
  intros s'.
  destruct (ssh_run_never_uses_errf SSH_default prints_ok "echo ok" None
              (Some "err.log") true false io_init s' (inr 0))
    as (_ & _ & H).
  - reflexivity.
  - apply (H "err.log"); reflexivity.
Defined.

Lemma ssh_run_closes_default self chan command errf eoe s d :
  default_outf self = Some d → Std d ∉ closed s →
  d ≠ SysStdout ∨ errf ≠ None ∨ default_errf self ≠ Some SysStderr →
  Std d ∈ closed (ssh_run self chan command None errf eoe false s).1.
Proof.
  intros Hd Hc Hb.
  unfold ssh_run, mbind, IO_bind, mret, IO_ret, open_w, emit.
  rewrite Hd. destruct errf as [pe|], (default_errf self) as [d'|]; simpl.
  all: rewrite copy_output_open
    by (simpl; rewrite ?list_elem_of_filter; intuition congruence); simpl.
  all: repeat match goal with
    | |- context [bool_decide ?P] => destruct (bool_decide_reflect P); simpl
    | |- context [andb ?a ?b] => destruct (andb a b); simpl
    end.
  all: try (left; done). all: try (right; left; done).
  all: exfalso;
    repeat match goal with H : ¬ _ ≠ _ |- _ => apply dec_stable in H end;
    simplify_eq; destruct Hb as [?|[?|?]]; congruence.
Qed.

Lemma copy_output_closed_ne f data s :
  data ≠ [] → f ∈ closed s → copy_output (Some f) data s = (s, inl ValueError).
Proof. destruct data; [done|]. intros _. apply copy_output_closed. Qed.

Lemma ssh_run_on_closed_stream self chan command errf eoe s d :
  default_outf self = Some d → Std d ∈ closed s → stdout_data chan ≠ [] →
  ∃ s', ssh_run self chan command None errf eoe false s = (s', inl ValueError)
    ∧ (EExitStatus ∉ new_events s s')
    ∧ written (Std d) (new_events s s') = [].
Proof.
  intros Hd Hc Hdata.
  unfold ssh_run, mbind, IO_bind, mret, IO_ret, open_w, emit.
  rewrite Hd. destruct errf as [pe|], (default_errf self) as [d'|]; simpl.
  all: rewrite copy_output_closed_ne
    by (simpl; rewrite ?list_elem_of_filter; intuition congruence); simpl.
  all: eexists; (split; [reflexivity|]).
  all: rewrite <- ?app_assoc, new_events_app.
  all: split; [|done].
  all: rewrite ?elem_of_app, ?elem_of_cons, ?elem_of_nil; intuition congruence.
Qed.

(** X15. [run] closes the default output stream whenever it is used
    ([outf] not given) and either it is not [sys.stdout], or [errf] is
    given, or [default_errf] is not [sys.stderr]: the second test,
    [errf != sys.stderr], closes [outf].  From then on every [run] on
    the default output stream of a command that prints anything raises
    [ValueError] at the first byte, writes nothing and does not read
    the exit status. *)
Theorem ssh_run_closes_default_outf self chan command errf eoe s d :
  default_outf self = Some d → Std d ∉ closed s →
  d ≠ SysStdout ∨ errf ≠ None ∨ default_errf self ≠ Some SysStderr →
  ∃ s1 r1, ssh_run self chan command None errf eoe false s = (s1, r1)
    ∧ Std d ∈ closed s1
    ∧ ∀ chan2 command2 errf2 eoe2, stdout_data chan2 ≠ [] →
        ∃ s2, ssh_run self chan2 command2 None errf2 eoe2 false s1
              = (s2, inl ValueError)
          ∧ (EExitStatus ∉ new_events s1 s2)
          ∧ written (Std d) (new_events s1 s2) = [].
Proof.
  intros Hd Hc Hb.
  pose proof (ssh_run_closes_default self chan command errf eoe s d Hd Hc Hb)
    as Hcl.
  destruct (ssh_run self chan command None errf eoe false s) as [s1 r1].
  exists s1, r1. split_and!; [done|done|].
  intros chan2 command2 errf2 eoe2 Hdata.
  by apply ssh_run_on_closed_stream.
Qed.

(** X15, instance: after [run("echo ok", errf="err.log")] on a default
    [SSH] object, [sys.stdout] is closed and a second [run("echo ok")]
    raises [ValueError]. *)
Lemma ssh_run_closes_default_outf_witness :
  ∃ s1 r1, ssh_run SSH_default prints_ok "echo ok" None (Some "err.log")
             true false io_init = (s1, r1)
    ∧ Std SysStdout ∈ closed s1
    ∧ ∀ chan2 command2 errf2 eoe2, stdout_data chan2 ≠ [] →
        ∃ s2, ssh_run SSH_default chan2 command2 None errf2 eoe2 false s1
              = (s2, inl ValueError)
          ∧ (EExitStatus ∉ new_events s1 s2)
          ∧ written (Std SysStdout) (new_events s1 s2) = [].
Proof.
  apply (ssh_run_closes_default_outf SSH_default prints_ok "echo ok"
           (Some "err.log") true io_init SysStdout).
  - reflexivity.
  - apply (bool_decide_unpack _). reflexivity.
  - right. left. discriminate.
Defined.

(** X16. An [SSH] object built with [default_outf = None]: [run]
    without [outf] raises [AttributeError] before reading the exit
    status, and uses no file object, as soon as [errf] is given or
    [default_errf] is not [None] too; if both are [None] it runs the
    command without copying any output, as with [expectnooutput]. *)
Theorem ssh_run_without_output_stream self chan command errf eoe s :
  default_outf self = None →
  (errf ≠ None ∨ default_errf self ≠ None →
     ∃ s', ssh_run self chan command None errf eoe false s
           = (s', inl AttributeError)
       ∧ (EExitStatus ∉ new_events s s')
       ∧ ∀ e g, e ∈ new_events s s' → ¬ uses g e)
  ∧ (errf = None → default_errf self = None →
     ssh_run self chan command None errf eoe false s
     = ssh_run self chan command None errf eoe true s).
Proof.
  intros Hd. split.
  - intros Hb.
    unfold ssh_run, mbind, IO_bind, mret, IO_ret, open_w, emit.
    rewrite Hd. destruct errf as [pe|], (default_errf self) as [d'|]; simpl.
    4: { destruct Hb; done. }
    all: destruct (stdout_data chan) as [|x data]; simpl.
    all: repeat match goal with
      | |- context [bool_decide ?P] => destruct (bool_decide_reflect P); simpl
      end.
    all: eexists; (split; [reflexivity|]).
    all: rewrite <- ?app_assoc, new_events_app.
    all: split; [|intros e g]; 
      rewrite ?elem_of_app, ?elem_of_cons, ?elem_of_nil; try intuition congruence.
    all: intros He Hu; destruct e; simpl in Hu; try done;
      intuition congruence.
  - intros -> He. unfold ssh_run. by rewrite Hd, He.
Qed.

(** X16, instance: [SSH(..., default_outf=None).run("echo ok")]. *)
Lemma ssh_run_without_output_stream_witness :
  ∃ s', ssh_run {| default_outf := None; default_errf := Some SysStderr |}
          prints_ok "echo ok" None None true false io_init
        = (s', inl AttributeError)
    ∧ (EExitStatus ∉ new_events io_init s')
    ∧ ∀ e g, e ∈ new_events io_init s' → ¬ uses g e.
Proof.
  apply (ssh_run_without_output_stream
           {| default_outf := None; default_errf := Some SysStderr |}
           prints_ok "echo ok" None true io_init).
  - reflexivity.
  - right. discriminate.
Defined.

(** ** [enum] *)

Lemma dict_of_snoc {V} (l : list (string * V)) k v :
  dict_of (l ++ [(k, v)]) = <[k := v]> (dict_of l).
Proof. unfold dict_of. by rewrite foldl_app. Qed.

Lemma zip_range_snoc {V} (int : nat → V) (l : list string) x :
  zip (l ++ [x]) (int <$> seq 0 (length (l ++ [x])))
  = zip l (int <$> seq 0 (length l)) ++ [(x, int (length l))].
Proof.
  rewrite length_app. simpl. rewrite seq_app, fmap_app. simpl.
  rewrite zip_with_app; [done|]. by rewrite length_fmap, length_seq.
Qed.

Lemma dict_of_range_last {V} (int : nat → V) (l : list string) x i :
  l !! i = Some x → (∀ j, (i < j)%nat → l !! j ≠ Some x) →
  dict_of (zip l (int <$> seq 0 (length l))) !! x = Some (int i).
Proof.
  revert i. induction l as [|y l IH] using rev_ind; intros i Hi Hlast; [done|].
  rewrite zip_range_snoc, dict_of_snoc.
  destruct (decide (y = x)) as [->|Hy].
  - rewrite lookup_insert_eq. do 2 f_equal.
    destruct (decide (i < length l)%nat) as [Hlt|Hge].
    + exfalso. apply (Hlast (length l) Hlt).
      by rewrite lookup_app_r, Nat.sub_diag by lia.
    + apply lookup_lt_Some in Hi. rewrite length_app in Hi. simpl in Hi. lia.
  - rewrite lookup_insert_ne by done.
    assert (i < length l)%nat as Hlt.
    { destruct (decide (i < length l)%nat) as [|Hge]; [done|].
      pose proof (lookup_lt_Some _ _ _ Hi) as Hl.
      rewrite length_app in Hl. simpl in Hl.
      assert (i = length l) as -> by lia.
      rewrite lookup_app_r, Nat.sub_diag in Hi by lia. simpl in Hi.
      congruence. }
    apply IH.
    + by rewrite lookup_app_l in Hi.
    + intros j Hj Hl. apply (Hlast j Hj).
      rewrite lookup_app_l; [done|]. by apply lookup_lt_Some in Hl.
Qed.

Lemma dict_of_range_none {V} (int : nat → V) (l : list string) x :
  x ∉ l → dict_of (zip l (int <$> seq 0 (length l))) !! x = None.
Proof.
  induction l as [|y l IH] using rev_ind; intros Hx; [done|].
  rewrite zip_range_snoc, dict_of_snoc.
  rewrite not_elem_of_app, not_elem_of_cons in Hx. destruct Hx as [Hx [Hy _]].
  rewrite lookup_insert_ne by done. by apply IH.
Qed.

(** X17. The dictionary [enum] builds: a name given in [named] has the
    value given there, whatever [sequential] holds; any other name has
    as value the position of its last occurrence in [sequential] (its
    position, when the names are distinct), counting from 0; a name in
    neither is not in the dictionary. *)
Theorem enum_lookup {V} (int : nat → V) sequential named x :
  (∀ v, named !! x = Some v → enum int sequential named !! x = Some v)
  ∧ (named !! x = None →
     (∀ i, sequential !! i = Some x →
        (∀ j, (i < j)%nat → sequential !! j ≠ Some x) →
        enum int sequential named !! x = Some (int i))
     ∧ (NoDup sequential → ∀ i, sequential !! i = Some x →
        enum int sequential named !! x = Some (int i))
     ∧ (x ∉ sequential → enum int sequential named !! x = None)).
Proof.
  unfold enum. split.
  - intros v Hv. by apply lookup_union_Some_l.
  - intros Hn. rewrite lookup_union_r by done. split_and!.
    + intros i Hi Hlast. by apply dict_of_range_last.
    + intros Hnd i Hi. apply dict_of_range_last; [done|].
      intros j Hj Hl. pose proof (NoDup_lookup _ _ _ _ Hnd Hi Hl). lia.
    + apply dict_of_range_none.
Qed.

(** X17, instance: [enum("A", "B", "A", B=7)]. *)
Lemma enum_lookup_witness :
  enum Z.of_nat ["A"; "B"; "A"] {["B" := 7]} !! "A" = Some 2
  ∧ enum Z.of_nat ["A"; "B"; "A"] {["B" := 7]} !! "B" = Some 7
  ∧ enum Z.of_nat ["A"; "B"; "A"] {["B" := 7]} !! "C" = None.
Proof.
  destruct (enum_lookup Z.of_nat ["A"; "B"; "A"] {["B" := 7]} "A")
    as [_ HA].
  destruct (enum_lookup Z.of_nat ["A"; "B"; "A"] {["B" := 7]} "B")
    as [HB _].
  destruct (enum_lookup Z.of_nat ["A"; "B"; "A"] {["B" := 7]} "C")
    as [_ HC].
  split_and!.
  - apply (proj1 (HA eq_refl) 2%nat); [reflexivity|].
    intros [|[|[|j]]] Hj; try lia; discriminate.
  - apply HB. reflexivity.
  - apply (proj2 (proj2 (HC eq_refl))).
    apply (bool_decide_unpack _). vm_compute. reflexivity.
Defined.

(** ** The [except] clause, assignment by assignment *)

Lemma forget_detail_id o : at_pc o ≠ InBody → forget_detail o = o.
Proof. unfold forget_detail. by intros; case_decide. Qed.

Lemma forget_detail_clean o :
  exception o = None → stack_trace o = None → forget_detail o = o.
Proof.
  unfold forget_detail. intros He Htb. case_decide; [|done].
  destruct o; simpl in *. by subst.
Qed.

Lemma forget_detail_fields o :
  name (forget_detail o) = name o ∧ status (forget_detail o) = status o
  ∧ depends (forget_detail o) = depends o ∧ at_pc (forget_detail o) = at_pc o.
Proof. unfold forget_detail. by case_decide. Qed.

Lemma forget_detail_set_status v o :
  forget_detail (set_status v o) = set_status v (forget_detail o).
Proof. unfold forget_detail. simpl. by case_decide. Qed.

Lemma forget_detail_in_body o :
  at_pc o = InBody →
  forget_detail o
  = {| name := name o; exception := None; stack_trace := None;
       status := status o; depends := depends o; at_pc := at_pc o |}.
Proof. unfold forget_detail. by intros; case_decide. Qed.

Lemma lookup_forget (h : list DemoGridThread) (i : nat) :
  forget_heap h !! i = forget_detail <$> h !! i.
Proof. apply list_lookup_fmap. Qed.

Lemma depends_of_forget h i :
  depends_of (forget_heap h) i = depends_of h i.
Proof.
  unfold depends_of. rewrite lookup_forget.
  destruct (h !! i) as [o|]; simpl; [|done].
  by destruct (forget_detail_fields o) as (_ & _ & -> & _).
Qed.

Lemma dependents_forget w t : dependents (forget w) t = dependents w t.
Proof.
  unfold dependents. simpl. apply list_filter_iff. intros i.
  by rewrite depends_of_forget.
Qed.

Lemma alter_forget f g (h : list DemoGridThread) (i : nat) :
  (∀ o, forget_detail (f o) = g (forget_detail o)) →
  alter g i (forget_heap h) = forget_heap (alter f i h).
Proof.
  intros Hfg. apply list_eq. intros j. rewrite lookup_forget.
  destruct (decide (j = i)) as [->|Hne].
  - rewrite !list_lookup_alter_eq, lookup_forget.
    destruct (h !! i); simpl; [|done]. by rewrite Hfg.
  - by rewrite !list_lookup_alter_ne, lookup_forget.
Qed.

Lemma insert_forget (h : list DemoGridThread) (i : nat) o :
  <[i := forget_detail o]> (forget_heap h) = forget_heap (<[i := o]> h).
Proof. unfold forget_heap. by rewrite list_fmap_insert. Qed.

Lemma start_forget t h :
  tidy h →
  start t (forget_heap h) = forget_heap <$> start t h.
Proof.
  intros Ht. unfold start. rewrite lookup_forget.
  destruct (h !! t) as [o|] eqn:Ho; simpl; [|done].
  destruct (forget_detail_fields o) as (_ & _ & _ & ->).
  case_decide as Hpc; [|done]. simpl. f_equal.
  rewrite <- insert_forget. f_equal.
  destruct (Ht _ _ Ho Hpc) as [He Htb].
  rewrite (forget_detail_clean o), (forget_detail_clean (set_pc InBody o)); done.
Qed.

Lemma start_tidy t h h' : tidy h → start t h = Some h' → tidy h'.
Proof.
  intros Ht (o & Ho & Hpc & ->)%start_Some i oi Hoi Hpi.
  destruct (decide (i = t)) as [->|Hne].
  - rewrite list_lookup_insert_eq in Hoi by (by eapply lookup_lt_Some).
    by injection Hoi as <-.
  - rewrite list_lookup_insert_ne in Hoi by done. by eapply Ht.
Qed.

Lemma start_all_forget l h :
  tidy h →
  start_all l (forget_heap h) = forget_heap <$> start_all l h.
Proof.
  revert h. induction l as [|t l IH]; intros h Ht; simpl; [done|].
  rewrite start_forget by done.
  destruct (start t h) as [h1|] eqn:E; simpl; [|done].
  apply IH. by eapply start_tidy.
Qed.

Lemma thread_success_forget w t :
  tidy (heap w) →
  thread_success (forget w) t = forget <$> thread_success w t.
Proof.
  intros Ht. unfold thread_success. rewrite dependents_forget. simpl.
  rewrite start_all_forget by done.
  by destruct (start_all (dependents w t) (heap w)).
Qed.

Lemma skip_forget th w : skip th (forget w) = forget (skip th w).
Proof.
  unfold skip, forget. simpl. f_equal.
  apply alter_forget. intros o. apply forget_detail_set_status.
Qed.

Lemma for_each_forget (f : nat → World → option World) l w :
  (∀ th w, f th (forget w) = forget <$> f th w) →
  for_each f l (forget w) = forget <$> for_each f l w.
Proof.
  intros Hf. revert w. induction l as [|th l IH]; intros w; simpl; [done|].
  rewrite Hf. destruct (f th w) as [w1|]; simpl; [|done]. apply IH.
Qed.

Lemma abort_dependents_forget fuel w t :
  abort_dependents fuel (forget w) t = forget <$> abort_dependents fuel w t.
Proof.
  revert w t. induction fuel as [|fuel IH]; intros w t; simpl; [done|].
  rewrite dependents_forget. apply for_each_forget.
  intros th w1. by rewrite skip_forget, IH.
Qed.

Lemma thread_failure_forget w t :
  (∀ o, heap w !! t = Some o → at_pc o ≠ InBody) →
  thread_failure (forget w) t = forget <$> thread_failure w t.
Proof.
  intros Hpc. unfold thread_failure.
  assert ((heap (forget w) !! t ≫= exception) = (heap w !! t ≫= exception))
    as ->.
  { simpl. rewrite lookup_forget. destruct (heap w !! t) as [o|] eqn:Ho; [|done].
    simpl. by rewrite forget_detail_id by eauto. }
  set (aborting := match heap w !! t ≫= exception with
                   | Some e => is_abort e | None => false end).
  assert (length (heap (forget w)) = length (heap w)) as ->
    by (simpl; apply length_fmap).
  destruct aborting; cbn [heap multi caller forget].
  - rewrite (alter_forget (set_status 2) (set_status 2))
      by (intros; apply forget_detail_set_status).
    change (mkWorld (forget_heap (alter (set_status 2) t (heap w)))
              (incr_done (multi w)) (caller w))
      with (forget (mkWorld (alter (set_status 2) t (heap w))
                      (incr_done (multi w)) (caller w))).
    rewrite abort_dependents_forget.
    by destruct (abort_dependents _ _ _).
  - change (mkWorld (forget_heap (heap w)) (incr_done (set_abort (multi w)))
              (caller w))
      with (forget (mkWorld (heap w) (incr_done (set_abort (multi w))) (caller w))).
    rewrite abort_dependents_forget.
    by destruct (abort_dependents _ _ _).
Qed.

Lemma with_pc_forget t p w :
  p ≠ InBody → (∀ o, heap w !! t = Some o → at_pc o ≠ InBody) →
  with_pc t p (forget w) = forget (with_pc t p w).
Proof.
  intros Hp Ho. unfold with_pc, forget. cbn [heap multi caller]. f_equal.
  apply list_eq. intros j. rewrite lookup_forget.
  destruct (decide (j = t)) as [->|Hne].
  - rewrite !list_lookup_alter_eq, lookup_forget.
    destruct (heap w !! t) as [o|] eqn:E; simpl; [|done]. f_equal.
    rewrite (forget_detail_id o) by eauto. by rewrite forget_detail_id.
  - by rewrite !list_lookup_alter_ne, lookup_forget.
Qed.

Lemma alloc_forget n d w :
  alloc (new_thread n d) (forget w) = forget (alloc (new_thread n d) w).
Proof.
  unfold alloc, forget, forget_heap. cbn [heap multi caller].
  by rewrite fmap_app.
Qed.

Lemma add_thread_forget w t : add_thread (forget w) t = forget (add_thread w t).
Proof.
  unfold add_thread. cbn [heap forget]. rewrite lookup_forget.
  destruct (heap w !! t) as [o|]; simpl; [|done].
  by destruct (forget_detail_fields o) as (-> & _).
Qed.

Lemma run_forget w : run (forget w) = forget (run w).
Proof.
  unfold run, forget. cbn [heap multi caller]. do 2 f_equal.
  apply list_filter_iff. intros i. by rewrite depends_of_forget.
Qed.

Lemma put_forget t o w : put t (forget_detail o) (forget w) = forget (put t o w).
Proof. unfold put, forget. cbn [heap multi caller]. by rewrite insert_forget. Qed.

Lemma put_same t o w : heap w !! t = Some o → put t o w = w.
Proof.
  intros Ho. unfold put. rewrite list_insert_id by done. by destruct w.
Qed.

Lemma tidy_of_view w : Inv (forget w) → tidy (heap w).
Proof.
  intros H t o Ho Hpc.
  assert (heap (forget w) !! t = Some o) as Hv.
  { simpl. rewrite lookup_forget, Ho. simpl. f_equal.
    apply forget_detail_id. by rewrite Hpc. }
  pose proof (inv_local _ H _ _ Hv) as Hloc. unfold local_ok in Hloc.
  rewrite Hpc in Hloc. tauto.
Qed.

(** *** What the operations leave as it is *)

Lemma same_but_status_refl o : same_but_status o o.
Proof. by split. Qed.

Lemma same_but_status_trans o1 o2 o3 :
  same_but_status o1 o2 → same_but_status o2 o3 → same_but_status o1 o3.
Proof. intros [] []. split; congruence. Qed.

Lemma Forall2_same_but_status_refl h : Forall2 same_but_status h h.
Proof.
  apply Forall_Forall2_diag, Forall_forall. intros. apply same_but_status_refl.
Qed.

Lemma Forall2_same_but_status_trans h1 h2 h3 :
  Forall2 same_but_status h1 h2 → Forall2 same_but_status h2 h3 →
  Forall2 same_but_status h1 h3.
Proof.
  intros H12. revert h3. induction H12 as [|o1 o2 h1 h2 Ho _ IH]; intros h3 H23.
  - by inversion H23.
  - inversion H23 as [|? o3 ? h3' Ho' H23']; subst. constructor.
    + by eapply same_but_status_trans.
    + by apply IH.
Qed.

Lemma alter_same_but_status v i h :
  Forall2 same_but_status h (alter (set_status v) i h).
Proof.
  revert i. induction h as [|o h IH]; intros i; [constructor|].
  destruct i as [|i]; simpl; constructor.
  - by split.
  - apply Forall2_same_but_status_refl.
  - apply same_but_status_refl.
  - apply IH.
Qed.

Lemma for_each_same_but_status (f : nat → World → option World) l w w' :
  (∀ th w1 w2, f th w1 = Some w2 →
     Forall2 same_but_status (heap w1) (heap w2)) →
  for_each f l w = Some w' → Forall2 same_but_status (heap w) (heap w').
Proof.
  intros Hf. revert w. induction l as [|th l IH]; intros w; simpl.
  - intros [= <-]. apply Forall2_same_but_status_refl.
  - destruct (f th w) as [w1|] eqn:E; simpl; [|done]. intros E'.
    eapply Forall2_same_but_status_trans; [by eapply Hf|by apply IH].
Qed.

Lemma abort_dependents_same_but_status fuel w t w' :
  abort_dependents fuel w t = Some w' →
  Forall2 same_but_status (heap w) (heap w').
Proof.
  revert w t w'. induction fuel as [|fuel IH]; intros w t w'; simpl; [done|].
  apply for_each_same_but_status. intros th w1 w2 E.
  eapply Forall2_same_but_status_trans; [|by eapply IH].
  apply alter_same_but_status.
Qed.

Lemma thread_failure_same_but_status w t w' :
  thread_failure w t = Some w' →
  Forall2 same_but_status (heap w) (heap w').
Proof.
  unfold thread_failure.
  destruct (abort_dependents _ _ _) as [w3|] eqn:E; [|done].
  cbn [mbind option_bind]. intros [= <-]. cbn [heap].
  apply abort_dependents_same_but_status in E.
  destruct (match heap w !! t ≫= exception with
            | Some e => is_abort e | None => false end); cbn [heap] in E.
  - eapply Forall2_same_but_status_trans; [|done]. apply alter_same_but_status.
  - done.
Qed.

Lemma same_but_status_frame o o' : same_but_status o o' → except_frame o o'.
Proof. intros []. split; try done; [congruence|]. left. congruence. Qed.

Lemma except_frame_refl o : except_frame o o.
Proof. split; auto. Qed.

Lemma heap_frame_refl h : heap_frame h h.
Proof.
  intros i. destruct (h !! i) as [o|] eqn:E; [|done].
  exists o. split; [done|]. apply except_frame_refl.
Qed.

Lemma heap_frame_same_but_status h h' :
  Forall2 same_but_status h h' → heap_frame h h'.
Proof.
  intros HF i. destruct (h !! i) as [o|] eqn:E.
  - destruct (Forall2_lookup_l _ _ _ _ _ HF E) as (o' & Ho' & Hs).
    exists o'. split; [done|]. by apply same_but_status_frame.
  - intros o' Ho'. destruct (Forall2_lookup_r _ _ _ _ _ HF Ho') as (o & Ho & _).
    congruence.
Qed.

(** A frame, and then one thread that is not inside the [try]
    statement moves on. *)
Lemma heap_frame_with_pc h h' t o p :
  heap_frame h h' → p ≠ InBody →
  h !! t = Some o → at_pc o ≠ InBody →
  heap_frame h (alter (set_pc p) t h').
Proof.
  intros HF Hp Ho Ht i. specialize (HF i).
  destruct (decide (i = t)) as [->|Hne].
  - rewrite list_lookup_alter_eq. rewrite Ho in *.
    destruct HF as (o' & -> & [He Htb Hst Hen]). simpl.
    exists (set_pc p o'). split; [done|]. by split.
  - by rewrite list_lookup_alter_ne.
Qed.

Lemma start_all_frame l h h' : start_all l h = Some h' → heap_frame h h'.
Proof.
  intros [_ Hl]%start_all_Some i. destruct (Hl i) as [Hin Hout].
  destruct (decide (i ∈ l)) as [Hi|Hi].
  - destruct (Hin Hi) as (o & -> & Hpc & ->).
    exists (set_pc InBody o). split; [done|]. split; simpl; auto.
  - rewrite (Hout Hi). destruct (h !! i) as [o|] eqn:E; [|done].
    exists o. split; [done|]. apply except_frame_refl.
Qed.

Lemma start_frame t h h' : start t h = Some h' → heap_frame h h'.
Proof.
  intros E. apply (start_all_frame [t]). simpl. by rewrite E.
Qed.

Lemma heap_frame_alloc h o : at_pc o = NotStarted → heap_frame h (h ++ [o]).
Proof.
  intros Hpc i. destruct (h !! i) as [oi|] eqn:E.
  - exists oi. split; [by apply lookup_app_l_Some|]. apply except_frame_refl.
  - intros o' Ho'. apply lookup_ge_None in E.
    rewrite lookup_app_r in Ho' by done.
    apply list_lookup_singleton_Some in Ho' as [_ <-]. done.
Qed.

Lemma except_ok_frame fw h' m c :
  except_ok fw → tidy (heap (now fw)) → heap_frame (heap (now fw)) h' →
  except_ok (mkFine (mkWorld h' m c) (in_except fw)).
Proof.
  intros Hok Ht HF t. specialize (Hok t). specialize (HF t).
  cbn [now in_except heap].
  destruct (in_except fw !! t) as [[tb|]|].
  - destruct Hok as (o & Ho & Hpc & He & Htb). rewrite Ho in HF.
    destruct HF as (o' & Ho' & [Fe Ftb Fst _]).
    exists o'. split_and!; [done|by apply Fst|by rewrite Fe|by rewrite Ftb].
  - destruct Hok as (o & Ho & Hpc & He & Htb). rewrite Ho in HF.
    destruct HF as (o' & Ho' & [Fe Ftb Fst _]).
    exists o'. split_and!; [done|by apply Fst|by rewrite Fe|by rewrite Ftb].
  - intros o' Ho' Hpc'. destruct (heap (now fw) !! t) as [o|] eqn:Ho.
    + destruct HF as (o2 & Ho2 & [Fe Ftb _ Fen]).
      assert (o2 = o') as -> by congruence. rewrite Fe, Ftb.
      destruct (Fen Hpc') as [Hb|Hn]; [by apply Hok|by eapply Ht].
    + specialize (HF _ Ho'). congruence.
Qed.

(** A thread takes a step inside the [except] clause, or leaves the
    body: the other threads do not see it. *)
Lemma except_ok_put fw t o o' m' :
  except_ok fw → heap (now fw) !! t = Some o →
  (∀ i, i ≠ t → m' !! i = in_except fw !! i) →
  match m' !! t with
  | None => at_pc o' = InBody → exception o' = None ∧ stack_trace o' = None
  | Some (BeforeTrace tb) =>
      at_pc o' = InBody ∧ is_Some (exception o') ∧ stack_trace o' = None
  | Some BeforeStatus =>
      at_pc o' = InBody ∧ is_Some (exception o') ∧ is_Some (stack_trace o')
  end →
  except_ok (mkFine (put t o' (now fw)) m').
Proof.
  intros Hok Ho Hm Hx i. specialize (Hok i). cbn [now in_except put heap].
  destruct (decide (i = t)) as [->|Hne].
  - rewrite list_lookup_insert_eq by (by eapply lookup_lt_Some).
    destruct (m' !! t) as [[tb|]|]; [by exists o'..|]. by intros ? [= <-].
  - rewrite Hm by done. by rewrite list_lookup_insert_ne by done.
Qed.

Lemma lookup_view fw t o :
  heap (now fw) !! t = Some o →
  heap (atomic_view fw) !! t = Some (forget_detail o).
Proof. intros Ho. unfold atomic_view. simpl. by rewrite lookup_forget, Ho. Qed.

Lemma length_forget w : length (heap (forget w)) = length (heap w).
Proof. unfold forget_heap. simpl. apply length_fmap. Qed.

(** A transition of the finer system is a transition of [step] in the
    atomic view, or is not seen there. *)
Lemma fine_step_view fw fw' :
  fine_step fw fw' → Inv (atomic_view fw) → except_ok fw →
  except_ok fw'
  ∧ (step (atomic_view fw) (atomic_view fw')
     ∨ atomic_view fw' = atomic_view fw).
Proof.
  intros Hs H Hok. pose proof (tidy_of_view _ H) as Ht.
  destruct Hs as [fw n d Hc Hd|fw t Hc Hlt|fw Hc|fw t todo h' Hc Hst|fw Hc Had
                 |fw t o Ho Hpc Hx|fw t o e tb Ho Hpc Hx|fw t o tb Ho Hx
                 |fw t o Ho Hx|fw t o w' Ho Hpc Htf
                 |fw t o w' Ho Hpc Hs0 Hts|fw t o Ho Hpc Hs0].
  - split.
    + apply except_ok_frame; [done..|]. by apply heap_frame_alloc.
    + left. unfold atomic_view. cbn [now]. rewrite <- alloc_forget.
      apply step_new; [done|]. intros p Hp. rewrite length_forget. by apply Hd.
  - split.
    + unfold add_thread. destruct (heap (now fw) !! t); [|by destruct fw].
      apply except_ok_frame; [done..|]. apply heap_frame_refl.
    + left. unfold atomic_view. cbn [now]. rewrite <- add_thread_forget.
      apply step_add; [done|]. by rewrite length_forget.
  - split.
    + apply except_ok_frame; [done..|]. apply heap_frame_refl.
    + left. unfold atomic_view. cbn [now]. rewrite <- run_forget.
      by apply step_run.
  - split.
    + apply except_ok_frame; [done..|]. by eapply start_frame.
    + left. unfold atomic_view, forget. cbn [now heap multi caller].
      apply (step_start (forget (now fw)) t todo); [done|].
      cbn [heap forget]. rewrite start_forget by done. by rewrite Hst.
  - split.
    + apply except_ok_frame; [done..|]. apply heap_frame_refl.
    + left. by apply (step_return (forget (now fw))).
  - pose proof (Hok t) as Hokt. rewrite Hx in Hokt.
    destruct (Hokt o Ho Hpc) as [He Htb]. split.
    + apply (except_ok_put fw t o); [done..|]. by rewrite Hx.
    + left. unfold atomic_view. cbn [now]. rewrite <- put_forget.
      rewrite (forget_detail_id (set_pc AtCheck _)) by done.
      replace (set_pc AtCheck (set_status 0 o))
        with (body_done Returns (forget_detail o))
        by (by rewrite forget_detail_clean).
      apply step_body.
      * simpl. by rewrite lookup_forget, Ho.
      * by destruct (forget_detail_fields o) as (_ & _ & _ & ->).
  - pose proof (Hok t) as Hokt. rewrite Hx in Hokt.
    destruct (Hokt o Ho Hpc) as [He Htb]. split.
    + apply (except_ok_put fw t o); [done|done| |].
      * intros i Hi. by rewrite lookup_insert_ne.
      * rewrite lookup_insert_eq. simpl. split_and!; [done|eauto|done].
    + right. unfold atomic_view. cbn [now]. rewrite <- put_forget.
      apply put_same. simpl. rewrite lookup_forget, Ho. simpl. f_equal.
      by rewrite !forget_detail_in_body.
  - pose proof (Hok t) as Hokt. rewrite Hx in Hokt.
    destruct Hokt as (o2 & Ho2 & Hpc & He & Htb).
    assert (o2 = o) as -> by congruence. split.
    + apply (except_ok_put fw t o); [done|done| |].
      * intros i Hi. by rewrite lookup_insert_ne.
      * rewrite lookup_insert_eq. simpl. split_and!; [done|done|eauto].
    + right. unfold atomic_view. cbn [now]. rewrite <- put_forget.
      apply put_same. simpl. rewrite lookup_forget, Ho. simpl. f_equal.
      by rewrite !forget_detail_in_body.
  - pose proof (Hok t) as Hokt. rewrite Hx in Hokt.
    destruct Hokt as (o2 & Ho2 & Hpc & [e He] & [tb Htb]).
    assert (o2 = o) as -> by congruence. split.
    + apply (except_ok_put fw t o); [done|done| |].
      * intros i Hi. by rewrite lookup_delete_ne.
      * rewrite lookup_delete_eq. simpl. done.
    + left. unfold atomic_view. cbn [now]. rewrite <- put_forget.
      rewrite (forget_detail_id (set_pc InHandler _)) by done.
      replace (set_pc InHandler (set_status 1 o))
        with (body_done (Raises e tb) (forget_detail o)).
      2:{ rewrite forget_detail_in_body by done. simpl.
          unfold set_pc, set_status, set_failure. simpl.
          by rewrite He, Htb. }
      apply step_body.
      * simpl. by rewrite lookup_forget, Ho.
      * by destruct (forget_detail_fields o) as (_ & _ & _ & ->).
  - pose proof (thread_failure_same_but_status _ _ _ Htf) as Hsb.
    destruct (Forall2_lookup_l _ _ _ _ _ Hsb Ho) as (o1 & Ho1 & Hs1).
    split.
    + unfold with_pc. apply except_ok_frame; [done..|].
      apply (heap_frame_with_pc _ _ t o); [|done|done|by rewrite Hpc].
      by apply heap_frame_same_but_status.
    + left. unfold atomic_view. cbn [now]. rewrite <- with_pc_forget; [|done|].
      2:{ intros o2 Ho2. assert (o2 = o1) as -> by congruence.
          rewrite (sbs_pc _ _ Hs1), Hpc. done. }
      apply (step_handler _ t (forget_detail o)).
      * simpl. by rewrite lookup_forget, Ho.
      * by destruct (forget_detail_fields o) as (_ & _ & _ & ->).
      * rewrite thread_failure_forget, Htf; [done|].
        intros o2 Ho2. assert (o2 = o) as -> by congruence. by rewrite Hpc.
  - assert (∃ h1, start_all (dependents (now fw) t) (heap (now fw)) = Some h1
                  ∧ heap w' = h1) as (h1 & Esa & Eh).
    { unfold thread_success in Hts.
      destruct (start_all _ _) as [h1|]; [|done]. simpl in Hts.
      injection Hts as <-. eauto. }
    pose proof (start_all_frame _ _ _ Esa) as HF.
    split.
    + unfold with_pc. apply except_ok_frame; [done..|].
      apply (heap_frame_with_pc _ _ t o); [|done|done|by rewrite Hpc].
      by rewrite Eh.
    + left. unfold atomic_view. cbn [now]. rewrite <- with_pc_forget; [|done|].
      2:{ intros o2 Ho2. rewrite Eh in Ho2.
          apply start_all_Some in Esa as [_ Hl]. destruct (Hl t) as [Hin Hout].
          destruct (decide (t ∈ dependents (now fw) t)) as [Hi|Hi].
          - destruct (Hin Hi) as (o3 & Ho3 & Hpc3 & _). congruence.
          - rewrite (Hout Hi) in Ho2. assert (o2 = o) as -> by congruence.
            by rewrite Hpc. }
      apply (step_check_success _ t (forget_detail o)).
      * simpl. by rewrite lookup_forget, Ho.
      * by destruct (forget_detail_fields o) as (_ & _ & _ & ->).
      * by destruct (forget_detail_fields o) as (_ & -> & _).
      * by rewrite thread_success_forget, Hts.
  - split.
    + unfold with_pc. apply except_ok_frame; [done..|].
      apply (heap_frame_with_pc _ _ t o); [|done|done|by rewrite Hpc].
      apply heap_frame_refl.
    + left. unfold atomic_view. cbn [now]. rewrite <- with_pc_forget; [|done|].
      2:{ intros o2 Ho2. assert (o2 = o) as -> by congruence. by rewrite Hpc. }
      apply (step_check_other _ t (forget_detail o)).
      * simpl. by rewrite lookup_forget, Ho.
      * by destruct (forget_detail_fields o) as (_ & _ & _ & ->).
      * by destruct (forget_detail_fields o) as (_ & -> & _).
Qed.

Lemma fine_steps_view fw fw' :
  rtc fine_step fw fw' → reachable (atomic_view fw) → except_ok fw →
  reachable (atomic_view fw') ∧ except_ok fw'.
Proof.
  intros Hs. induction Hs as [fw|fw fw1 fw2 Hs _ IH]; intros Hr Hok; [done|].
  destruct (fine_step_view _ _ Hs) as [Hok' [Hst|E]];
    [by apply reachable_Inv|done|..]; apply IH; try done.
  - by eapply rtc_r.
  - by rewrite E.
Qed.

Lemma fine_reachable_view fw :
  fine_reachable fw → reachable (atomic_view fw) ∧ except_ok fw.
Proof.
  intros Hr. apply (fine_steps_view _ _ Hr).
  - apply rtc_refl.
  - intros t. simpl. by rewrite lookup_empty.
Qed.

(** *** Schedules follow the transitions *)

Lemma fine_exec_step a fw fw' : fine_exec a fw = Some fw' → fine_step fw fw'.
Proof.
  destruct a as [a|t e tb|t|t]; simpl.
  - destruct a as [n d|t| | | |t r|t|t]; simpl.
    + destruct (caller (now fw)) eqn:Hc; simpl; try done.
      destruct d as [p|]; [case_bool_decide; simpl; [|done]|]; intros [= <-];
        apply fs_new; try done; by intros ? [= <-].
    + destruct (caller (now fw)) eqn:Hc; simpl; try done.
      case_bool_decide; simpl; [|done]. intros [= <-]. by apply fs_add.
    + destruct (caller (now fw)) eqn:Hc; simpl; try done.
      intros [= <-]. by apply fs_run.
    + destruct (caller (now fw)) as [|[|t todo]|] eqn:Hc; try done.
      destruct (start t (heap (now fw))) as [h'|] eqn:Hs; [|done]. simpl.
      intros [= <-]. by eapply fs_start.
    + destruct (caller (now fw)) as [|[|t todo]|] eqn:Hc; try done.
      destruct (all_done (multi (now fw))) eqn:Had; [|done].
      intros [= <-]. by apply fs_return.
    + destruct r as [|e tb]; [|done].
      destruct (heap (now fw) !! t) as [o|] eqn:Ho; [|done]. simpl.
      case_decide; [|done].
      destruct (in_except fw !! t) eqn:Hx; [done|].
      intros [= <-]. by apply fs_body_returns.
    + destruct (heap (now fw) !! t) as [o|] eqn:Ho; [|done]. simpl.
      case_decide; [|done].
      destruct (thread_failure (now fw) t) as [w1|] eqn:Htf; [|done]. simpl.
      intros [= <-]. by eapply fs_handler.
    + destruct (heap (now fw) !! t) as [o|] eqn:Ho; [|done]. simpl.
      case_decide; [|done]. case_decide.
      * destruct (thread_success (now fw) t) as [w1|] eqn:Hts; [|done]. simpl.
        intros [= <-]. by eapply fs_check_success.
      * intros [= <-]. by eapply fs_check_other.
  - destruct (heap (now fw) !! t) as [o|] eqn:Ho; [|done]. simpl.
    case_decide; [|done].
    destruct (in_except fw !! t) eqn:Hx; [done|].
    intros [= <-]. by apply fs_body_raises.
  - destruct (heap (now fw) !! t) as [o|] eqn:Ho; [|done]. simpl.
    destruct (in_except fw !! t) as [[tb|]|] eqn:Hx; try done.
    intros [= <-]. by apply fs_store_trace.
  - destruct (heap (now fw) !! t) as [o|] eqn:Ho; [|done]. simpl.
    destruct (in_except fw !! t) as [[tb|]|] eqn:Hx; try done.
    intros [= <-]. by apply fs_store_status.
Qed.

Lemma fine_execs_steps l fw fw' :
  fine_execs l fw = Some fw' → rtc fine_step fw fw'.
Proof.
  revert fw. induction l as [|a l IH]; intros fw; simpl.
  - intros [= <-]. apply rtc_refl.
  - destruct (fine_exec a fw) as [fw1|] eqn:E; [|done]. simpl. intros El.
    eapply rtc_l; [by apply (fine_exec_step a)|by apply IH].
Qed.

Lemma fine_after_reachable l :
  is_Some (fine_execs l FineWorld_init) → fine_reachable (fine_after l).
Proof.
  intros [fw E]. unfold fine_after. rewrite E. simpl.
  by apply (fine_execs_steps l).
Qed.

(** C8 (as the code has it).  In every reachable world, with the
    assignments of the [except] clause taken one by one, a thread object
    holds an exception or a traceback only if its status is 1 (failed,
    or raised and not yet classified) or 2 (aborted), or if the thread
    is still running (status -1) and stands inside the [except] clause,
    between storing the exception and setting the status.  A thread
    with status 3 (skipped) or 0 (succeeded), or with status -1 and not
    inside the [except] clause (not started, or inside its body), holds
    neither. *)
Theorem failure_detail_only_if_failed_or_aborted fw t o :
  fine_reachable fw → heap (now fw) !! t = Some o →
  (is_Some (exception o) ∨ is_Some (stack_trace o) →
     status o = 1 ∨ status o = 2
     ∨ (status o = -1 ∧ at_pc o = InBody ∧ is_Some (in_except fw !! t)))
  ∧ (status o = 3 ∨ status o = 0
     ∨ (status o = -1 ∧ in_except fw !! t = None) →
     exception o = None ∧ stack_trace o = None).
Proof.
  intros [Hr Hok]%fine_reachable_view Ho.
  pose proof (reachable_Inv _ Hr) as H.
  pose proof (inv_local _ H _ _ (lookup_view _ _ _ Ho)) as Hloc.
  unfold local_ok in Hloc.
  destruct (forget_detail_fields o) as (_ & Es & _ & Ep).
  rewrite Ep, Es in Hloc. specialize (Hok t).
  destruct (decide (at_pc o = InBody)) as [Hpc|Hpc].
  - rewrite Hpc in Hloc. destruct Hloc as (Hs & _).
    destruct (in_except fw !! t) as [x|] eqn:Hx.
    + split; [intros _; right; right; eauto|].
      intros [?|[?|[_ ?]]]; [lia|lia|done].
    + destruct (Hok o Ho Hpc) as [He Htb]. rewrite He, Htb.
      split; [|done]. intros [[? ?]|[? ?]]; done.
  - rewrite (forget_detail_id o Hpc) in Hloc.
    assert (in_except fw !! t = None) as Hx.
    { destruct (in_except fw !! t) as [[tb|]|]; [|
        |done]; destruct Hok as (o2 & Ho2 & Hpc2 & _); congruence. }
    assert ((exception o = None ∧ stack_trace o = None
             ∧ (status o = -1 ∨ status o = 0 ∨ status o = 3))
            ∨ (is_Some (exception o) ∧ is_Some (stack_trace o)
               ∧ (status o = 1 ∨ status o = 2))) as Hcases.
    { destruct (at_pc o); [|done| | |].
      - left. destruct Hloc as ([?|?] & ? & ?); auto.
      - right. destruct Hloc as (? & ? & ?); auto.
      - destruct Hloc as [(? & ? & ?)|(e & tb & -> & -> & ?)];
          [left; auto|right].
        split_and!; eauto. destruct (is_abort e); auto.
      - destruct Hloc as [(? & ? & ?)|(e & tb & -> & -> & ?)];
          [left; auto|right].
        split_and!; eauto. destruct (is_abort e); auto. }
    split.
    + intros Hsome.
      destruct Hcases as [(He & Htb & _)|(_ & _ & [?|?])]; [|auto..].
      rewrite He, Htb in Hsome. destruct Hsome as [[? ?]|[? ?]]; done.
    + intros Hs. destruct Hcases as [(He & Htb & _)|(_ & _ & ?)]; [done|lia].
Qed.

(** C8, witness: a thread that has stored the exception "disk full"
    and not yet its status. *)
Lemma failure_detail_only_if_failed_or_aborted_witness :
  ∃ o, heap (now (fine_after one_storing)) !! 0%nat = Some o
    ∧ exception o = Some disk_full
    ∧ status o = -1 ∧ at_pc o = InBody
    ∧ is_Some (in_except (fine_after one_storing) !! 0%nat).
Proof.
  eexists. split; [vm_compute; reflexivity|].
  destruct (failure_detail_only_if_failed_or_aborted (fine_after one_storing)
              0%nat (set_exception disk_full
                       (set_pc InBody (new_thread "A" None))))
    as [Hsome _].
  - apply fine_after_reachable. vm_compute. eauto.
  - vm_compute. reflexivity.
  - split; [reflexivity|].
    destruct Hsome as [Hs|[Hs|Hs]]; [left; eauto|discriminate..|exact Hs].
Defined.

(** C8, counterexample.  The specification has only failed threads
    hold an error description and a trace.  Here [run] has returned,
    the thread [A] has status 2 (aborted), and it holds the exception
    and the traceback. *)
Lemma aborted_thread_holds_exception :
  fine_reachable (fine_after one_aborted_fine)
  ∧ caller (now (fine_after one_aborted_fine)) = Returned
  ∧ ∃ o, heap (now (fine_after one_aborted_fine)) !! 0%nat = Some o
         ∧ status o = 2
         ∧ exception o = Some ThreadAbortException
         ∧ stack_trace o = Some (trace_of "ThreadAbortException").
Proof.
  split_and!.
  - apply fine_after_reachable. vm_compute. eauto.
  - vm_compute. reflexivity.
  - eexists. split_and!; vm_compute; reflexivity.
Qed.

(** ** The contract of the bodies *)

(** The transitions of the caller and of the coordinator leave the
    threads inside their bodies where they are. *)
Lemma exec_frame a w w' :
  exec a w = Some w' → (∀ t r, a ≠ ABody t r) →
  heap_frame (heap w) (heap w').
Proof.
  destruct a as [n d|t| | | |t r|t|t]; simpl; intros E Hb.
  - destruct (_ && _); [|done]. injection E as <-.
    by apply heap_frame_alloc.
  - destruct (_ && _); [|done]. injection E as <-.
    unfold add_thread. destruct (heap w !! t); apply heap_frame_refl.
  - destruct (is_registering _); [|done]. injection E as <-.
    apply heap_frame_refl.
  - destruct (caller w) as [|[|t todo]|]; try done.
    destruct (start t (heap w)) as [h'|] eqn:Hs; [|done].
    injection E as <-. by eapply start_frame.
  - destruct (caller w) as [|[|t todo]|]; try done.
    destruct (all_done (multi w)); [|done]. injection E as <-.
    apply heap_frame_refl.
  - by destruct (Hb t r).
  - destruct (heap w !! t) as [o|] eqn:Ho; [|done]. simpl in E.
    case_decide as Hpc; [|done].
    destruct (thread_failure w t) as [w1|] eqn:Htf; [|done].
    injection E as <-.
    apply (heap_frame_with_pc _ _ t o); [|done|done|by rewrite Hpc].
    by apply heap_frame_same_but_status, (thread_failure_same_but_status w t).
  - destruct (heap w !! t) as [o|] eqn:Ho; [|done]. simpl in E.
    case_decide as Hpc; [|done]. case_decide.
    + destruct (thread_success w t) as [w1|] eqn:Hts; [|done].
      injection E as <-.
      apply (heap_frame_with_pc _ _ t o); [|done|done|by rewrite Hpc].
      unfold thread_success in Hts.
      destruct (start_all _ _) as [h1|] eqn:Esa; [|done].
      injection Hts as <-. by apply (start_all_frame _ _ _ Esa).
    + injection E as <-.
      apply (heap_frame_with_pc _ _ t o); [|done|done|by rewrite Hpc].
      apply heap_frame_refl.
Qed.

Lemma exec_contract a w w' :
  exec a w = Some w' → obeys a = true → body_contract w w'.
Proof.
  intros E Hob t o o' e Ho Ho' Hpc Hpc' He.
  assert ((∃ t0 r, a = ABody t0 r) ∨ ∀ t0 r, a ≠ ABody t0 r)
    as [(t0 & r & ->)|Hn] by (destruct a; eauto).
  - simpl in E. destruct (heap w !! t0) as [o0|] eqn:Ho0; [|done].
    simpl in E. case_decide; [|done]. injection E as <-.
    cbn [heap] in Ho'. destruct (decide (t = t0)) as [->|Hne].
    + rewrite list_lookup_insert_eq in Ho' by (by eapply lookup_lt_Some).
      injection Ho' as <-. destruct r as [|e0 tb0]; [done|].
      simpl in He. injection He as <-. simpl in Hob.
      by apply bool_decide_eq_true in Hob.
    + rewrite list_lookup_insert_ne in Ho' by done. congruence.
  - exfalso. pose proof (exec_frame a w w' E Hn t) as HF.
    rewrite Ho in HF. destruct HF as (o2 & Ho2 & [_ _ Hst _]).
    assert (o2 = o') as -> by congruence.
    rewrite (Hst Hpc) in Hpc'. done.
Qed.

Lemma execs_contract l w w' :
  forallb obeys l = true → execs l w = Some w' →
  rtc (λ w1 w2, step w1 w2 ∧ body_contract w1 w2) w w'.
Proof.
  revert w. induction l as [|a l IH]; intros w; simpl.
  - intros _ [= <-]. apply rtc_refl.
  - intros [Ha Hl]%andb_true_iff.
    destruct (exec a w) as [w1|] eqn:E; [|done]. simpl. intros El.
    eapply rtc_l; [|by apply IH]. split.
    + by apply (exec_step a).
    + by apply (exec_contract a).
Qed.

Lemma after_reachable_under_contract l :
  forallb obeys l = true → is_Some (execs l World_init) →
  reachable_under_contract (after l).
Proof.
  intros Hl [w E]. unfold after. rewrite E. simpl.
  by apply (execs_contract l).
Qed.

Lemma reachable_under_contract_reachable w :
  reachable_under_contract w → reachable w.
Proof.
  unfold reachable_under_contract, reachable.
  apply rtc_subrel. by intros w1 w2 [? _].
Qed.

(** What a step does to the exception a thread object holds. *)
Lemma step_exception w w' t o' :
  Inv w → step w w' → heap w' !! t = Some o' →
  exception o' = None
  ∨ ∃ o, heap w !! t = Some o
         ∧ (exception o' = exception o
            ∨ (at_pc o = InBody ∧ at_pc o' = InHandler)).
Proof.
  intros H Hs Ho'. destruct (heap w !! t) as [o|] eqn:Ho.
  - right. exists o. split; [done|].
    destruct (step_object _ _ _ _ H Hs Ho) as (o2 & Ho2 & [->|Hos]).
    { left. congruence. }
    assert (o2 = o') as -> by congruence.
    destruct Hos as [o Hf|o Hf|o r Hpc|o e Hpc He Hab|o Hpc].
    + by left.
    + by left.
    + destruct r as [|e tb]; [by left|by right].
    + left. by destruct (is_abort e).
    + by left.
  - left. destruct (step_new_object _ _ _ _ H Hs Ho Ho') as (n & d & ->).
    done.
Qed.

(** Under the contract, every exception a thread object holds is
    described. *)
Lemma contract_described w :
  reachable_under_contract w →
  ∀ t o e, heap w !! t = Some o → exception o = Some e → described e.
Proof.
  intros Hr.
  assert (∀ w0 w1 : World,
            rtc (λ w1 w2, step w1 w2 ∧ body_contract w1 w2) w0 w1 →
            Inv w0 →
            (∀ t o e, heap w0 !! t = Some o → exception o = Some e →
                      described e) →
            ∀ t o e, heap w1 !! t = Some o → exception o = Some e →
                     described e) as Hgen.
  { intros w0 w1 Hs. induction Hs as [w0|w0 w1 w2 [Hs Hc] _ IH];
      intros H Hd; [done|].
    apply IH; [by eapply Inv_step|].
    intros t o' e Ho' He.
    destruct (step_exception _ _ _ _ H Hs Ho') as [E|(o & Ho & [E|[Hb Hh]])].
    - congruence.
    - apply (Hd t o); [done|congruence].
    - by apply (Hc t o o'). }
  apply (Hgen World_init w Hr Inv_init).
  intros t o e Ho. done.
Qed.

(** C7.  When the bodies keep their contract (a failure is raised with
    a message), then after [run] has returned [get_exceptions] has an
    entry under a name exactly if the thread registered under that name
    has status 1 (failed); the entry is the exception the thread
    raised, whose message is not empty, with its traceback.  Threads
    with status 2 (aborted) or 3 (skipped) have no entry. *)
Theorem get_exceptions_exactly_failed w :
  reachable_under_contract w → caller w = Returned →
  (∀ n v, get_exceptions w !! n = Some v ↔
     ∃ t o e tb, threads (multi w) !! n = Some t ∧ heap w !! t = Some o
                 ∧ status o = 1
                 ∧ exception o = Some e ∧ stack_trace o = Some tb
                 ∧ is_abort e = false ∧ message e ≠ ""
                 ∧ v = (Some e, Some tb))
  ∧ (∀ n t o, threads (multi w) !! n = Some t → heap w !! t = Some o →
       status o = 1 → is_Some (get_exceptions w !! n))
  ∧ (∀ n t o, threads (multi w) !! n = Some t → heap w !! t = Some o →
       status o = 2 ∨ status o = 3 → get_exceptions w !! n = None).
Proof.
  intros Hrc Hc. pose proof (contract_described _ Hrc) as Hd.
  pose proof (reachable_Inv _ (reachable_under_contract_reachable _ Hrc)) as H.
  split_and!.
  - intros n v. rewrite (get_exceptions_lookup _ _ _ H). split.
    + intros (t & o & Ht & Ho & Hs & ->).
      destruct (Inv_returned_counted w t H Hc) as (o2 & Ho2 & Hcn & _).
      { apply elem_of_values. eauto. }
      assert (o2 = o) as -> by congruence.
      pose proof (inv_local _ H _ _ Ho) as Hloc. unfold local_ok in Hloc.
      assert (at_pc o = AtCheck ∨ at_pc o = Finished) as Hpc.
      { destruct Hcn as [?|[?|[? _]]]; [lia|auto|auto]. }
      assert (∃ e tb, exception o = Some e ∧ stack_trace o = Some tb
                      ∧ status o = (if is_abort e then 2 else 1))
        as (e & tb & He & Htb & Hse).
      { destruct Hpc as [Hpc|Hpc]; rewrite Hpc in Hloc;
          (destruct Hloc as [[? _]|Hloc]; [lia|done]). }
      assert (is_abort e = false) as Hab by (destruct (is_abort e); [lia|done]).
      exists t, o, e, tb. rewrite He, Htb. split_and!; try done.
      by apply (Hd t o e).
    + intros (t & o & e & tb & Ht & Ho & Hs & He & Htb & _ & _ & ->).
      exists t, o. by rewrite He, Htb.
  - intros n t o Ht Ho Hs. eexists.
    apply (get_exceptions_lookup _ _ _ H). by exists t, o.
  - intros n t o Ht Ho Hs.
    destruct (get_exceptions w !! n) as [v|] eqn:E; [exfalso|done].
    apply (get_exceptions_lookup _ _ _ H) in E as (t2 & o2 & Ht2 & Ho2 & Hs2 & _).
    assert (o2 = o) as -> by congruence. lia.
Qed.

(** C7, witness: the diamond after the failure of [A] with "network
    error". *)
Lemma get_exceptions_exactly_failed_witness :
  (∃ v, get_exceptions (after diamond_a_failed) !! "A" = Some v)
  ∧ get_exceptions (after diamond_a_failed) !! "B" = None.
Proof.
  destruct (get_exceptions_exactly_failed (after diamond_a_failed))
    as (_ & Hsome & Hnone).
  - apply after_reachable_under_contract; [vm_compute; reflexivity|].
    vm_compute. eauto.
  - vm_compute. reflexivity.
  - split.
    + eapply (Hsome "A" 0%nat); vm_compute; reflexivity.
    + apply (Hnone "B" 1%nat (set_status 3 (new_thread "B" (Some 0%nat)))).
      * vm_compute. reflexivity.
      * vm_compute. reflexivity.
      * right. reflexivity.
Defined.

(** The contract is needed: a body that raises [Exception()] leaves an
    entry whose message is empty. *)
Lemma empty_message_without_contract :
  reachable (after one_failed_silently)
  ∧ caller (after one_failed_silently) = Returned
  ∧ ∃ e tb, get_exceptions (after one_failed_silently) !! "C"
            = Some (Some e, Some tb)
            ∧ message e = "".
Proof.
  split_and!.
  - apply after_reachable. vm_compute. eauto.
  - vm_compute. reflexivity.
  - eexists _, _. split; vm_compute; reflexivity.
Qed.

(** X7.  Once [abort] is set, [get_exceptions] has an entry; and after
    [run] has returned, [get_exceptions] is empty exactly if [abort] is
    not set: the caller can tell from either whether a thread has
    failed with an error of its own. *)
Theorem get_exceptions_empty_iff_no_abort w :
  reachable w →
  (abort (multi w) = true → get_exceptions w ≠ ∅)
  ∧ (caller w = Returned →
     (get_exceptions w = ∅ ↔ abort (multi w) = false)).
Proof.
  intros Hr. pose proof (reachable_Inv _ Hr) as H.
  assert (abort (multi w) = true ↔
          ∃ t o, heap w !! t = Some o ∧ genuinely_failed o) as Hab.
  { apply (steps_abort World_init w Inv_init); [|exact Hr].
    split; [done|]. by intros (t & o & Ho & _). }
  assert (abort (multi w) = true → get_exceptions w ≠ ∅) as Hset.
  { intros (t & o & Ho & [Hpc Hs])%Hab E.
    destruct (inv_started _ H t o Ho) as [Ht _].
    { destruct Hpc as [-> | ->]; done. }
    apply elem_of_values in Ht as (n & Hn).
    assert (get_exceptions w !! n = Some (exception o, stack_trace o)) as Hl.
    { apply (get_exceptions_lookup _ _ _ H). by exists t, o. }
    rewrite E in Hl. by rewrite lookup_empty in Hl. }
  split; [done|]. intros Hc. split.
  - intros E. destruct (abort (multi w)) eqn:Ea; [|done].
    by destruct (Hset eq_refl).
  - intros Ea. apply map_empty. intros n.
    destruct (get_exceptions w !! n) as [v|] eqn:E; [exfalso|done].
    apply (get_exceptions_lookup _ _ _ H) in E as (t & o & Ht & Ho & Hs1 & _).
    destruct (Inv_returned_counted w t H Hc) as (o2 & Ho2 & Hcn & _).
    { apply elem_of_values. eauto. }
    assert (o2 = o) as -> by congruence.
    assert (abort (multi w) = true) as Ea'; [|congruence].
    apply Hab. exists t, o. split; [done|]. split; [|done].
    destruct Hcn as [?|[?|[? _]]]; [lia|auto|auto].
Qed.

(** X7, instance: the diamond after the failure of [A], and a single
    aborted thread. *)
Lemma get_exceptions_empty_iff_no_abort_witness :
  get_exceptions (after diamond_a_failed) ≠ ∅
  ∧ get_exceptions (after one_aborted) = ∅.
Proof.
  split.
  - destruct (get_exceptions_empty_iff_no_abort (after diamond_a_failed))
      as [Hset _].
    + apply after_reachable. vm_compute. eauto.
    + apply Hset. vm_compute. reflexivity.
  - destruct (get_exceptions_empty_iff_no_abort (after one_aborted))
      as [_ Hret].
    + apply after_reachable. vm_compute. eauto.
    + apply Hret; vm_compute; reflexivity.
Defined.
